(** * Fractals playground: the rendering engine, embedded and verified

    The engine of er-gv/web_fractals_playground paints three fractals on a
    canvas: an escape-time Julia set, a recursive circle pattern (the
    "Apollonian" approximation) and a Koch star.  The TypeScript sources
    are [src/utils/colorUtils.ts], [src/utils/fractalsRenderer.ts] (the
    three renderers the playground imports), [src/utils/thumbnailGenerators.ts]
    and the click handler and the draw dispatch of
    [src/components/fractalsPlayground.tsx].  The renderers are also in
    [src/components/juliaRenderer.ts], [src/components/apolonianGasket.ts]
    and [src/components/kochRenderer.ts], with the same bodies; the last
    module does not import the [hsbToRgb] its [drawKochStar] calls, so
    that of its two functions only [drawKochLine] is embedded here.

    A JavaScript [number] is an IEEE 754 binary64 value, and so is Rocq's
    primitive [float]: arithmetic, comparisons and [Math.sqrt] are the
    kernel's; [%], [Math.round], [Math.floor], [Math.min] and the clamped
    store of a [Uint8ClampedArray] are computed exactly from the decoded
    value.  The numbers the program only ever holds as integers are
    integers here: pixel coordinates and array indices are [nat],
    iteration counts are [Z].

    The depth of the two recursions is read twice: as an integer
    ([drawKochLine], [drawApollonianRecursive]: the program passes 3 and
    5 and goes down by [depth - 1]), and as the binary64 number it is in
    the program ([NumberDepth]).  On the integers of magnitude up to
    [2^53] the two readings are the same function
    ([number_drawKochLine], [number_drawApollonianRecursive]); past
    [2^53 + 2] the step [depth - 1] no longer moves
    ([number_drawKochLine_limit]). *)

From Stdlib Require Import ZArith Floats Bool Lia String.
From stdpp Require Import base list.
From Equations Require Import Equations.
From Equations.Prop Require Import Logic.

Set Warnings "-inexact-float".

Local Open Scope Z_scope.

(** ** JavaScript numbers *)

Module JS.

Abbreviation number := float.

(** An integer as a [number] (exact below 2^53). *)
Definition of_Z (z : Z) : number :=
  SF2Prim (binary_normalize prec emax z 0 false).

Definition of_nat (n : nat) : number := of_Z (Z.of_nat n).

(** The numerator of a finite number over the denominator [2^(-e)]. *)
Definition signed (s : bool) (m : positive) : Z :=
  if s then Z.neg m else Z.pos m.

Definition zero_of_sign (s : bool) : number :=
  if s then (-0)%float else 0%float.

(** [n % d] (Number::remainder): the exact remainder of the truncating
    division, with the sign of the dividend. *)
Definition rem (n d : number) : number :=
  match Prim2SF n, Prim2SF d with
  | S754_nan, _ | _, S754_nan => nan
  | S754_infinity _, _ => nan
  | _, S754_infinity _ => n
  | _, S754_zero _ => nan
  | S754_zero _, _ => n
  | S754_finite s1 m1 e1, S754_finite _ m2 e2 =>
      let e := Z.min e1 e2 in
      let r := Z.rem (Z.pos m1 * 2 ^ (e1 - e)) (Z.pos m2 * 2 ^ (e2 - e)) in
      if r =? 0 then zero_of_sign s1
      else SF2Prim (binary_normalize prec emax (if s1 then - r else r) e false)
  end.

(** [Math.floor] *)
Definition Math_floor (x : number) : number :=
  match Prim2SF x with
  | S754_finite s m e =>
      if 0 <=? e then x
      else of_Z (signed s m / 2 ^ (- e))
  | _ => x
  end.

(** [Math.round]: the nearest integer, ties towards +infinity; a result
    of zero keeps the sign of the argument. *)
Definition Math_round (x : number) : number :=
  match Prim2SF x with
  | S754_finite s m e =>
      if 0 <=? e then x
      else
        let d := 2 ^ (- e) in
        let r := (2 * signed s m + d) / (2 * d) in
        if r =? 0 then zero_of_sign s else of_Z r
  | _ => x
  end.

Definition Math_abs (x : number) : number := PrimFloat.abs x.
Definition Math_sqrt (x : number) : number := PrimFloat.sqrt x.

(** [Math.min] of two numbers: NaN is contagious and -0 is below +0. *)
Definition Math_min (a b : number) : number :=
  if PrimFloat.is_nan a || PrimFloat.is_nan b then nan
  else if PrimFloat.ltb a b then a
  else if PrimFloat.ltb b a then b
  else match Prim2SF a with
       | S754_zero true => a
       | _ => b
       end.

(** [Math.PI] *)
Definition Math_PI : number := 0x1.921fb54442d18p+1%float.

(** Storing a number in a [Uint8ClampedArray] (ToUint8Clamp): NaN is 0,
    the value is clamped to [0, 255] and rounded, ties to even. *)
Definition toUint8Clamp (x : number) : Z :=
  match Prim2SF x with
  | S754_nan => 0
  | S754_zero _ => 0
  | S754_infinity s => if s then 0 else 255
  | S754_finite true _ _ => 0
  | S754_finite false m e =>
      if 0 <=? e then Z.min 255 (Z.pos m * 2 ^ e)
      else
        let d := 2 ^ (- e) in
        let f := Z.pos m / d in
        let r2 := 2 * (Z.pos m mod d) in
        if 255 <=? f then 255
        else if r2 <? d then f
        else if d <? r2 then f + 1
        else if Z.even f then f else f + 1
  end.

End JS.

Import JS.

(** ** Color model ([src/utils/colorUtils.ts]) *)

Definition RGBColor : Type := number * number * number.

(** The pre-match triple [(r, g, bl)] chosen by the hue sector. *)
Definition hueSector (h c x : number) : RGBColor :=
  if (0 <=? h)%float && (h <? 60)%float then (c, x, 0%float)
  else if (60 <=? h)%float && (h <? 120)%float then (x, c, 0%float)
  else if (120 <=? h)%float && (h <? 180)%float then (0%float, c, x)
  else if (180 <=? h)%float && (h <? 240)%float then (0%float, x, c)
  else if (240 <=? h)%float && (h <? 300)%float then (x, 0%float, c)
  else (c, 0%float, x).

Definition hsbToRgb (h s b : number) : RGBColor :=
  let s := (s / 100)%float in
  let b := (b / 100)%float in
  let c := (b * s)%float in
  let x := (c * (1 - Math_abs (rem (h / 60) 2 - 1)))%float in
  let m := (b - c)%float in
  let '(r, g, bl) := hueSector h c x in
  (Math_round ((r + m) * 255), Math_round ((g + m) * 255),
   Math_round ((bl + m) * 255)).

(** ** The drawing surface

    A [CanvasRenderingContext2D] is written to, never read: a render is
    the sequence of calls it makes on the context, in order. *)

Inductive Style :=
| CssRgb (r g b : number)      (* `rgb(${r}, ${g}, ${b})` *)
| CssHex (code : string).

Record ImageData := mkImageData {
  width : nat;
  height : nat;
  data : list Z                (* Uint8ClampedArray, 4 bytes a pixel *)
}.

Inductive CanvasOp :=
| SetStrokeStyle (s : Style)
| SetFillStyle (s : Style)
| SetLineWidth (w : number)
| FillRect (x y w h : number)
| BeginPath
| MoveTo (x y : number)
| LineTo (x y : number)
| Arc (x y r startAngle endAngle : number)
| ClosePath
| Stroke
| PutImageData (img : ImageData) (dx dy : number).

Definition createImageData (w h : nat) : ImageData :=
  mkImageData w h (replicate (w * h * 4) 0).

(** [data[i] = v] on a [Uint8ClampedArray]: the value is clamped, and a
    write past the end is dropped. *)
Definition store (i : nat) (v : number) (d : list Z) : list Z :=
  <[i := toUint8Clamp v]> d.

(** [for (let i = 0; i < n; i++) body], over a state that may fail. *)
Definition for_range {S : Type} (n : nat) (body : nat -> S -> option S)
    (s : S) : option S :=
  foldl (fun acc i => acc ≫= body i) (Some s) (seq 0 n).

(** ** Escape-time generator ([src/utils/fractalsRenderer.ts],
    [src/components/juliaRenderer.ts]) *)

(** The [while] loop of the pixel: [fuel] bounds the number of tests. *)
Fixpoint julia_while (fuel : nat) (maxIter : Z) (zx2 zy2 : number)
    (iterations : Z) : option Z :=
  match fuel with
  | O => None
  | S fuel' =>
      if (zx2 * zx2 + zy2 * zy2 <? 4)%float && (iterations <? maxIter) then
        let xtemp := (zx2 * zx2 - zy2 * zy2 - 0.8)%float in
        let zy2' := (2 * zx2 * zy2 + 0.156)%float in
        julia_while fuel' maxIter xtemp zy2' (iterations + 1)
      else Some iterations
  end.

(** The per-pixel mapping: pixel [p] of [size] to the complex plane. *)
Definition pixelToMath (center radius p size : number) : number :=
  (center + ((p / size) - 0.5) * 4 * radius)%float.

(** The body of the two [for] loops at pixel [(x, y)]. *)
Definition juliaPixel (w h : nat) (centerX centerY radius : number)
    (x y : nat) (data : list Z) : option (list Z) :=
  let zx := pixelToMath centerX radius (of_nat x) (of_nat w) in
  let zy := pixelToMath centerY radius (of_nat y) (of_nat h) in
  let maxIter := 100 in
  iterations ← julia_while (Datatypes.S (Z.to_nat maxIter)) maxIter zx zy 0;
  let idx := ((y * w + x) * 4)%nat in
  let data :=
    if iterations =? maxIter then
      store (idx + 2) 0 (store (idx + 1) 0 (store idx 0 data))
    else
      let hue := (of_Z iterations / of_Z maxIter * 300)%float in
      let '(r, g, b) := hsbToRgb hue 80 90 in
      store (idx + 2) b (store (idx + 1) g (store idx r data)) in
  Some (store (idx + 3) 255 data).

Definition drawJuliaSet (w h : nat) (centerX centerY radius : number)
    : option (list CanvasOp) :=
  let imageData := createImageData w h in
  data ← for_range w (fun x =>
            for_range h (fun y => juliaPixel w h centerX centerY radius x y))
          (data imageData);
  Some [PutImageData (mkImageData w h data) 0 0].

(** ** Recursive circle generator ([src/utils/fractalsRenderer.ts],
    [src/components/apolonianGasket.ts])

    The depth is an integer: [drawApollonianGasket] passes 5 and each
    call passes [depth - 1].  [NumberDepth.drawApollonianRecursive] below
    is the recursion on any number. *)

Equations? drawApollonianRecursive (x y r : number) (depth : Z)
    : list CanvasOp by wf (Z.to_nat depth) lt :=
  drawApollonianRecursive x y r depth
    with inspect ((depth <=? 0) || (r <? 1)%float) := {
    | exist _ true _ => [];
    | exist _ false Hgo =>
        let hue := ((5 - of_Z depth) * 60)%float in
        let '(red, green, blue) := hsbToRgb hue 80 90 in
        [SetStrokeStyle (CssRgb red green blue);
         BeginPath; Arc x y r 0 (Math_PI * 2); Stroke]
        ++ (if 1 <? depth then
              let newR := (r * 0.6)%float in
              let offset := (r * 0.4)%float in
              drawApollonianRecursive (x + offset) y newR (depth - 1)
              ++ drawApollonianRecursive (x - offset) y newR (depth - 1)
              ++ drawApollonianRecursive x (y + offset) newR (depth - 1)
              ++ drawApollonianRecursive x (y - offset) newR (depth - 1)
            else []) }.
Proof.
  all: apply orb_false_elim in Hgo as [Hd _]; apply Z.leb_gt in Hd; lia.
Defined.

Definition drawApollonianGasket (centerX centerY radius : number)
    : list CanvasOp :=
  let scale := (300 / radius)%float in
  SetLineWidth 1
  :: drawApollonianRecursive (centerX * scale + 300) (centerY * scale + 300)
       (100 / radius) 5.

(** ** Recursive curve generator ([src/utils/fractalsRenderer.ts])

    [drawKochLine] is also the function of that name of
    [src/components/kochRenderer.ts]; [drawKochStar] is that of
    [src/utils/fractalsRenderer.ts] alone. *)

(** [fuel] bounds the nesting of calls; [None] is a call that does not
    come back.  The depth is an integer: [drawKochStar] passes 3 and each
    call passes [depth - 1].  [NumberDepth.drawKochLine] below is the
    recursion on any number. *)
Fixpoint drawKochLine (fuel : nat) (x1 y1 x2 y2 : number) (depth : Z)
    : option (list CanvasOp) :=
  match fuel with
  | O => None
  | S fuel' =>
      if depth =? 0 then Some [LineTo x2 y2]
      else
        let dx := (x2 - x1)%float in
        let dy := (y2 - y1)%float in
        let x3 := (x1 + dx / 3)%float in
        let y3 := (y1 + dy / 3)%float in
        let x4 := (x1 + 2 * dx / 3)%float in
        let y4 := (y1 + 2 * dy / 3)%float in
        let px := (x3 + (x4 - x3) * 0.5 - (y4 - y3) * Math_sqrt 3 / 6)%float in
        let py := (y3 + (y4 - y3) * 0.5 + (x4 - x3) * Math_sqrt 3 / 6)%float in
        s1 ← drawKochLine fuel' x1 y1 x3 y3 (depth - 1);
        s2 ← drawKochLine fuel' x3 y3 px py (depth - 1);
        s3 ← drawKochLine fuel' px py x4 y4 (depth - 1);
        s4 ← drawKochLine fuel' x4 y4 x2 y2 (depth - 1);
        Some (s1 ++ s2 ++ s3 ++ s4)
  end.

Record Vertex := mkVertex { vx : number; vy : number }.

Section Trigonometry.

(** [Math.cos] and [Math.sin] are left to the host by the language: the
    renderers are read over any pair of implementations. *)
Variables Math_cos Math_sin : number -> number.

Definition drawKochStar (centerX centerY radius : number)
    : option (list CanvasOp) :=
  let '(red, green, blue) := hsbToRgb 60 80 90 in
  let scale := (150 / radius)%float in
  let cx := (centerX * scale + 300)%float in
  let cy := (centerY * scale + 300)%float in
  let vertices :=
    map (fun i =>
           let angle := (of_nat i * Math_PI / 4)%float in
           mkVertex (cx + Math_cos angle * (100 / radius))
                    (cy + Math_sin angle * (100 / radius)))
        (seq 0 8) in
  v0 ← vertices !! 0%nat;
  edges ← for_range 8 (fun i path =>
             start ← vertices !! i;
             end_ ← vertices !! ((i + 1) mod 8)%nat;
             seg ← drawKochLine 4 (vx start) (vy start) (vx end_) (vy end_) 3;
             Some (path ++ seg)) [];
  Some ([SetStrokeStyle (CssRgb red green blue); SetLineWidth 1;
         BeginPath; MoveTo (vx v0) (vy v0)] ++ edges ++ [Stroke]).

(** ** Thumbnails ([src/utils/thumbnailGenerators.ts]) *)

Definition generateKochThumbnail (w h : number) : list CanvasOp :=
  let centerX := (w / 2)%float in
  let centerY := (h / 2)%float in
  let radius := (Math_min w h / 3)%float in
  [SetFillStyle (CssHex "#1a1a1a"); FillRect 0 0 w h;
   SetStrokeStyle (CssHex "#ffdd44"); SetLineWidth 1.5; BeginPath]
  ++ map (fun i =>
            let angle := (of_nat i * Math_PI / 4)%float in
            let x := (centerX + Math_cos angle * radius)%float in
            let y := (centerY + Math_sin angle * radius)%float in
            if (i =? 0)%nat then MoveTo x y else LineTo x y)
         (seq 0 8)
  ++ [ClosePath; Stroke].

End Trigonometry.

Record Circle := mkCircle { circle_x : number; circle_y : number; circle_r : number }.

Definition thumbnailCircles (w h : number) : list Circle :=
  let centerX := (w / 2)%float in
  let centerY := (h / 2)%float in
  let baseRadius := (Math_min w h / 6)%float in
  [ mkCircle centerX (centerY - baseRadius) (baseRadius * 0.8);
    mkCircle (centerX - baseRadius) (centerY + baseRadius * 0.5) (baseRadius * 0.8);
    mkCircle (centerX + baseRadius) (centerY + baseRadius * 0.5) (baseRadius * 0.8);
    mkCircle centerX (centerY + baseRadius * 0.3) (baseRadius * 0.4) ].

Definition generateApollonianThumbnail (w h : number) : list CanvasOp :=
  [SetFillStyle (CssHex "#1a1a1a"); FillRect 0 0 w h]
  ++ concat (imap (fun i circle =>
       let intensity := ((4 - of_nat i) / 4)%float in
       [SetStrokeStyle (CssRgb (Math_floor (255 * intensity))
                               (Math_floor (255 * intensity))
                               (Math_floor (100 * intensity)));
        SetLineWidth 2; BeginPath;
        Arc (circle_x circle) (circle_y circle) (circle_r circle) 0 (Math_PI * 2);
        Stroke]) (thumbnailCircles w h)).

(** The [while] loop of the thumbnail's pixel. *)
Fixpoint thumbnail_while (fuel : nat) (maxIter : Z) (zx2 zy2 : number)
    (iterations : Z) : option Z :=
  match fuel with
  | O => None
  | S fuel' =>
      if (zx2 * zx2 + zy2 * zy2 <? 4)%float && (iterations <? maxIter) then
        let xtemp := (zx2 * zx2 - zy2 * zy2 - 0.8)%float in
        let zy2' := (2 * zx2 * zy2 + 0.156)%float in
        thumbnail_while fuel' maxIter xtemp zy2' (iterations + 1)
      else Some iterations
  end.

Definition thumbnailPixel (w h : nat) (x y : nat) (data : list Z)
    : option (list Z) :=
  let zx := ((of_nat x / of_nat w - 0.5) * 4)%float in
  let zy := ((of_nat y / of_nat h - 0.5) * 4)%float in
  let maxIter := 50 in
  iterations ← thumbnail_while (Datatypes.S (Z.to_nat maxIter)) maxIter zx zy 0;
  let idx := ((y * w + x) * 4)%nat in
  let intensity := (of_Z iterations / of_Z maxIter)%float in
  Some (store (idx + 3) 255
         (store (idx + 2) (Math_floor (100 * (1 - intensity)))
           (store (idx + 1) (Math_floor (255 * (1 - intensity * 0.3)))
             (store idx (Math_floor (255 * (1 - intensity * 0.5))) data)))).

Definition generateJuliaThumbnail (w h : nat) : option (list CanvasOp) :=
  let imageData := createImageData w h in
  data ← for_range w (fun x => for_range h (fun y => thumbnailPixel w h x y))
          (data imageData);
  Some [PutImageData (mkImageData w h data) 0 0].

(** ** Click to focus ([src/components/fractalsPlayground.tsx]) *)

(** [handleCanvasClick], one axis: the new focus for a click at canvas
    coordinate [p] on a canvas of the given size. *)
Definition clickToFocus (p size : number) : number :=
  (((p / size) - 0.5) * 4)%float.

(** ** The playground ([src/components/fractalsPlayground.tsx]) *)

Inductive FractalType := julia | apollonian | koch.

Record FocusPoint := mkFocusPoint { focus_x : number; focus_y : number }.

(** The predefined radii, from the widest view to the closest. *)
Definition zoomLevels : list number := [2.0; 1.0; 0.5; 0.1; 0.01]%float.

(** [zoomLevels[zoomLevel]].  An index outside the array reads
    [undefined]; the renderers use the radius only as an operand of [*]
    and [/], where [undefined] is NaN. *)
Definition zoomRadius (zoomLevel : nat) : number :=
  default nan (zoomLevels !! zoomLevel).

Section Playground.

Variables Math_cos Math_sin : number -> number.

(** [drawFractal] on a mounted canvas of [w] by [h] pixels whose context
    is available. *)
Definition drawFractal (w h : nat) (selectedFractal : FractalType)
    (zoomLevel : nat) (focusPoint : FocusPoint) : option (list CanvasOp) :=
  let radius := zoomRadius zoomLevel in
  rendered ←
    match selectedFractal with
    | julia =>
        drawJuliaSet w h (focus_x focusPoint) (focus_y focusPoint) radius
    | apollonian =>
        Some (drawApollonianGasket (focus_x focusPoint) (focus_y focusPoint)
                radius)
    | koch =>
        drawKochStar Math_cos Math_sin (focus_x focusPoint)
          (focus_y focusPoint) radius
    end;
  Some ([SetFillStyle (CssHex "#000000");
         FillRect 0 0 (of_nat w) (of_nat h)] ++ rendered).

End Playground.

(** [handleCanvasClick] on a mounted canvas: the focus set by a click at
    client position [(clientX, clientY)] when the bounding rectangle of
    the canvas starts at [(rectLeft, rectTop)]. *)
Definition handleCanvasClick (clientX clientY rectLeft rectTop : number)
    (w h : nat) : FocusPoint :=
  let x := (clientX - rectLeft)%float in
  let y := (clientY - rectTop)%float in
  mkFocusPoint (clickToFocus x (of_nat w)) (clickToFocus y (of_nat h)).

(** ** The recursions on the depth as a number

    In the program the depth is a number like any other.  Here the two
    recursions are read on a binary64 depth, with fuel for the nesting of
    calls; on the integers of magnitude up to [2^53] they are the
    recursions on an integer depth above ([number_drawKochLine],
    [number_drawApollonianRecursive]). *)

Module NumberDepth.

Fixpoint drawApollonianRecursive (fuel : nat) (x y r depth : number)
    : option (list CanvasOp) :=
  match fuel with
  | O => None
  | S fuel' =>
      if (depth <=? 0)%float || (r <? 1)%float then Some []
      else
        let hue := ((5 - depth) * 60)%float in
        let '(red, green, blue) := hsbToRgb hue 80 90 in
        let circle := [SetStrokeStyle (CssRgb red green blue);
                       BeginPath; Arc x y r 0 (Math_PI * 2); Stroke] in
        if (1 <? depth)%float then
          let newR := (r * 0.6)%float in
          let offset := (r * 0.4)%float in
          c1 ← drawApollonianRecursive fuel' (x + offset) y newR (depth - 1);
          c2 ← drawApollonianRecursive fuel' (x - offset) y newR (depth - 1);
          c3 ← drawApollonianRecursive fuel' x (y + offset) newR (depth - 1);
          c4 ← drawApollonianRecursive fuel' x (y - offset) newR (depth - 1);
          Some (circle ++ c1 ++ c2 ++ c3 ++ c4)
        else Some circle
  end.

Fixpoint drawKochLine (fuel : nat) (x1 y1 x2 y2 depth : number)
    : option (list CanvasOp) :=
  match fuel with
  | O => None
  | S fuel' =>
      if (depth =? 0)%float then Some [LineTo x2 y2]
      else
        let dx := (x2 - x1)%float in
        let dy := (y2 - y1)%float in
        let x3 := (x1 + dx / 3)%float in
        let y3 := (y1 + dy / 3)%float in
        let x4 := (x1 + 2 * dx / 3)%float in
        let y4 := (y1 + 2 * dy / 3)%float in
        let px := (x3 + (x4 - x3) * 0.5 - (y4 - y3) * Math_sqrt 3 / 6)%float in
        let py := (y3 + (y4 - y3) * 0.5 + (x4 - x3) * Math_sqrt 3 / 6)%float in
        s1 ← drawKochLine fuel' x1 y1 x3 y3 (depth - 1);
        s2 ← drawKochLine fuel' x3 y3 px py (depth - 1);
        s3 ← drawKochLine fuel' px py x4 y4 (depth - 1);
        s4 ← drawKochLine fuel' x4 y4 x2 y2 (depth - 1);
        Some (s1 ++ s2 ++ s3 ++ s4)
  end.

End NumberDepth.

(** * Vocabulary of the properties *)

(** ** Reading a render *)

Definition is_LineTo (op : CanvasOp) : bool :=
  match op with LineTo _ _ => true | _ => false end.

Definition is_Arc (op : CanvasOp) : bool :=
  match op with Arc _ _ _ _ _ => true | _ => false end.

(** The number of straight segments, and of circles, of a render. *)
Definition segmentCount (ops : list CanvasOp) : nat :=
  length (List.filter is_LineTo ops).

Definition circleCount (ops : list CanvasOp) : nat :=
  length (List.filter is_Arc ops).

(** The circles of a render, in drawing order. *)
Fixpoint circlesOf (ops : list CanvasOp) : list Circle :=
  match ops with
  | [] => []
  | Arc x y r _ _ :: ops' => mkCircle x y r :: circlesOf ops'
  | _ :: ops' => circlesOf ops'
  end.

(** What a render strokes.  The current path holds the arcs added since
    the last [beginPath]; [stroke] draws the path as it stands and leaves
    it in place; an arc that no [stroke] follows is never drawn. *)
Fixpoint strokedArcs (path ops : list CanvasOp) : list CanvasOp :=
  match ops with
  | [] => []
  | BeginPath :: ops' => strokedArcs [] ops'
  | Arc x y r a b :: ops' => strokedArcs (path ++ [Arc x y r a b]) ops'
  | Stroke :: ops' => path ++ strokedArcs path ops'
  | _ :: ops' => strokedArcs path ops'
  end.

(** A whole circle: the arc from angle 0 to [2 * Math.PI]. *)
Definition is_circle (op : CanvasOp) : bool :=
  match op with
  | Arc _ _ _ a b => Leibniz.eqb a 0 && Leibniz.eqb b (Math_PI * 2)
  | _ => false
  end.

(** The circles a render strokes on a canvas whose path is empty, one for
    each time one is stroked, in drawing order. *)
Definition strokedCircles (ops : list CanvasOp) : list Circle :=
  circlesOf (List.filter is_circle (strokedArcs [] ops)).

(** ** The circle recursion *)

(** No call of the [levels] levels from radius [r] down is cut by the
    radius floor [r < 1]; a child's radius is [r * 0.6]. *)
Fixpoint unpruned (r : number) (levels : nat) : bool :=
  match levels with
  | O => true
  | S n => negb (r <? 1)%float && unpruned (r * 0.6) n
  end.

(** The full tree: [1 + 4 + ... + 4^(n-1)] circles for depth [n]. *)
Fixpoint fullCount (n : nat) : nat :=
  match n with
  | O => 0
  | S n' => 1 + 4 * fullCount n'
  end.

(** ** The Koch step, as geometry *)

(** The four calls of one subdivision step, from the split points
    [(x3, y3)], [(x4, y4)] and the peak [(px, py)]. *)
Definition kochCalls (fuel : nat) (x1 y1 x3 y3 px py x4 y4 x2 y2 : number)
    (depth : Z) : option (list CanvasOp) :=
  s1 ← drawKochLine fuel x1 y1 x3 y3 depth;
  s2 ← drawKochLine fuel x3 y3 px py depth;
  s3 ← drawKochLine fuel px py x4 y4 depth;
  s4 ← drawKochLine fuel x4 y4 x2 y2 depth;
  Some (s1 ++ s2 ++ s3 ++ s4).

(** Vectors of the plane. *)
Definition vec : Type := number * number.

Definition vadd (u v : vec) : vec := (fst u + fst v, snd u + snd v)%float.
Definition vsub (u v : vec) : vec := (fst u - fst v, snd u - snd v)%float.

(** The quarter turn that sends [(vx, vy)] to [(-vy, vx)]. *)
Definition rot90 (v : vec) : vec := (- snd v, fst v)%float.

(** The point at one third, and at two thirds, of the way from [a] to
    [b]. *)
Definition oneThird (a b : vec) : vec :=
  (fst a + (fst b - fst a) / 3, snd a + (snd b - snd a) / 3)%float.

Definition twoThirds (a b : vec) : vec :=
  (fst a + 2 * (fst b - fst a) / 3, snd a + 2 * (snd b - snd a) / 3)%float.

(** A vector scaled by one half, and by [sqrt 3 / 6]. *)
Definition half (v : vec) : vec := (fst v * 0.5, snd v * 0.5)%float.

Definition bySqrt3Over6 (v : vec) : vec :=
  (fst v * Math_sqrt 3 / 6, snd v * Math_sqrt 3 / 6)%float.

(** The peak over the middle third [p1 p2]. *)
Definition apex (p1 p2 : vec) : vec :=
  vadd (vadd p1 (half (vsub p2 p1))) (bySqrt3Over6 (rot90 (vsub p2 p1))).

(** ** The escape-time raster *)

Definition juliaStep (z : number * number) : number * number :=
  let '(zx2, zy2) := z in
  ((zx2 * zx2 - zy2 * zy2 - 0.8)%float, (2 * zx2 * zy2 + 0.156)%float).

(** The point after [k] applications of [z <- z^2 + c]. *)
Fixpoint orbit (z : number * number) (k : nat) : number * number :=
  match k with
  | O => z
  | S k' => juliaStep (orbit z k')
  end.

(** [zx^2 + zy^2 >= 4] *)
Definition escaped (z : number * number) : bool :=
  (4 <=? fst z * fst z + snd z * snd z)%float.

(** [n] is the first iteration count at which the orbit of [z] has
    escaped, or 100 when it has not by then. *)
Definition escapeCount (z : number * number) (n : nat) : Prop :=
  (n <= 100)%nat /\
  (forall k, (k < n)%nat -> escaped (orbit z k) = false) /\
  (n = 100%nat \/ escaped (orbit z n) = true).

(** The color rule, in the bytes of the pixel. *)
Definition colorRule (n : nat) : Z * Z * Z * Z :=
  if (n =? 100)%nat then (0, 0, 0, 255)
  else
    let '(r, g, b) := hsbToRgb (of_nat n / 100 * 300) 80 90 in
    (toUint8Clamp r, toUint8Clamp g, toUint8Clamp b, 255).

(** On the 100 hues of the color rule, a channel of [hsbToRgb] is a byte:
    the array stores it unchanged. *)
Definition byteChannels (n : nat) : bool :=
  let '(r, g, b) := hsbToRgb (of_nat n / 100 * 300) 80 90 in
  Leibniz.eqb (of_Z (toUint8Clamp r)) r
  && Leibniz.eqb (of_Z (toUint8Clamp g)) g
  && Leibniz.eqb (of_Z (toUint8Clamp b)) b.

(** The four bytes of pixel [(x, y)] in a raster of width [w]. *)
Definition pixelAt (d : list Z) (w x y : nat) : option (Z * Z * Z * Z) :=
  let idx := ((y * w + x) * 4)%nat in
  r ← d !! idx; g ← d !! (idx + 1)%nat; b ← d !! (idx + 2)%nat;
  a ← d !! (idx + 3)%nat;
  Some (r, g, b, a).

Definition storePixel (idx : nat) (p : Z * Z * Z * Z) (d : list Z) : list Z :=
  let '(r, g, b, a) := p in
  <[(idx + 3)%nat := a]> (<[(idx + 2)%nat := b]> (<[(idx + 1)%nat := g]> (<[idx := r]> d))).

(** The mapped coordinate of a pixel, and its iteration count. *)
Definition mapped (w h : nat) (centerX centerY radius : number)
    (x y : nat) : number * number :=
  (pixelToMath centerX radius (of_nat x) (of_nat w),
   pixelToMath centerY radius (of_nat y) (of_nat h)).

Definition iterationsAt (w h : nat) (centerX centerY radius : number)
    (x y : nat) : nat :=
  match julia_while 101 100 (fst (mapped w h centerX centerY radius x y))
          (snd (mapped w h centerX centerY radius x y)) 0 with
  | Some n => Z.to_nat n
  | None => 0
  end.

(** ** Thumbnails *)

(** The yellow shade of the Julia thumbnail for an iteration count. *)
Definition thumbnailShade (iterations : Z) : RGBColor :=
  let intensity := (of_Z iterations / 50)%float in
  (Math_floor (255 * (1 - intensity * 0.5)),
   Math_floor (255 * (1 - intensity * 0.3)),
   Math_floor (100 * (1 - intensity))).

(** ** Binary64 numbers, as the kernel specifies them

    The comparisons of the kernel are specified on [spec_float]
    ([ltb_spec], [leb_spec]); there they are the lexicographic order of
    the keys below. *)

Definition key (x : spec_float) : option (Z * Z * Z) :=
  match x with
  | S754_nan => None
  | S754_infinity s => Some (if s then -2 else 2, 0, 0)
  | S754_zero _ => Some (0, 0, 0)
  | S754_finite s m e =>
      Some (if s then (-1, - e, Z.neg m) else (1, e, Z.pos m))
  end.

Definition lex_compare (a b : Z * Z * Z) : comparison :=
  let '(a1, a2, a3) := a in
  let '(b1, b2, b3) := b in
  match a1 ?= b1 with
  | Eq => match a2 ?= b2 with
          | Eq => a3 ?= b3
          | c => c
          end
  | c => c
  end.

Definition key_compare (x y : spec_float) : option comparison :=
  match key x, key y with
  | Some a, Some b => Some (lex_compare a b)
  | _, _ => None
  end.

Definition is_lt (c : option comparison) : bool :=
  match c with Some Lt => true | _ => false end.

Definition is_le (c : option comparison) : bool :=
  match c with Some (Lt | Eq) => true | _ => false end.

Definition not_nan (x : spec_float) : bool :=
  match x with S754_nan => false | _ => true end.

Definition is_fin (x : spec_float) : bool :=
  match x with S754_zero _ | S754_finite _ _ _ => true | _ => false end.

(** Zero or above, infinity included: the class of a square. *)
Definition nonneg (x : spec_float) : bool :=
  match x with
  | S754_zero false | S754_infinity false | S754_finite false _ _ => true
  | _ => false
  end.

(** ** Levels of the circle recursion *)

(** The number of levels, of [n], that the radius floor lets through
    from radius [r]: every call of a level has the same radius. *)
Fixpoint liveLevels (r : number) (n : nat) : nat :=
  match n with
  | O => O
  | S n' => if (r <? 1)%float then O else S (liveLevels (r * 0.6) n')
  end.

(** The radius at level [k] below a circle of radius [r0]. *)
Fixpoint levelRadius (r0 : number) (k : nat) : number :=
  match k with
  | O => r0
  | S k' => (levelRadius r0 k' * 0.6)%float
  end.

(** The stroke colors of the five levels of the gasket, outermost
    first. *)
Definition levelColors : list Style :=
  [CssRgb 230 46 46; CssRgb 230 230 46; CssRgb 46 230 46;
   CssRgb 46 230 230; CssRgb 46 46 230].

(** The circles of a render with the stroke style in force when each is
    drawn: its style and its radius. *)
Fixpoint strokedRadii (style : option Style) (ops : list CanvasOp)
    : list (option Style * number) :=
  match ops with
  | [] => []
  | SetStrokeStyle s :: ops' => strokedRadii (Some s) ops'
  | Arc _ _ r _ _ :: ops' => (style, r) :: strokedRadii style ops'
  | _ :: ops' => strokedRadii style ops'
  end.

(** ** Magnitudes *)

(** A zero, or a finite number of magnitude at most [2^b]. *)
Definition mag_le (b : Z) (x : spec_float) : bool :=
  match x with
  | S754_zero _ => true
  | S754_finite _ m e => (e <=? b) && (Z.pos m <=? 2 ^ (b - e))
  | _ => false
  end.

(** * Binary64 arithmetic *)

Module Binary64.

(** ** Order *)

Lemma SFcompare_key x y : SFcompare x y = key_compare x y.
Proof.
  destruct x as [sx|sx| |sx mx ex], y as [sy|sy| |sy my ey];
    try destruct sx; try destruct sy; try reflexivity; cbn.
  rewrite Z.compare_opp, (Z.compare_antisym ex ey).
  destruct (ex ?= ey); reflexivity.
Qed.

Lemma ltb_key x y :
  (x <? y)%float = is_lt (key_compare (Prim2SF x) (Prim2SF y)).
Proof. rewrite ltb_spec. unfold SFltb. now rewrite SFcompare_key. Qed.

Lemma leb_key x y :
  (x <=? y)%float = is_le (key_compare (Prim2SF x) (Prim2SF y)).
Proof. rewrite leb_spec. unfold SFleb. now rewrite SFcompare_key. Qed.

Lemma is_nan_key x : PrimFloat.is_nan x = true <-> key (Prim2SF x) = None.
Proof.
  unfold PrimFloat.is_nan. rewrite negb_true_iff, FloatAxioms.eqb_spec. unfold SFeqb.
  rewrite SFcompare_key. unfold key_compare.
  destruct (key (Prim2SF x)) as [[[a b] c]|] eqn:E; cbn; [|tauto].
  rewrite !Z.compare_refl. cbn. split; discriminate.
Qed.

(** Goals on the order of numbers, as goals on keys. *)
Ltac float_order :=
  intros;
  rewrite ?ltb_key, ?leb_key in *;
  repeat match goal with
  | H : context [Prim2SF ?c] |- _ =>
      tryif is_var c then fail else
        let v := eval vm_compute in (Prim2SF c) in
        change (Prim2SF c) with v in *
  | |- context [Prim2SF ?c] =>
      tryif is_var c then fail else
        let v := eval vm_compute in (Prim2SF c) in
        change (Prim2SF c) with v in *
  end;
  repeat match goal with
  | |- context [Prim2SF ?h] =>
      let s := fresh "s" in let m := fresh "m" in let e := fresh "e" in
      destruct (Prim2SF h) as [s|s| |s m e]
  | H : context [Prim2SF ?h] |- _ =>
      let s := fresh "s" in let m := fresh "m" in let e := fresh "e" in
      destruct (Prim2SF h) as [s|s| |s m e]
  end;
  repeat match goal with s : bool |- _ => destruct s end;
  cbv beta iota delta [key key_compare lex_compare] in *;
  repeat match goal with
  | H : context [Z.compare ?a ?b] |- _ => destruct (Z.compare_spec a b)
  | |- context [Z.compare ?a ?b] => destruct (Z.compare_spec a b)
  end;
  cbv beta iota delta [is_lt is_le] in *;
  try reflexivity; try discriminate; try lia.

Lemma leb_not_ltb x y : (y <=? x)%float = true -> (x <? y)%float = false.
Proof.
  rewrite ltb_key, leb_key. unfold key_compare.
  destruct (key (Prim2SF x)) as [[[a1 a2] a3]|],
           (key (Prim2SF y)) as [[[b1 b2] b3]|]; cbn; try reflexivity;
    try discriminate.
  rewrite (Z.compare_antisym b1 a1), (Z.compare_antisym b2 a2),
          (Z.compare_antisym b3 a3).
  destruct (b1 ?= a1), (b2 ?= a2), (b3 ?= a3); cbn; congruence.
Qed.

(** A failed test [x < y] on numbers is [y <= x]. *)
Lemma not_ltb_leb x y :
  PrimFloat.is_nan x = false -> PrimFloat.is_nan y = false ->
  (x <? y)%float = false -> (y <=? x)%float = true.
Proof.
  intros Hx Hy.
  assert (Kx : key (Prim2SF x) <> None) by (rewrite <- is_nan_key; congruence).
  assert (Ky : key (Prim2SF y) <> None) by (rewrite <- is_nan_key; congruence).
  rewrite ltb_key, leb_key. unfold key_compare.
  destruct (key (Prim2SF x)) as [[[a1 a2] a3]|],
           (key (Prim2SF y)) as [[[b1 b2] b3]|]; try congruence.
  cbn.
  rewrite (Z.compare_antisym b1 a1), (Z.compare_antisym b2 a2),
          (Z.compare_antisym b3 a3).
  destruct (b1 ?= a1), (b2 ?= a2), (b3 ?= a3); cbn; congruence.
Qed.

(** ** Rounding *)

Lemma digits2_log2 m : Z.pos (digits2_pos m) = Z.log2 (Z.pos m) + 1.
Proof.
  induction m as [m IH|m IH|]; [| |reflexivity];
    cbn [digits2_pos]; rewrite Pos2Z.inj_succ, IH.
  - rewrite (Pos2Z.inj_xI m), Z.log2_succ_double by lia. lia.
  - rewrite (Pos2Z.inj_xO m), Z.log2_double by lia. lia.
Qed.

Lemma Zdigits2_log2 m : 0 < m -> Zdigits2 m = Z.log2 m + 1.
Proof. destruct m; try lia. intros _. apply digits2_log2. Qed.

Lemma Zdigits2_nonneg m : 0 <= Zdigits2 m.
Proof. destruct m; cbn; lia. Qed.

Lemma shr_1_m r : 0 <= shr_m r -> shr_m (shr_1 r) = shr_m r / 2.
Proof.
  destruct r as [m r s]. cbn [shr_m]. intros Hm.
  rewrite <- Z.div2_div.
  destruct m as [|[p|p|]|p]; cbn [shr_1 shr_m]; try lia; reflexivity.
Qed.

Lemma iter_shr_1_m p : forall r,
  0 <= shr_m r -> shr_m (SpecFloat.iter_pos shr_1 p r) = shr_m r / 2 ^ Z.pos p /\
                  0 <= shr_m (SpecFloat.iter_pos shr_1 p r).
Proof.
  assert (H1 : forall r, 0 <= shr_m r ->
             shr_m (shr_1 r) = shr_m r / 2 ^ 1 /\ 0 <= shr_m (shr_1 r)).
  { intros r Hr. rewrite shr_1_m by assumption. split; [reflexivity|].
    apply Z.div_pos; lia. }
  induction p as [p IH|p IH|]; intros r Hr; cbn [SpecFloat.iter_pos].
  - destruct (H1 r Hr) as [E1 P1].
    destruct (IH _ P1) as [E2 P2]. destruct (IH _ P2) as [E3 P3].
    split; [|assumption].
    rewrite E3, E2, E1, !Z.div_div by lia.
    rewrite <- !Z.pow_add_r by lia. f_equal. f_equal. lia.
  - destruct (IH _ Hr) as [E2 P2]. destruct (IH _ P2) as [E3 P3].
    split; [|assumption].
    rewrite E3, E2, !Z.div_div by lia.
    rewrite <- !Z.pow_add_r by lia. f_equal. f_equal. lia.
  - apply H1, Hr.
Qed.

(** The mantissa and exponent after a right shift to the format. *)
Lemma shr_spec r e n :
  0 <= shr_m r ->
  let '(r', e') := shr r e n in
  shr_m r' = shr_m r / 2 ^ Z.max 0 n /\ e' = e + Z.max 0 n.
Proof.
  intros Hr. destruct n as [|p|p]; cbn [shr].
  - rewrite Z.div_1_r. lia.
  - destruct (iter_shr_1_m p r Hr) as [E _]. rewrite E.
    replace (Z.max 0 (Z.pos p)) with (Z.pos p) by lia. lia.
  - rewrite Z.div_1_r. lia.
Qed.

Lemma shr_record_of_loc_m m l : shr_m (shr_record_of_loc m l) = m.
Proof. destruct l as [|[]]; reflexivity. Qed.

Lemma round_nearest_even_bounds m l :
  m <= round_nearest_even m l <= m + 1.
Proof.
  destruct l as [|[]]; cbn; try lia. destruct (Z.even m); lia.
Qed.

Lemma div_pow2_pos a k :
  0 < a -> 0 <= k <= Z.log2 a ->
  0 < a / 2 ^ k /\ Z.log2 (a / 2 ^ k) = Z.log2 a - k.
Proof.
  intros Ha Hk. split.
  - apply Z.lt_le_trans with 1; [lia|].
    apply Z.div_le_lower_bound; [lia|].
    rewrite Z.mul_1_r.
    apply Z.le_trans with (2 ^ Z.log2 a).
    + apply Z.pow_le_mono_r; lia.
    + apply Z.log2_spec, Ha.
  - rewrite <- Z.shiftr_div_pow2, Z.log2_shiftr by lia. lia.
Qed.

Lemma div_pow2_small a k : 0 < a -> Z.log2 a < k -> a / 2 ^ k = 0.
Proof.
  intros Ha Hk. apply Z.div_small. split; [lia|].
  apply Z.lt_le_trans with (2 ^ Z.succ (Z.log2 a)).
  - apply Z.log2_spec, Ha.
  - apply Z.pow_le_mono_r; lia.
Qed.

Lemma Zdigits2_le a b : 0 <= a <= b -> Zdigits2 a <= Zdigits2 b.
Proof.
  intros [Ha Hab]. destruct (Z.eq_dec a 0) as [->|Hne].
  - apply Zdigits2_nonneg.
  - rewrite !Zdigits2_log2 by lia.
    pose proof (Z.log2_le_mono a b Hab). lia.
Qed.

Lemma Zdigits2_succ a : 0 <= a -> Zdigits2 (a + 1) <= Zdigits2 a + 1.
Proof.
  intros Ha. destruct (Z.eq_dec a 0) as [->|Hne]; [vm_compute; discriminate|].
  rewrite !Zdigits2_log2 by lia.
  pose proof (Z.log2_succ_le a). unfold Z.succ in *. lia.
Qed.

Section Round.

Variables prec emax : Z.
Hypothesis prec_pos : 0 < prec.

Local Abbreviation emin := (SpecFloat.emin prec emax).
Local Abbreviation fexp := (SpecFloat.fexp prec emax).

(** Rounding [M * 2^E] in two steps: [k1] bits are shifted out and the
    rest is rounded to [m2]; a carry past the precision shifts [k2] more. *)
Lemma binary_round_aux_steps s M E l :
  0 <= M ->
  exists m2,
    let k1 := Z.max 0 (fexp (Zdigits2 M + E) - E) in
    let e1 := E + k1 in
    let k2 := Z.max 0 (fexp (Zdigits2 m2 + e1) - e1) in
    M / 2 ^ k1 <= m2 <= M / 2 ^ k1 + 1 /\
    binary_round_aux prec emax s M E l =
      match m2 / 2 ^ k2 with
      | Z0 => S754_zero s
      | Z.pos m => if e1 + k2 <=? emax - prec then S754_finite s m (e1 + k2)
                   else S754_infinity s
      | Z.neg _ => S754_nan
      end.
Proof.
  intros HM. unfold binary_round_aux, shr_fexp.
  set (n := fexp (Zdigits2 M + E) - E).
  pose proof (shr_spec (shr_record_of_loc M l) E n) as S1.
  rewrite shr_record_of_loc_m in S1. specialize (S1 HM).
  destruct (shr (shr_record_of_loc M l) E n) as [r1 e1].
  destruct S1 as [Hm1 He1].
  set (m2 := round_nearest_even (shr_m r1) (loc_of_shr_record r1)).
  pose proof (round_nearest_even_bounds (shr_m r1) (loc_of_shr_record r1)) as Hm2.
  fold m2 in Hm2.
  assert (Hm1pos : 0 <= shr_m r1) by (rewrite Hm1; apply Z.div_pos; lia).
  set (n2 := fexp (Zdigits2 m2 + e1) - e1).
  pose proof (shr_spec (shr_record_of_loc m2 loc_Exact) e1 n2) as S2.
  rewrite shr_record_of_loc_m in S2. specialize (S2 ltac:(lia)).
  destruct (shr (shr_record_of_loc m2 loc_Exact) e1 n2) as [r3 e3].
  destruct S2 as [Hm3 He3].
  exists m2. cbv zeta. subst e3 e1. unfold n2, n in *.
  rewrite <- Hm1, <- Hm3. split; [exact Hm2|reflexivity].
Qed.

Lemma fexp_cases x :
  x - prec <= fexp x /\ emin <= fexp x /\
  (fexp x = x - prec \/ fexp x = emin).
Proof. unfold SpecFloat.fexp. lia. Qed.

(** The outcome of rounding [M * 2^E], for a positive [M]: a mantissa
    and an exponent within the bounds below. *)
Lemma binary_round_aux_spec s M E l :
  0 < M ->
  exists m3 e3,
    binary_round_aux prec emax s M E l =
      match m3 with
      | Z0 => S754_zero s
      | Z.pos m => if e3 <=? emax - prec then S754_finite s m e3
                   else S754_infinity s
      | Z.neg _ => S754_nan
      end /\
    0 <= m3 /\
    E <= e3 /\ Zdigits2 M + E - prec <= e3 /\
    e3 <= Z.max (Z.max E (Zdigits2 M + E - prec + 1)) emin /\
    (emin < Zdigits2 M + E -> 0 < m3) /\
    m3 <= M / 2 ^ (e3 - E) + 1 /\
    (E <= fexp (Zdigits2 M + E) -> 0 < m3 -> fexp (Zdigits2 m3 + e3) = e3).
Proof.
  intros HM.
  destruct (binary_round_aux_steps s M E l ltac:(lia)) as (m2 & Hm2 & ->).
  set (k1 := Z.max 0 (fexp (Zdigits2 M + E) - E)) in *.
  set (e1 := E + k1) in *.
  set (k2 := Z.max 0 (fexp (Zdigits2 m2 + e1) - e1)) in *.
  set (m1 := M / 2 ^ k1) in *.
  exists (m2 / 2 ^ k2), (e1 + k2).
  assert (Hm1pos : 0 <= m1) by (apply Z.div_pos; lia).
  assert (Hm3pos : 0 <= m2 / 2 ^ k2) by (apply Z.div_pos; lia).
  split; [reflexivity|]. split; [assumption|].
  assert (HdM : Zdigits2 M = Z.log2 M + 1) by now apply Zdigits2_log2.
  pose proof (Z.log2_nonneg M) as HlogM.
  pose proof (fexp_cases (Zdigits2 M + E)) as (F1 & F2 & F3).
  pose proof (fexp_cases (Zdigits2 m2 + e1)) as (G1 & G2 & G3).
  assert (Hd2 : Zdigits2 m2 <= Zdigits2 m1 + 1).
  { apply Z.le_trans with (Zdigits2 (m1 + 1)).
    - apply Zdigits2_le. lia.
    - apply Zdigits2_succ, Hm1pos. }
  assert (Hd1 : Zdigits2 m1 + e1 <= Z.max (Zdigits2 M + E) e1).
  { destruct (Z.le_gt_cases k1 (Z.log2 M)) as [Hk|Hk].
    - destruct (div_pow2_pos M k1 HM ltac:(lia)) as [Q1 Q2].
      fold m1 in Q1, Q2. rewrite (Zdigits2_log2 m1) by assumption. lia.
    - unfold m1. rewrite div_pow2_small by lia. cbn [Zdigits2]. lia. }
  split; [lia|]. split; [lia|]. split; [lia|]. split; [|split].
  - intros Hmin.
    destruct (div_pow2_pos M k1 HM ltac:(lia)) as [Q1 Q2]. fold m1 in Q1, Q2.
    assert (Hm2pos : 0 < m2) by lia.
    pose proof (Zdigits2_log2 m2 Hm2pos) as Hdm2.
    pose proof (Z.log2_nonneg m2) as Hlog2.
    now destruct (div_pow2_pos m2 k2 Hm2pos ltac:(lia)) as [Q3 _].
  - replace (e1 + k2 - E) with (k1 + k2) by lia.
    rewrite Z.pow_add_r, <- Z.div_div by lia. fold m1.
    apply Z.le_trans with ((m1 + 1) / 2 ^ k2).
    + apply Z.div_le_mono; lia.
    + destruct (Z.eq_dec k2 0) as [->|Hk2].
      * rewrite !Z.div_1_r. lia.
      * assert (HP : 0 < 2 ^ k2) by (apply Z.pow_pos_nonneg; lia).
        pose proof (Z.div_mod m1 (2 ^ k2) ltac:(lia)) as Hdiv.
        pose proof (Z.mod_pos_bound m1 (2 ^ k2) HP) as Hmod.
        assert ((m1 + 1) / 2 ^ k2 < m1 / 2 ^ k2 + 2); [|lia].
        apply Z.div_lt_upper_bound; [assumption|].
        generalize dependent (m1 / 2 ^ k2). generalize dependent (m1 mod 2 ^ k2).
        generalize dependent (2 ^ k2). intros. nia.
  - intros Hle Hpos.
    assert (Hk1 : k1 = fexp (Zdigits2 M + E) - E) by lia.
    destruct (Z.le_gt_cases k1 (Z.log2 M)) as [Hk|Hk].
    + destruct (div_pow2_pos M k1 HM ltac:(lia)) as [Q1 Q2]. fold m1 in Q1, Q2.
      assert (Hm2pos : 0 < m2) by lia.
      pose proof (Zdigits2_log2 m1 Q1) as Hdm1.
      pose proof (Zdigits2_log2 m2 Hm2pos) as Hdm2.
      pose proof (Z.log2_nonneg m2) as Hlog2.
      pose proof (Zdigits2_le m1 m2 ltac:(lia)) as Hmono.
      assert (Hk2 : k2 = fexp (Zdigits2 m2 + e1) - e1).
      { unfold SpecFloat.fexp in *. lia. }
      destruct (div_pow2_pos m2 k2 Hm2pos ltac:(unfold SpecFloat.fexp in *; lia))
        as [Q3 Q4].
      rewrite (Zdigits2_log2 _ Q3), Q4.
      replace (Z.log2 m2 - k2 + 1 + (e1 + k2)) with (Zdigits2 m2 + e1) by lia.
      lia.
    + assert (Hm1 : m1 = 0) by (unfold m1; apply div_pow2_small; lia).
      assert (He1 : e1 = emin) by (unfold SpecFloat.fexp in *; lia).
      assert (Hcase : m2 = 0 \/ m2 = 1) by lia.
      destruct Hcase as [Hm2'|Hm2']; subst m2.
      * rewrite Z.div_0_l in Hpos by lia. lia.
      * assert (Hk2 : k2 = 0).
        { unfold k2. cbn [Zdigits2 digits2_pos]. unfold SpecFloat.fexp. lia. }
        rewrite Hk2, Z.div_1_r. cbn [Zdigits2 digits2_pos].
        unfold SpecFloat.fexp. lia.
Qed.

End Round.

Lemma nonneg_not_nan x : nonneg x = true -> not_nan x = true.
Proof. now destruct x. Qed.

Lemma binary_round_aux_not_nan s m e l :
  not_nan (binary_round_aux prec emax s (Z.pos m) e l) = true.
Proof.
  destruct (binary_round_aux_spec prec emax eq_refl s (Z.pos m) e l eq_refl)
    as (m3 & e3 & -> & Hm3 & _).
  destruct m3; [reflexivity| |lia].
  now destruct (e3 <=? emax - prec).
Qed.

Lemma binary_round_aux_sign s m e l :
  nonneg (binary_round_aux prec emax s (Z.pos m) e l) = negb s.
Proof.
  destruct (binary_round_aux_spec prec emax eq_refl s (Z.pos m) e l eq_refl)
    as (m3 & e3 & -> & Hm3 & _).
  destruct m3; [now destruct s| |lia].
  now destruct (e3 <=? emax - prec), s.
Qed.

Lemma binary_normalize_not_nan m e :
  not_nan (binary_normalize prec emax m e false) = true.
Proof.
  destruct m as [|m|m]; [reflexivity| |]; cbn [binary_normalize];
    unfold binary_round;
    destruct (shl_align _ _ _) as [mz ez]; apply binary_round_aux_not_nan.
Qed.

Lemma SFmul_fin x y :
  is_fin x = true -> is_fin y = true -> not_nan (SF64mul x y) = true.
Proof.
  destruct x, y; try discriminate; try reflexivity. intros _ _.
  apply binary_round_aux_not_nan.
Qed.

Lemma SFmul_square x :
  not_nan x = true -> nonneg (SF64mul x x) = true.
Proof.
  destruct x as [s|s| |s m e]; try discriminate; intros _; cbn.
  - now destruct s.
  - now destruct s.
  - rewrite binary_round_aux_sign. now destruct s.
Qed.

Lemma SFmul_square_fin x : is_fin (SF64mul x x) = true -> is_fin x = true.
Proof. now destruct x. Qed.

Lemma SFsub_fin x y :
  is_fin x = true -> is_fin y = true -> not_nan (SF64sub x y) = true.
Proof.
  destruct x as [sx|sx| |sx mx ex], y as [sy|sy| |sy my ey];
    try discriminate; intros _ _; try reflexivity.
  - now destruct sx, sy.
  - apply binary_normalize_not_nan.
Qed.

(** Adding or subtracting a finite number never makes a NaN. *)
Lemma SFadd_finite_r x s m e :
  not_nan x = true -> not_nan (SF64add x (S754_finite s m e)) = true.
Proof.
  destruct x as [sx|sx| |sx mx ex]; try discriminate; intros _;
    try reflexivity.
  apply binary_normalize_not_nan.
Qed.

Lemma SFsub_finite_r x s m e :
  not_nan x = true -> not_nan (SF64sub x (S754_finite s m e)) = true.
Proof.
  destruct x as [sx|sx| |sx mx ex]; try discriminate; intros _;
    try reflexivity.
  apply binary_normalize_not_nan.
Qed.

Lemma SFadd_nonneg x y :
  nonneg x = true -> nonneg y = true -> nonneg (SF64add x y) = true.
Proof.
  destruct x as [[]|[]| |[] mx ex], y as [[]|[]| |[] my ey];
    try discriminate; intros _ _; try reflexivity.
  cbn. set (ez := Z.min ex ey).
  destruct (shl_align mx ex ez) as [mx' ex'], (shl_align my ey ez) as [my' ey'].
  cbn [fst cond_Zopp].
  change (Z.pos mx' + Z.pos my') with (Z.pos (mx' + my')).
  cbn [binary_normalize]. unfold binary_round.
  destruct (shl_align _ _ _) as [mz ez']. now rewrite binary_round_aux_sign.
Qed.

(** A sum of squares below 4 has finite terms. *)
Lemma SFadd_below_fin x y c :
  nonneg x = true -> nonneg y = true ->
  SFltb (SF64add x y) (S754_finite false (fst c) (snd c)) = true ->
  is_fin x = true /\ is_fin y = true.
Proof.
  destruct x as [[]|[]| |[] mx ex], y as [[]|[]| |[] my ey];
    try discriminate; intros _ _; cbn; try discriminate; auto.
Qed.

Lemma valid_digits s m e :
  valid_binary (S754_finite s m e) = true ->
  Z.pos (digits2_pos m) <= prec /\ emin <= e <= emax - prec.
Proof.
  unfold valid_binary. cbn [SpecFloat.valid_binary].
  unfold bounded, canonical_mantissa, fexp.
  intros H. apply andb_prop in H as [H1 H2].
  apply Z.eqb_eq in H1. apply Z.leb_le in H2. lia.
Qed.

(** Doubling overflows only where squaring does. *)
Lemma SFmul_two_fin x :
  valid_binary x = true ->
  is_fin (SF64mul x x) = true ->
  is_fin (SF64mul (S754_finite false 4503599627370496 (-51)) x) = true.
Proof.
  destruct x as [sx|sx| |sx m e]; try discriminate; [reflexivity|].
  intros Hvalid Hsq. apply valid_digits in Hvalid as [Hd He].
  cbn [SF64mul SFmul] in *. unfold SF64mul, SFmul in *.
  destruct (binary_round_aux_spec prec emax eq_refl (xorb false sx)
              (Z.pos (4503599627370496 * m)) (-51 + e) loc_Exact eq_refl)
    as (m3 & e3 & -> & Hm3 & _ & _ & Hup & _).
  destruct m3 as [|m3|m3]; [reflexivity| |lia].
  destruct (Z.leb_spec e3 (emax - prec)) as [_|Hover]; [reflexivity|].
  exfalso.
  assert (Hdig : Zdigits2 (Z.pos (4503599627370496 * m))
                 = Z.pos (digits2_pos m) + 52).
  { rewrite Zdigits2_log2, digits2_log2 by lia.
    rewrite Pos2Z.inj_mul, Z.mul_comm.
    change (Z.pos 4503599627370496) with (2 ^ 52).
    rewrite Z.log2_mul_pow2 by lia. lia. }
  rewrite Hdig in Hup.
  change prec with 53 in *. change emax with 1024 in *.
  change emin with (-1074) in *.
  assert (He970 : 970 <= e) by lia.
  destruct (binary_round_aux_spec 53 1024 eq_refl (xorb sx sx)
              (Z.pos (m * m)) (e + e) loc_Exact eq_refl)
    as (m4 & e4 & Hsq4 & Hm4 & Hlow & _ & _ & Hnz & _).
  rewrite Hsq4 in Hsq.
  assert (0 < m4).
  { apply Hnz. change (SpecFloat.emin 53 1024) with (-1074).
    pose proof (Zdigits2_nonneg (Z.pos (m * m))). lia. }
  destruct m4 as [|m4|m4]; try lia.
  destruct (Z.leb_spec e4 (1024 - 53)); [lia|discriminate].
Qed.

(** ** Exact operations *)

Lemma Zpos_iter_xO m k : Z.pos (Pos.iter xO m k) = Z.pos m * 2 ^ Z.pos k.
Proof.
  rewrite <- Z.shiftl_mul_pow2 by lia. cbn [Z.shiftl].
  apply (Pos.iter_swap_gen _ _ Z.pos xO (Z.mul 2)). reflexivity.
Qed.

Lemma iter_xO_mul m k :
  (Pos.iter xO 1 k * m)%positive = Pos.iter xO m k.
Proof.
  apply Pos2Z.inj. rewrite Pos2Z.inj_mul, !Zpos_iter_xO. lia.
Qed.

Lemma digits2_mul_pow2 m k :
  Zdigits2 (Z.pos (Pos.iter xO 1%positive k * m))
  = Z.pos (digits2_pos m) + Z.pos k.
Proof.
  rewrite iter_xO_mul, Zdigits2_log2, digits2_log2, Zpos_iter_xO by lia.
  rewrite Z.log2_mul_pow2 by lia. lia.
Qed.

(** Shifting out [k] zero bits is exact. *)
Lemma iter_shr_1_exact k : forall m,
  SpecFloat.iter_pos shr_1 k
    (Build_shr_record (Z.pos (Pos.iter xO m k)) false false)
  = Build_shr_record (Z.pos m) false false.
Proof.
  induction k as [k IH|k IH|]; intros m; cbn [SpecFloat.iter_pos Pos.iter].
  - cbn [shr_1 orb]. now rewrite !IH.
  - now rewrite !IH.
  - reflexivity.
Qed.

Lemma valid_canonical s m e :
  valid_binary (S754_finite s m e) = true ->
  fexp prec emax (Z.pos (digits2_pos m) + e) = e /\ e <= emax - prec.
Proof.
  unfold valid_binary. cbn [SpecFloat.valid_binary].
  unfold bounded, canonical_mantissa.
  intros H. apply andb_prop in H as [H1 H2].
  apply Z.eqb_eq in H1. apply Z.leb_le in H2. now split.
Qed.

(** Rounding a number of the format that was scaled by [2^k] gives it
    back. *)
Lemma binary_round_aux_scaled s m e k :
  valid_binary (S754_finite s m e) = true ->
  binary_round_aux prec emax s (Z.pos (Pos.iter xO 1%positive k * m))
    (e - Z.pos k) loc_Exact
  = S754_finite s m e.
Proof.
  intros Hvalid. apply valid_canonical in Hvalid as [Hcanon Hmax].
  unfold binary_round_aux, shr_fexp.
  rewrite digits2_mul_pow2.
  replace (Z.pos (digits2_pos m) + Z.pos k + (e - Z.pos k))
    with (Z.pos (digits2_pos m) + e) by lia.
  rewrite Hcanon.
  replace (e - (e - Z.pos k)) with (Z.pos k) by lia.
  cbn [shr shr_record_of_loc].
  rewrite iter_xO_mul.
  rewrite iter_shr_1_exact.
  cbn [shr_m loc_of_shr_record round_nearest_even Zdigits2].
  replace (e - Z.pos k + Z.pos k) with e by lia.
  rewrite Hcanon, Z.sub_diag. cbn [shr shr_m].
  apply Z.leb_le in Hmax. now rewrite Hmax.
Qed.

Lemma mul_1_r_exact t : (t * 1)%float = t.
Proof.
  apply Prim2SF_inj. rewrite mul_spec.
  pose proof (Prim2SF_valid t) as Hvalid.
  change (Prim2SF 1) with (S754_finite false (Pos.iter xO 1%positive 52) (-52)).
  destruct (Prim2SF t) as [s|s| |s m e]; cbn [SF64mul SFmul];
    try (now destruct s); [reflexivity|].
  unfold SF64mul, SFmul.
  rewrite Pos.mul_comm, xorb_false_r.
  change (e + -52) with (e - Z.pos 52).
  now apply binary_round_aux_scaled.
Qed.

(** Only [-0] is changed by adding it to [+0]. *)
Lemma add_0_l_exact t :
  Prim2SF t <> S754_zero true -> (0 + t)%float = t.
Proof.
  intros Hnz. apply Prim2SF_inj. rewrite add_spec.
  change (Prim2SF 0) with (S754_zero false).
  destruct (Prim2SF t) as [[]|s| |s m e]; try reflexivity.
  now destruct Hnz.
Qed.

(** A product by a power of two as large as 4 is [-0] only for [-0]. *)
Lemma SFmul_four_not_neg_zero x :
  valid_binary x = true -> x <> S754_zero true ->
  SF64mul x (S754_finite false 4503599627370496 (-50)) <> S754_zero true.
Proof.
  intros Hvalid Hnz.
  destruct x as [[]|s| |s m e]; cbn [SF64mul SFmul]; try discriminate;
    [now destruct Hnz|].
  apply valid_digits in Hvalid as [_ [Hmin _]].
  unfold SF64mul, SFmul.
  destruct (binary_round_aux_spec prec emax eq_refl (xorb s false)
              (Z.pos (m * 4503599627370496)) (e + -50) loc_Exact eq_refl)
    as (m3 & e3 & -> & _ & _ & _ & _ & Hpos & _).
  rewrite Pos.mul_comm in Hpos.
  change 4503599627370496%positive with (Pos.iter xO 1%positive 52) in Hpos.
  rewrite digits2_mul_pow2 in Hpos.
  specialize (Hpos ltac:(lia)).
  destruct m3; try lia. now destruct (e3 <=? emax - prec).
Qed.

Lemma shl_align_exponent mx ex ex' :
  Z.min ex ex' <= snd (shl_align mx ex ex').
Proof.
  unfold shl_align. destruct (ex' - ex) eqn:E; cbn [snd]; lia.
Qed.

Lemma binary_round_not_zero s m e s' :
  emin <= e -> binary_round prec emax s m e <> S754_zero s'.
Proof.
  intros He. unfold binary_round.
  pose proof (shl_align_exponent m e
                (fexp prec emax (Z.pos (digits2_pos m) + e))) as Hexp.
  destruct (shl_align _ _ _) as [mz ez]. cbn [snd] in Hexp.
  destruct (binary_round_aux_spec prec emax eq_refl s (Z.pos mz) ez
              loc_Exact eq_refl)
    as (m3 & e3 & -> & _ & _ & _ & _ & Hpos & _).
  assert (0 < m3).
  { apply Hpos. cbn [Zdigits2]. unfold fexp in Hexp. lia. }
  destruct m3; try lia. now destruct (e3 <=? emax - prec).
Qed.

(** A difference from one half is never [-0]. *)
Lemma SFsub_half_not_neg_zero x :
  valid_binary x = true ->
  SF64sub x (S754_finite false 4503599627370496 (-53)) <> S754_zero true.
Proof.
  intros Hvalid.
  destruct x as [s|s| |s m e]; cbn [SF64sub SFsub]; try discriminate.
  apply valid_digits in Hvalid as [_ [Hmin _]].
  unfold SF64sub, SFsub. cbv zeta.
  set (ez := Z.min e (-53)).
  assert (Hez : emin <= ez) by (unfold ez; change emin with (-1074) in *; lia).
  destruct (_ - _) as [|d|d]; cbn [binary_normalize]; [discriminate| |];
    now apply binary_round_not_zero.
Qed.

(** ** Signs *)

Lemma binary_round_aux_opp s m e l :
  binary_round_aux prec emax (negb s) m e l
  = SFopp (binary_round_aux prec emax s m e l).
Proof.
  unfold binary_round_aux.
  destruct (shr_fexp prec emax m e l) as [r1 e1].
  destruct (shr_fexp prec emax _ e1 loc_Exact) as [r2 e2].
  destruct (shr_m r2); try reflexivity.
  now destruct (e2 <=? emax - prec).
Qed.

Lemma SFmul_opp_l x y : SF64mul (SFopp x) y = SFopp (SF64mul x y).
Proof.
  destruct x as [sx|sx| |sx mx ex], y as [sy|sy| |sy my ey];
    cbn [SF64mul SFmul SFopp]; rewrite <- ?negb_xorb_l; try reflexivity.
  apply binary_round_aux_opp.
Qed.

Lemma SFdiv_opp_l x y : SF64div (SFopp x) y = SFopp (SF64div x y).
Proof.
  destruct x as [sx|sx| |sx mx ex], y as [sy|sy| |sy my ey];
    cbn [SF64div SFdiv SFopp]; rewrite <- ?negb_xorb_l; try reflexivity.
  unfold SF64div, SFdiv.
  destruct (SFdiv_core_binary prec emax (Z.pos mx) ex (Z.pos my) ey)
    as [[mz ez] lz].
  apply binary_round_aux_opp.
Qed.

Lemma SFsub_add_opp x y : SF64sub x y = SF64add x (SFopp y).
Proof.
  destruct x as [sx|sx| |sx mx ex], y as [sy|sy| |sy my ey];
    cbn [SF64sub SFsub SF64add SFadd SFopp]; try reflexivity;
    now destruct sx, sy.
Qed.

Lemma opp_mul_l b c : (- b * c)%float = (- (b * c))%float.
Proof.
  apply Prim2SF_inj.
  now rewrite mul_spec, !opp_spec, mul_spec, SFmul_opp_l.
Qed.

Lemma opp_div_l x y : (- x / y)%float = (- (x / y))%float.
Proof.
  apply Prim2SF_inj.
  now rewrite div_spec, !opp_spec, div_spec, SFdiv_opp_l.
Qed.

Lemma sub_add_opp a t : (a - t)%float = (a + - t)%float.
Proof.
  apply Prim2SF_inj.
  now rewrite sub_spec, add_spec, opp_spec, SFsub_add_opp.
Qed.

(** ** NaN along the Julia orbit *)

Lemma is_nan_not_nan x :
  PrimFloat.is_nan x = false <-> not_nan (Prim2SF x) = true.
Proof.
  unfold PrimFloat.is_nan. rewrite FloatAxioms.eqb_spec.
  destruct (Prim2SF x) as [s|s| |s m e] eqn:E; cbn.
  - tauto.
  - destruct s; cbn; tauto.
  - split; discriminate.
  - unfold SFeqb, SFcompare. destruct s.
    + rewrite Z.compare_refl, Pos.compare_cont_refl. cbn. tauto.
    + rewrite Z.compare_refl, Pos.compare_cont_refl. cbn. tauto.
Qed.

Lemma norm_not_nan zx zy :
  PrimFloat.is_nan zx = false -> PrimFloat.is_nan zy = false ->
  PrimFloat.is_nan (zx * zx + zy * zy)%float = false.
Proof.
  rewrite !is_nan_not_nan, add_spec, !mul_spec. intros Hx Hy.
  apply nonneg_not_nan, SFadd_nonneg; now apply SFmul_square.
Qed.

(** While the test [zx*zx + zy*zy < 4] holds, the next point is a pair of
    numbers. *)
Lemma juliaStep_not_nan zx zy :
  (zx * zx + zy * zy <? 4)%float = true ->
  PrimFloat.is_nan (zx * zx - zy * zy - 0.8)%float = false /\
  PrimFloat.is_nan (2 * zx * zy + 0.156)%float = false.
Proof.
  rewrite ltb_spec, !is_nan_not_nan.
  rewrite add_spec, !sub_spec, add_spec, !mul_spec.
  pose proof (Prim2SF_valid zx) as Vx.
  set (X := Prim2SF zx) in *. set (Y := Prim2SF zy) in *.
  change (Prim2SF 4) with (S754_finite false 4503599627370496 (-50)).
  change (Prim2SF 2) with (S754_finite false 4503599627370496 (-51)).
  intros Htest.
  assert (HnX : not_nan X = true).
  { destruct X; try reflexivity. discriminate Htest. }
  assert (HnY : not_nan Y = true).
  { destruct Y; try reflexivity.
    change (SF64mul S754_nan S754_nan) with S754_nan in Htest.
    now destruct (SF64mul X X). }
  destruct (SFadd_below_fin (SF64mul X X) (SF64mul Y Y)
              (4503599627370496%positive, -50)) as [FA FB];
    [now apply SFmul_square | now apply SFmul_square | exact Htest |].
  pose proof (SFmul_square_fin _ FA) as FX.
  pose proof (SFmul_square_fin _ FB) as FY.
  split.
  - set (c := Prim2SF 0.8). vm_compute in c. subst c.
    apply SFsub_finite_r. now apply SFsub_fin.
  - set (c := Prim2SF 0.156). vm_compute in c. subst c.
    apply SFadd_finite_r, SFmul_fin; [|assumption].
    now apply SFmul_two_fin.
Qed.

(** ** Numbers of the format *)

Lemma binary_round_aux_nonneg_not_nan s M E l :
  0 <= M -> not_nan (binary_round_aux prec emax s M E l) = true.
Proof.
  intros HM.
  destruct (binary_round_aux_steps prec emax s M E l HM) as (m2 & Hm2 & ->).
  cbv zeta in *.
  set (k1 := Z.max 0 _) in *. set (k2 := Z.max 0 _).
  assert (0 <= M / 2 ^ k1) by (apply Z.div_pos; lia).
  assert (0 <= m2 / 2 ^ k2) by (apply Z.div_pos; lia).
  destruct (m2 / 2 ^ k2); [reflexivity| |lia].
  now destruct (_ <=? _).
Qed.

Lemma shl_align_spec mx ex ex' :
  let '(mz, ez) := shl_align mx ex ex' in
  Z.pos (digits2_pos mz) + ez = Z.pos (digits2_pos mx) + ex /\
  ez = Z.min ex ex'.
Proof.
  unfold shl_align. destruct (ex' - ex) as [|d|d] eqn:E; [lia|lia|].
  rewrite !digits2_log2, Zpos_iter_xO, Z.log2_mul_pow2 by lia. lia.
Qed.

(** What [binary_round] returns is a number of the format, zero only
    below the least exponent and infinite only above the greatest. *)
Lemma binary_round_spec s m e :
  valid_binary (binary_round prec emax s m e) = true /\
  (emin <= e -> Z.pos (digits2_pos m) + e <= emax - 1 ->
   exists m' e', binary_round prec emax s m e = S754_finite s m' e').
Proof.
  unfold binary_round.
  pose proof (shl_align_spec m e (fexp prec emax (Z.pos (digits2_pos m) + e)))
    as Halign.
  destruct (shl_align _ _ _) as [mz ez]. destruct Halign as [Hdig Hez].
  destruct (binary_round_aux_spec prec emax eq_refl s (Z.pos mz) ez
              loc_Exact eq_refl)
    as (m3 & e3 & -> & Hm3 & _ & _ & Hup & Hpos & _ & Hcanon).
  cbn [Zdigits2] in *. rewrite Hdig in *.
  split.
  - destruct m3 as [|m3|m3]; [reflexivity| |lia].
    destruct (Z.leb_spec e3 (emax - prec)) as [Hle|Hgt]; [|reflexivity].
    unfold valid_binary. cbn [SpecFloat.valid_binary].
    unfold bounded, canonical_mantissa.
    cbn [Zdigits2] in Hcanon. rewrite Hcanon by lia.
    rewrite Z.eqb_refl. cbn [andb]. now apply Z.leb_le.
  - intros Hmin Hmax.
    assert (0 < m3) by (apply Hpos; unfold SpecFloat.emin in *; lia).
    destruct m3 as [|m3|m3]; try lia.
    assert (Hfin : e3 <= emax - prec).
    { unfold fexp, SpecFloat.emin in *.
      change prec with 53 in *. change emax with 1024 in *. lia. }
    apply Z.leb_le in Hfin. rewrite Hfin. now exists m3, e3.
Qed.

Lemma Prim2SF_of_Z z :
  Prim2SF (of_Z z) = binary_normalize prec emax z 0 false.
Proof.
  unfold of_Z. apply Prim2SF_SF2Prim.
  destruct z as [|p|p]; [reflexivity| |]; cbn [binary_normalize];
    apply binary_round_spec.
Qed.

(** A natural number below [2^1023] is a finite number, and not zero
    unless it is 0. *)
Lemma Prim2SF_of_nat n :
  Z.of_nat n < 2 ^ 1023 ->
  is_fin (Prim2SF (of_nat n)) = true /\
  ((0 < n)%nat -> exists m e, Prim2SF (of_nat n) = S754_finite false m e).
Proof.
  intros Hn. unfold of_nat. rewrite Prim2SF_of_Z.
  destruct (Z.of_nat n) as [|p|p] eqn:E; [|  |lia].
  - split; [reflexivity|lia].
  - cbn [binary_normalize].
    destruct (proj2 (binary_round_spec false p 0)) as (m & e & ->).
    + change emin with (-1074). lia.
    + rewrite digits2_log2.
      assert (Z.log2 (Z.pos p) < 1023) by (apply Z.log2_lt_pow2; lia).
      change emax with 1024. lia.
    + split; [reflexivity|]. intros _. now exists m, e.
Qed.

Lemma SFdiv_fin_finite x s m e :
  is_fin x = true -> not_nan (SF64div x (S754_finite s m e)) = true.
Proof.
  destruct x as [sx|sx| |sx mx ex]; try discriminate; intros _;
    [reflexivity|].
  unfold SF64div, SFdiv, SFdiv_core_binary.
  set (m' := match _ - _ with Z.pos _ => _ | Z0 => _ | Z.neg _ => _ end).
  assert (Hm' : 0 <= m').
  { unfold m'. destruct (_ - _ - _); [lia| |lia].
    apply Z.shiftl_nonneg. lia. }
  pose proof (Z.div_pos m' (Z.pos m) Hm' ltac:(lia)) as Hq.
  unfold Z.div in Hq. destruct (Z.div_eucl m' (Z.pos m)) as [q r].
  cbn [fst] in Hq. now apply binary_round_aux_nonneg_not_nan.
Qed.

Lemma SFmul_finite_r x s m e :
  not_nan x = true -> not_nan (SF64mul x (S754_finite s m e)) = true.
Proof.
  destruct x as [sx|sx| |sx mx ex]; try discriminate; intros _;
    try reflexivity.
  apply binary_round_aux_not_nan.
Qed.

Lemma SFadd_fin_l x y :
  is_fin x = true -> not_nan y = true -> not_nan (SF64add x y) = true.
Proof.
  destruct x as [sx|sx| |sx mx ex], y as [sy|sy| |sy my ey];
    try discriminate; intros _ _; try reflexivity.
  - now destruct sx, sy.
  - apply binary_normalize_not_nan.
Qed.

Lemma is_finite_fin x :
  PrimFloat.is_finite x = true -> is_fin (Prim2SF x) = true.
Proof.
  unfold PrimFloat.is_finite, PrimFloat.is_infinity, PrimFloat.is_nan.
  rewrite !FloatAxioms.eqb_spec, abs_spec.
  change (Prim2SF infinity) with (S754_infinity false).
  destruct (Prim2SF x) as [sx|sx| |sx mx ex]; try reflexivity.
  - now destruct sx.
  - discriminate.
Qed.

Lemma positive_finite x :
  PrimFloat.is_finite x = true -> (0 <? x)%float = true ->
  exists m e, Prim2SF x = S754_finite false m e.
Proof.
  intros Hfin Hpos. apply is_finite_fin in Hfin.
  rewrite ltb_spec in Hpos. change (Prim2SF 0) with (S754_zero false) in Hpos.
  destruct (Prim2SF x) as [sx|sx| |[] mx ex]; try discriminate.
  now exists mx, ex.
Qed.

(** On a canvas, from a finite focus and a finite positive radius, the
    mapped coordinate of a pixel is a number. *)
Lemma pixelToMath_number center radius x size :
  (x < size)%nat -> Z.of_nat size < 2 ^ 32 ->
  PrimFloat.is_finite center = true ->
  PrimFloat.is_finite radius = true -> (0 <? radius)%float = true ->
  PrimFloat.is_nan (pixelToMath center radius (of_nat x) (of_nat size)) = false.
Proof.
  intros Hx Hsize Hcenter Hradius Hpos.
  assert (Hbig : 2 ^ 32 < 2 ^ 1023) by (apply Z.pow_lt_mono_r; lia).
  destruct (Prim2SF_of_nat x ltac:(lia)) as [Hfx _].
  destruct (Prim2SF_of_nat size ltac:(lia)) as [_ Hfs].
  destruct (Hfs ltac:(lia)) as (ms & es & Hs).
  destruct (positive_finite radius Hradius Hpos) as (mr & er & Hr).
  apply is_finite_fin in Hcenter.
  unfold pixelToMath. apply is_nan_not_nan.
  rewrite add_spec, !mul_spec, sub_spec, div_spec, Hs, Hr.
  change (Prim2SF 4) with (S754_finite false 4503599627370496 (-50)).
  change (Prim2SF 0.5) with (S754_finite false 4503599627370496 (-53)).
  apply SFadd_fin_l; [assumption|].
  apply SFmul_finite_r, SFmul_finite_r, SFsub_finite_r.
  now apply SFdiv_fin_finite.
Qed.

(** ** The shrink ratio *)

(** A radius below 1 has a child below 1: the floor [r < 1], once met,
    is met at every deeper level. *)
Lemma shrink_below_one r :
  (r <? 1)%float = true -> (1 <=? r * 0.6)%float = false.
Proof.
  rewrite ltb_key, leb_key, mul_spec.
  pose proof (Prim2SF_valid r) as Hvalid.
  change (Prim2SF 1) with (S754_finite false 4503599627370496 (-52)).
  change (Prim2SF 0.6) with (S754_finite false 5404319552844595 (-53)).
  destruct (Prim2SF r) as [[]|[]| |s m e]; try reflexivity; try discriminate.
  unfold SF64mul, SFmul.
  destruct (binary_round_aux_spec prec emax eq_refl (xorb s false)
              (Z.pos (m * 5404319552844595)) (e + -53) loc_Exact eq_refl)
    as (m3 & e3 & -> & Hm3 & _ & _ & Hup & _ & Hmag & _).
  destruct s; cbn [xorb].
  - intros _. destruct m3 as [|m3|m3]; [reflexivity| |lia].
    now destruct (e3 <=? emax - prec).
  - pose proof (valid_digits _ _ _ Hvalid) as [Hdig [Hmin Hmax]].
    pose proof (valid_canonical _ _ _ Hvalid) as [Hcanon _].
    cbv beta iota delta [key key_compare lex_compare is_lt is_le].
    destruct (Z.compare_spec 1 1) as [_|?|?]; try lia.
    destruct (Z.compare_spec e (-52)) as [He|He|He]; [|intros _|discriminate].
    { (* a number of exponent -52 is not below 1 *)
      subst e. rewrite digits2_log2 in Hcanon.
      unfold fexp, SpecFloat.emin in Hcanon.
      change prec with 53 in Hcanon. change emax with 1024 in Hcanon.
      assert (Hlog : Z.log2 (Z.pos m) = 52) by lia.
      pose proof (Z.log2_spec (Z.pos m) ltac:(lia)) as [Hlow _].
      rewrite Hlog in Hlow.
      destruct (Z.compare_spec (Z.pos m) 4503599627370496); try discriminate.
      change (2 ^ 52) with 4503599627370496 in Hlow. lia. }
    assert (Hm : Z.pos m < 2 ^ 53).
    { rewrite digits2_log2 in Hdig. change prec with 53 in Hdig.
      apply Z.log2_lt_pow2; lia. }
    assert (HdM : Zdigits2 (Z.pos (m * 5404319552844595)) <= 106).
    { rewrite Zdigits2_log2, Pos2Z.inj_mul by lia.
      pose proof (Z.log2_mul_above (Z.pos m) 5404319552844595
                    ltac:(lia) ltac:(lia)) as Habove.
      rewrite digits2_log2 in Hdig. change prec with 53 in Hdig.
      change (Z.log2 5404319552844595) with 52 in Habove. lia. }
    change prec with 53 in *. change emax with 1024 in *.
    change (SpecFloat.emin 53 1024) with (-1074) in *.
    destruct m3 as [|m3|m3]; [reflexivity| |lia].
    destruct (Z.leb_spec e3 (1024 - 53)) as [_|?]; [|lia].
    destruct (Z.compare_spec 1 1) as [_|?|?]; try lia.
    destruct (Z.compare_spec (-52) e3) as [He3|He3|He3]; [|lia|reflexivity].
    subst e3.
    assert (Hsmall : Z.pos m3 < 4503599627370496); [|
      destruct (Z.compare_spec 4503599627370496 (Z.pos m3)); [lia|lia|reflexivity]].
    assert (Hshift : 2 ^ 54 <= 2 ^ (-52 - (e + -53)))
      by (apply Z.pow_le_mono_r; lia).
    assert (Z.pos (m * 5404319552844595) / 2 ^ (-52 - (e + -53))
            <= (2 ^ 53 * 5404319552844595) / 2 ^ 54).
    { apply Z.le_trans with (Z.pos (m * 5404319552844595) / 2 ^ 54).
      - apply Z.div_le_compat_l; lia.
      - apply Z.div_le_mono; [lia|]. rewrite Pos2Z.inj_mul. nia. }
    change ((2 ^ 53 * 5404319552844595) / 2 ^ 54) with 2702159776422297 in *.
    lia.
Qed.

Lemma shrink_at_least_one r :
  (1 <=? r * 0.6)%float = true -> (1 <=? r)%float = true.
Proof.
  intros H.
  assert (Hnan : PrimFloat.is_nan r = false).
  { apply is_nan_not_nan. rewrite leb_spec, mul_spec in H.
    destruct (Prim2SF r); try reflexivity. discriminate H. }
  apply not_ltb_leb; [assumption|reflexivity|].
  destruct (r <? 1)%float eqn:E; [|reflexivity].
  apply shrink_below_one in E. congruence.
Qed.

(** ** Integers *)

(** Aligning a mantissa to a lower exponent keeps the number. *)
Lemma shl_align_value mx ex ex' :
  Z.pos (fst (shl_align mx ex ex')) = Z.pos mx * 2 ^ (ex - Z.min ex ex') /\
  snd (shl_align mx ex ex') = Z.min ex ex'.
Proof.
  unfold shl_align. destruct (ex' - ex) as [|d|d] eqn:E; cbn [fst snd].
  - replace (ex - Z.min ex ex') with 0 by lia. lia.
  - replace (ex - Z.min ex ex') with 0 by lia. lia.
  - rewrite Zpos_iter_xO. replace (ex - Z.min ex ex') with (Z.pos d) by lia. lia.
Qed.

(** Rounding a number of the format gives it back. *)
Lemma binary_round_aux_canonical s m e :
  valid_binary (S754_finite s m e) = true ->
  binary_round_aux prec emax s (Z.pos m) e loc_Exact = S754_finite s m e.
Proof.
  intros Hvalid. apply valid_canonical in Hvalid as [Hcanon Hmax].
  unfold binary_round_aux, shr_fexp. cbn [Zdigits2].
  rewrite Hcanon, Z.sub_diag.
  cbn [shr shr_record_of_loc shr_m loc_of_shr_record round_nearest_even Zdigits2].
  rewrite Hcanon, Z.sub_diag. cbn [shr shr_m].
  apply Z.leb_le in Hmax. now rewrite Hmax.
Qed.

Lemma binary_round_exact s M E m e :
  valid_binary (S754_finite s m e) = true ->
  Z.pos M * 2 ^ (E - Z.min E e) = Z.pos m * 2 ^ (e - Z.min E e) ->
  binary_round prec emax s M E = S754_finite s m e.
Proof.
  intros Hvalid Hvalue.
  pose proof (valid_canonical _ _ _ Hvalid) as [Hcanon Hmax].
  assert (Hdigits : Z.pos (digits2_pos M) + E = Z.pos (digits2_pos m) + e).
  { rewrite !digits2_log2.
    destruct (Z.le_gt_cases E e) as [Hle|Hgt].
    - rewrite Z.min_l, Z.sub_diag, Z.mul_1_r in Hvalue by lia.
      rewrite Hvalue, Z.log2_mul_pow2 by lia. lia.
    - rewrite Z.min_r, Z.sub_diag, Z.mul_1_r in Hvalue by lia.
      rewrite <- Hvalue, Z.log2_mul_pow2 by lia. lia. }
  unfold binary_round. rewrite Hdigits, Hcanon.
  unfold shl_align. destruct (e - E) as [|k|k] eqn:Hk.
  - assert (E = e) by lia. subst E.
    rewrite Z.min_id, Z.sub_diag, !Z.mul_1_r in Hvalue.
    assert (M = m) by congruence. subst M.
    now apply binary_round_aux_canonical.
  - assert (E = e - Z.pos k) by lia. subst E.
    rewrite Z.min_l, Z.sub_diag, Z.mul_1_r in Hvalue by lia.
    replace (e - (e - Z.pos k)) with (Z.pos k) in Hvalue by lia.
    assert (M = (Pos.iter xO 1 k * m)%positive) as ->.
    { apply Pos2Z.inj. rewrite iter_xO_mul, Zpos_iter_xO. exact Hvalue. }
    now apply binary_round_aux_scaled.
  - rewrite Z.min_r, Z.sub_diag, Z.mul_1_r in Hvalue by lia.
    replace (E - e) with (Z.pos k) in Hvalue by lia.
    assert (Pos.iter xO M k = m) as ->.
    { apply Pos2Z.inj. rewrite Zpos_iter_xO. exact Hvalue. }
    now apply binary_round_aux_canonical.
Qed.

(** An integer below [2^53] is a number of the format. *)
Lemma of_Z_canonical q :
  0 < q < 2 ^ 53 ->
  exists m e,
    Prim2SF (of_Z q) = S754_finite false m e /\
    valid_binary (S754_finite false m e) = true /\
    -52 <= e <= 0 /\
    Z.pos m = q * 2 ^ (- e).
Proof.
  intros Hq. destruct q as [|p|p]; try lia.
  rewrite Prim2SF_of_Z. cbn [binary_normalize].
  set (d := Z.pos (digits2_pos p)).
  assert (Hd : 1 <= d <= 53).
  { unfold d. rewrite digits2_log2.
    assert (Z.log2 (Z.pos p) < 53) by (apply Z.log2_lt_pow2; lia).
    pose proof (Z.log2_nonneg (Z.pos p)). lia. }
  pose proof (shl_align_value p 0 (d - 53)) as [Hm He].
  pose proof (shl_align_spec p 0 (d - 53)) as Hspec.
  destruct (shl_align p 0 (d - 53)) as [m e]. cbn [fst snd] in Hm, He.
  destruct Hspec as [Hdig _]. fold d in Hdig.
  rewrite Z.min_r in Hm, He by lia.
  assert (Hvalid : valid_binary (S754_finite false m e) = true).
  { unfold valid_binary. cbn [SpecFloat.valid_binary].
    unfold bounded, canonical_mantissa. rewrite Hdig, Z.add_0_r.
    unfold fexp. change emin with (-1074). change prec with 53.
    change emax with 1024.
    apply andb_true_intro. split; [apply Z.eqb_eq|apply Z.leb_le]; lia. }
  exists m, e. split; [|split; [exact Hvalid|split; [lia|]]].
  - apply binary_round_exact; [exact Hvalid|].
    rewrite Z.min_r by lia. rewrite Z.sub_diag, Z.mul_1_r.
    rewrite Hm. f_equal. f_equal. lia.
  - rewrite Hm. f_equal. f_equal. lia.
Qed.

(** On the integers from 1 to [2^53], [depth - 1] is exact. *)
Lemma sub_one_exact q :
  0 < q <= 2 ^ 53 -> (of_Z q - 1)%float = of_Z (q - 1).
Proof.
  intros Hq.
  destruct (Z.eq_dec q (2 ^ 53)) as [->|Hne]; [vm_compute; reflexivity|].
  destruct (Z.eq_dec q 1) as [->|Hne1]; [vm_compute; reflexivity|].
  apply Prim2SF_inj. rewrite sub_spec.
  destruct (of_Z_canonical q) as (m & e & -> & Hvalid & He & Hm); [lia|].
  destruct (of_Z_canonical (q - 1)) as (m' & e' & -> & Hvalid' & He' & Hm');
    [lia|].
  change (Prim2SF 1) with (S754_finite false 4503599627370496 (-52)).
  unfold SF64sub, SFsub. cbv zeta.
  rewrite (Z.min_r e (-52)) by lia.
  rewrite (proj1 (shl_align_value m e (-52))).
  rewrite (proj1 (shl_align_value 4503599627370496 (-52) (-52))).
  rewrite (Z.min_r e (-52)), Z.min_id, Z.sub_diag by lia.
  cbn [cond_Zopp]. rewrite Hm, <- Z.mul_assoc, <- Z.pow_add_r by lia.
  replace (- e + (e - -52)) with 52 by lia.
  replace (q * 2 ^ 52 - 4503599627370496 * 2 ^ 0) with ((q - 1) * 2 ^ 52)
    by (change (2 ^ 0) with 1; change 4503599627370496 with (2 ^ 52); lia).
  destruct ((q - 1) * 2 ^ 52) as [|P|P] eqn:HP; try lia.
  cbn [binary_normalize].
  apply binary_round_exact; [exact Hvalid'|].
  rewrite Z.min_l by lia. rewrite Z.sub_diag, Z.mul_1_r.
  rewrite Hm', <- Z.mul_assoc, <- Z.pow_add_r by lia.
  replace (- e' + (e' - -52)) with 52 by lia. lia.
Qed.

Lemma binary_round_negative m e :
  emin <= e -> SFltb (binary_round prec emax true m e) (S754_zero false) = true.
Proof.
  intros He.
  pose proof (binary_round_not_zero true m e true He) as Hnz.
  unfold binary_round in *.
  destruct (shl_align _ _ _) as [mz ez].
  destruct (binary_round_aux_spec prec emax eq_refl true (Z.pos mz) ez
              loc_Exact eq_refl)
    as (m3 & e3 & Hr & Hm3 & _).
  rewrite Hr in Hnz |- *.
  destruct m3; [congruence| |lia]. now destruct (e3 <=? emax - prec).
Qed.

(** A negative integer is a negative number. *)
Lemma of_Z_negative q : q < 0 -> (of_Z q <? 0)%float = true.
Proof.
  intros Hq. destruct q as [|p|p]; try lia.
  rewrite ltb_spec, Prim2SF_of_Z. cbn [binary_normalize].
  apply binary_round_negative. change emin with (-1074). lia.
Qed.

(** Below zero, [depth - 1] stays below zero. *)
Lemma sub_one_negative d :
  (d <? 0)%float = true -> (d - 1 <? 0)%float = true.
Proof.
  rewrite !ltb_spec, sub_spec.
  pose proof (Prim2SF_valid d) as Hvalid.
  change (Prim2SF 1) with (S754_finite false 4503599627370496 (-52)).
  change (Prim2SF 0) with (S754_zero false).
  destruct (Prim2SF d) as [s|s| |s m e]; try discriminate.
  - destruct s; [reflexivity|discriminate].
  - destruct s; [|discriminate]. intros _.
    apply valid_digits in Hvalid as [_ [Hmin _]].
    unfold SF64sub, SFsub. cbv zeta. cbn [cond_Zopp].
    set (ez := Z.min e (-52)).
    assert (Hez : emin <= ez)
      by (unfold ez; change emin with (-1074) in *; lia).
    destruct (_ - _) as [|D|D] eqn:HD; [lia|lia|].
    cbn [binary_normalize]. now apply binary_round_negative.
Qed.

Lemma of_Z_eqb_zero q :
  - 2 ^ 53 <= q <= 2 ^ 53 -> (of_Z q =? 0)%float = (q =? 0).
Proof.
  intros Hq. destruct (Z.eqb_spec q 0) as [->|Hne]; [reflexivity|].
  destruct (Z.lt_trichotomy q 0) as [Hneg|[->|Hpos]]; [|lia|].
  - pose proof (of_Z_negative q Hneg) as Hlt.
    destruct (of_Z q =? 0)%float eqn:E; [|reflexivity].
    rewrite ltb_spec in Hlt. rewrite FloatAxioms.eqb_spec in E. revert Hlt E.
    change (Prim2SF 0) with (S754_zero false).
    destruct (Prim2SF (of_Z q)) as [[]|[]| |[] m e]; discriminate.
  - destruct (Z.eq_dec q (2 ^ 53)) as [->|Hne']; [vm_compute; reflexivity|].
    destruct (of_Z_canonical q) as (m & e & Hq' & _); [lia|].
    rewrite FloatAxioms.eqb_spec, Hq'. reflexivity.
Qed.

Lemma ltb_zero_not_eqb d : (d <? 0)%float = true -> (d =? 0)%float = false.
Proof.
  rewrite ltb_spec, FloatAxioms.eqb_spec.
  change (Prim2SF 0) with (S754_zero false).
  destruct (Prim2SF d) as [[]|[]| |[] m e]; try discriminate; reflexivity.
Qed.

Lemma of_Z_leb_zero q :
  - 2 ^ 53 <= q <= 2 ^ 53 -> (of_Z q <=? 0)%float = (q <=? 0).
Proof.
  intros Hq. destruct (Z.lt_trichotomy q 0) as [Hneg|[->|Hpos]].
  - replace (q <=? 0) with true by (symmetry; apply Z.leb_le; lia).
    pose proof (of_Z_negative q Hneg) as Hlt.
    rewrite ltb_spec in Hlt. rewrite leb_spec.
    revert Hlt. change (Prim2SF 0) with (S754_zero false).
    destruct (Prim2SF (of_Z q)) as [[]|[]| |[] m e]; try discriminate;
      reflexivity.
  - reflexivity.
  - replace (q <=? 0) with false by (symmetry; apply Z.leb_gt; lia).
    destruct (Z.eq_dec q (2 ^ 53)) as [->|Hne]; [vm_compute; reflexivity|].
    destruct (of_Z_canonical q) as (m & e & Hq' & _); [lia|].
    rewrite leb_spec, Hq'. reflexivity.
Qed.

Lemma of_Z_one_ltb q :
  - 2 ^ 53 <= q <= 2 ^ 53 -> (1 <? of_Z q)%float = (1 <? q).
Proof.
  intros Hq. destruct (Z.lt_trichotomy q 0) as [Hneg|[->|Hpos]].
  - replace (1 <? q) with false by (symmetry; apply Z.ltb_ge; lia).
    pose proof (of_Z_negative q Hneg) as Hlt.
    rewrite ltb_spec in Hlt. rewrite ltb_spec.
    revert Hlt. change (Prim2SF 0) with (S754_zero false).
    change (Prim2SF 1) with (S754_finite false 4503599627370496 (-52)).
    destruct (Prim2SF (of_Z q)) as [[]|[]| |[] m e]; try discriminate;
      reflexivity.
  - reflexivity.
  - destruct (Z.eq_dec q (2 ^ 53)) as [->|Hne]; [vm_compute; reflexivity|].
    destruct (Z.eq_dec q 1) as [->|Hne1]; [vm_compute; reflexivity|].
    replace (1 <? q) with true by (symmetry; apply Z.ltb_lt; lia).
    destruct (of_Z_canonical q) as (m & e & Hq' & Hvalid & He & Hm); [lia|].
    rewrite ltb_spec, Hq'.
    change (Prim2SF 1) with (S754_finite false 4503599627370496 (-52)).
    apply valid_digits in Hvalid as [Hdigits _].
    rewrite digits2_log2 in Hdigits. change prec with 53 in Hdigits.
    assert (Hlt : Z.pos m < 2 ^ 53) by (apply Z.log2_lt_pow2; lia).
    assert (He' : -52 < e).
    { destruct (Z.eq_dec e (-52)) as [->|]; [|lia].
      rewrite Hm in Hlt. change (- -52) with 52 in Hlt.
      change (2 ^ 53) with (2 * 2 ^ 52) in Hlt. lia. }
    unfold SFltb, SFcompare.
    now replace (-52 ?= e) with Lt by (symmetry; apply Z.compare_lt_iff; lia).
Qed.

End Binary64.

Import Binary64.

(** * The color model *)

(** C4. At saturation and brightness 100 the six hues 0, 60, ..., 300 give
    the three primary and three secondary colors, exactly. *)
Theorem hsbToRgb_primaries :
  hsbToRgb 0 100 100 = (255, 0, 0)%float /\
  hsbToRgb 60 100 100 = (255, 255, 0)%float /\
  hsbToRgb 120 100 100 = (0, 255, 0)%float /\
  hsbToRgb 180 100 100 = (0, 255, 255)%float /\
  hsbToRgb 240 100 100 = (0, 0, 255)%float /\
  hsbToRgb 300 100 100 = (255, 0, 255)%float.
Proof. repeat split; vm_compute; reflexivity. Qed.

(** C8. [hsbToRgb] has no error case: it is a function of any three
    numbers.  For a hue below 0 or from 360 up it takes the last sector,
    whose triple before the match value is added is [(c, 0, x)]. *)
Theorem hsbToRgb_outside_hue h
    (Hout : (h <? 0)%float = true \/ (360 <=? h)%float = true) :
  (forall c x, hueSector h c x = (c, 0%float, x)) /\
  (forall s b,
     let c := (b / 100 * (s / 100))%float in
     let x := (c * (1 - Math_abs (rem (h / 60) 2 - 1)))%float in
     let m := (b / 100 - c)%float in
     hsbToRgb h s b =
       (Math_round ((c + m) * 255), Math_round ((0 + m) * 255),
        Math_round ((x + m) * 255))).
Proof.
  assert (Hsector : forall c x, hueSector h c x = (c, 0%float, x)).
  { intros c x. unfold hueSector.
    assert (H1 : (0 <=? h)%float && (h <? 60)%float = false).
    { destruct Hout as [H|H]; apply andb_false_iff; [left|right];
        revert H; clear; float_order. }
    assert (H2 : (60 <=? h)%float && (h <? 120)%float = false).
    { destruct Hout as [H|H]; apply andb_false_iff; [left|right];
        revert H; clear; float_order. }
    assert (H3 : (120 <=? h)%float && (h <? 180)%float = false).
    { destruct Hout as [H|H]; apply andb_false_iff; [left|right];
        revert H; clear; float_order. }
    assert (H4 : (180 <=? h)%float && (h <? 240)%float = false).
    { destruct Hout as [H|H]; apply andb_false_iff; [left|right];
        revert H; clear; float_order. }
    assert (H5 : (240 <=? h)%float && (h <? 300)%float = false).
    { destruct Hout as [H|H]; apply andb_false_iff; [left|right];
        revert H; clear; float_order. }
    now rewrite H1, H2, H3, H4, H5. }
  split; [exact Hsector|].
  intros s b c x m. unfold hsbToRgb. cbv zeta. fold c. fold x. fold m.
  now rewrite Hsector.
Qed.

Lemma hsbToRgb_outside_hue_witness :
  (360 <=? 400)%float = true /\
  hueSector 400 1 0.5 = (1, 0, 0.5)%float /\
  hsbToRgb 400 80 90 = (230, 46, 168)%float.
Proof.
  split; [reflexivity|].
  destruct (hsbToRgb_outside_hue 400 (or_intror eq_refl)) as [Hsector Hrgb].
  split; [apply Hsector|].
  rewrite Hrgb. vm_compute. reflexivity.
Defined.

(** * The escape-time generator *)

Lemma escapeCount_unique z n n' :
  escapeCount z n -> escapeCount z n' -> n = n'.
Proof.
  intros (Hn & Hbefore & Hat) (Hn' & Hbefore' & Hat').
  destruct (Nat.lt_trichotomy n n') as [Hlt|[Heq|Hlt]]; [|assumption|].
  - destruct Hat as [->|Hat]; [lia|]. rewrite Hbefore' in Hat by assumption.
    discriminate.
  - destruct Hat' as [->|Hat']; [lia|]. rewrite Hbefore in Hat' by assumption.
    discriminate.
Qed.

Lemma julia_while_S fuel maxIter zx zy iterations :
  julia_while (S fuel) maxIter zx zy iterations =
  if (zx * zx + zy * zy <? 4)%float && (iterations <? maxIter)
  then julia_while fuel maxIter (zx * zx - zy * zy - 0.8)%float
         (2 * zx * zy + 0.156)%float (iterations + 1)
  else Some iterations.
Proof. reflexivity. Qed.

Lemma julia_while_total fuel : forall zx zy (k : nat),
  (k <= 100)%nat -> (100 - k < fuel)%nat ->
  exists n : nat,
    julia_while fuel 100 zx zy (Z.of_nat k) = Some (Z.of_nat n) /\
    (n <= 100)%nat.
Proof.
  induction fuel as [|fuel IH]; intros zx zy k Hk Hfuel; [lia|].
  cbn [julia_while].
  destruct ((zx * zx + zy * zy <? 4)%float); cbn [andb]; [|now exists k].
  destruct (Z.ltb_spec (Z.of_nat k) 100) as [Hlt|Hge]; [|now exists k].
  cbv zeta. replace (Z.of_nat k + 1) with (Z.of_nat (S k)) by lia.
  apply IH; lia.
Qed.

Lemma julia_while_escapeCount z0 fuel : forall (k : nat),
  (k <= 100)%nat -> (100 - k < fuel)%nat ->
  PrimFloat.is_nan (fst (orbit z0 k)) = false ->
  PrimFloat.is_nan (snd (orbit z0 k)) = false ->
  (forall j, (j < k)%nat -> escaped (orbit z0 j) = false) ->
  exists n : nat,
    julia_while fuel 100 (fst (orbit z0 k)) (snd (orbit z0 k)) (Z.of_nat k)
      = Some (Z.of_nat n) /\
    escapeCount z0 n.
Proof.
  induction fuel as [|fuel IH]; intros k Hk Hfuel Hnx Hny Hbefore; [lia|].
  cbn [julia_while].
  destruct (orbit z0 k) as [zx zy] eqn:Hz. cbn [fst snd] in *.
  destruct ((zx * zx + zy * zy <? 4)%float) eqn:Htest; cbn [andb].
  - assert (Hin : escaped (orbit z0 k) = false).
    { rewrite Hz. unfold escaped. cbn [fst snd].
      destruct (4 <=? zx * zx + zy * zy)%float eqn:E; [|reflexivity].
      apply leb_not_ltb in E. congruence. }
    destruct (Z.ltb_spec (Z.of_nat k) 100) as [Hlt|Hge].
    + cbv zeta. replace (Z.of_nat k + 1) with (Z.of_nat (S k)) by lia.
      destruct (juliaStep_not_nan zx zy Htest) as [Nx Ny].
      assert (Hnext : orbit z0 (S k) =
                ((zx * zx - zy * zy - 0.8)%float, (2 * zx * zy + 0.156)%float)).
      { cbn [orbit]. now rewrite Hz. }
      specialize (IH (S k)). rewrite Hnext in IH. cbn [fst snd] in IH.
      apply IH; try assumption; try lia.
      intros j Hj. destruct (Nat.eq_dec j k) as [->|]; [assumption|].
      apply Hbefore. lia.
    + exists k. split; [reflexivity|].
      split; [lia|]. split; [assumption|]. left. lia.
  - exists k. split; [reflexivity|].
    split; [lia|]. split; [assumption|]. right.
    rewrite Hz. unfold escaped. cbn [fst snd].
    apply not_ltb_leb; [|reflexivity|assumption].
    now apply norm_not_nan.
Qed.

Lemma byteChannels_all n : (n < 100)%nat -> byteChannels n = true.
Proof.
  intros Hn.
  assert (Hall : forallb byteChannels (seq 0 100) = true)
    by (vm_compute; reflexivity).
  rewrite forallb_forall in Hall. apply Hall, in_seq. lia.
Qed.

(** ** The two loops *)

Lemma for_range_S {S : Type} n (body : nat -> S -> option S) s :
  for_range (Datatypes.S n) body s = for_range n body s ≫= body n.
Proof. unfold for_range. now rewrite seq_S, foldl_app. Qed.

(** A loop whose body keeps an invariant runs to its end and keeps it. *)
Lemma for_range_invariant {S : Type} (P : nat -> S -> Prop) n
    (body : nat -> S -> option S) s :
  P 0%nat s ->
  (forall i s, (i < n)%nat -> P i s ->
     exists s', body i s = Some s' /\ P (Datatypes.S i) s') ->
  exists s', for_range n body s = Some s' /\ P n s'.
Proof.
  intros H0 Hstep.
  assert (Hk : forall k, (k <= n)%nat ->
             exists s', for_range k body s = Some s' /\ P k s').
  { induction k as [|k IH]; intros Hle.
    - now exists s.
    - destruct IH as (s1 & Hrun & HP); [lia|].
      destruct (Hstep k s1 ltac:(lia) HP) as (s2 & Hbody & HP2).
      exists s2. rewrite for_range_S, Hrun. now split. }
  now apply Hk.
Qed.

Lemma pixel_index_inj w x y x0 y0 :
  (x < w)%nat -> (x0 < w)%nat ->
  (y0 * w + x0 = y * w + x)%nat -> x0 = x /\ y0 = y.
Proof.
  intros Hx Hx0 Heq.
  assert (y0 = y); [|subst; lia].
  destruct (Nat.lt_trichotomy y0 y) as [Hlt|[Heq'|Hlt]]; [|assumption|]; nia.
Qed.

Lemma length_storePixel idx p d : length (storePixel idx p d) = length d.
Proof.
  destruct p as [[[r g] b] a]. unfold storePixel. now rewrite !length_insert.
Qed.

Ltac insert_lookups :=
  repeat first
    [ rewrite list_lookup_insert_eq by (rewrite ?length_insert; lia)
    | rewrite list_lookup_insert_ne by lia ].

Lemma pixelAt_storePixel_same d w x y p :
  ((y * w + x) * 4 + 3 < length d)%nat ->
  pixelAt (storePixel ((y * w + x) * 4) p d) w x y = Some p.
Proof.
  intros Hlen. destruct p as [[[r g] b] a]. unfold pixelAt, storePixel.
  set (idx := ((y * w + x) * 4)%nat) in *. cbv zeta.
  assert (H0 : <[(idx + 3)%nat:=a]> (<[(idx + 2)%nat:=b]>
                 (<[(idx + 1)%nat:=g]> (<[idx:=r]> d))) !! idx = Some r)
    by (insert_lookups; reflexivity).
  assert (H1 : <[(idx + 3)%nat:=a]> (<[(idx + 2)%nat:=b]>
                 (<[(idx + 1)%nat:=g]> (<[idx:=r]> d))) !! (idx + 1)%nat = Some g)
    by (insert_lookups; reflexivity).
  assert (H2 : <[(idx + 3)%nat:=a]> (<[(idx + 2)%nat:=b]>
                 (<[(idx + 1)%nat:=g]> (<[idx:=r]> d))) !! (idx + 2)%nat = Some b)
    by (insert_lookups; reflexivity).
  assert (H3 : <[(idx + 3)%nat:=a]> (<[(idx + 2)%nat:=b]>
                 (<[(idx + 1)%nat:=g]> (<[idx:=r]> d))) !! (idx + 3)%nat = Some a)
    by (insert_lookups; reflexivity).
  now rewrite H0, H1, H2, H3.
Qed.

Lemma pixelAt_storePixel_other d w x y p x0 y0 :
  (x < w)%nat -> (x0 < w)%nat -> (x0, y0) <> (x, y) ->
  pixelAt (storePixel ((y * w + x) * 4) p d) w x0 y0 = pixelAt d w x0 y0.
Proof.
  intros Hx Hx0 Hne. destruct p as [[[r g] b] a]. unfold pixelAt, storePixel.
  assert (Hidx : (y0 * w + x0 <> y * w + x)%nat).
  { intros Heq. apply pixel_index_inj in Heq as [-> ->]; auto. }
  now rewrite !list_lookup_insert_ne by lia.
Qed.

Lemma juliaPixel_store w h centerX centerY radius x y d :
  juliaPixel w h centerX centerY radius x y d =
  Some (storePixel ((y * w + x) * 4)
          (colorRule (iterationsAt w h centerX centerY radius x y)) d).
Proof.
  unfold juliaPixel, iterationsAt, mapped. cbn [fst snd]. cbv zeta.
  change (Datatypes.S (Z.to_nat 100)) with 101%nat.
  destruct (julia_while_total 101 (pixelToMath centerX radius (of_nat x) (of_nat w))
              (pixelToMath centerY radius (of_nat y) (of_nat h)) 0%nat)
    as (n & Hrun & Hn); [lia|lia|].
  change (Z.of_nat 0) with 0 in Hrun. rewrite Hrun.
  cbn [mbind option_bind]. rewrite Nat2Z.id.
  unfold colorRule, storePixel, store.
  destruct (Nat.eqb_spec n 100) as [->|Hne].
  - reflexivity.
  - replace (Z.of_nat n =? 100) with false by (symmetry; apply Z.eqb_neq; lia).
    change (of_Z 100) with 100%float. fold (of_nat n).
    now destruct (hsbToRgb (of_nat n / 100 * 300) 80 90) as [[r g] b].
Qed.

(** Every pixel of the raster holds the color of its own iteration
    count. *)
Lemma drawJuliaSet_raster w h centerX centerY radius :
  exists d,
    drawJuliaSet w h centerX centerY radius
      = Some [PutImageData (mkImageData w h d) 0 0] /\
    length d = (w * h * 4)%nat /\
    forall x y, (x < w)%nat -> (y < h)%nat ->
      pixelAt d w x y
      = Some (colorRule (iterationsAt w h centerX centerY radius x y)).
Proof.
  unfold drawJuliaSet. cbv zeta. cbn [data createImageData].
  set (painted := fun (d : list Z) x y =>
         pixelAt d w x y
         = Some (colorRule (iterationsAt w h centerX centerY radius x y))).
  set (Inner := fun x y' (d : list Z) =>
         length d = (w * h * 4)%nat /\
         forall x0 y0, (x0 < w)%nat -> (y0 < h)%nat ->
           (x0 < x)%nat \/ (x0 = x /\ (y0 < y')%nat) -> painted d x0 y0).
  set (Outer := fun x' (d : list Z) =>
         length d = (w * h * 4)%nat /\
         forall x0 y0, (x0 < x')%nat -> (y0 < h)%nat -> painted d x0 y0).
  destruct (for_range_invariant Outer w
              (fun x => for_range h
                 (fun y => juliaPixel w h centerX centerY radius x y))
              (replicate (w * h * 4) 0)) as (d & Hrun & Hlen & Hpix).
  - split; [apply length_replicate|]. intros x0 y0 Hx0. lia.
  - intros x d Hxw [Hlen' Hdone'].
    destruct (for_range_invariant (Inner x) h
                (fun y => juliaPixel w h centerX centerY radius x y) d)
      as (d' & Hrun' & Hlen'' & Hpix').
    + split; [assumption|]. intros x0 y0 Hx0 Hy0 [Hlt|[_ Hlt]]; [|lia].
      now apply Hdone'.
    + intros y d1 Hy [Hl1 Hp1]. rewrite juliaPixel_store.
      eexists. split; [reflexivity|]. split.
      * now rewrite length_storePixel.
      * intros x0 y0 Hx0 Hy0 Hcase. unfold painted.
        destruct (decide ((x0, y0) = (x, y))) as [E|E].
        -- injection E as -> ->.
           apply pixelAt_storePixel_same. rewrite Hl1. nia.
        -- rewrite pixelAt_storePixel_other by (assumption || lia).
           apply Hp1; try assumption.
           destruct Hcase as [Hc|[-> Hc]]; [now left|right].
           split; [reflexivity|].
           assert (y0 <> y) by congruence. lia.
    + exists d'. split; [assumption|]. split; [assumption|].
      intros x0 y0 Hx0 Hy0. apply Hpix'; lia.
  - exists d. rewrite Hrun. cbn [mbind option_bind].
    split; [reflexivity|]. split; [assumption|].
    intros x y Hx Hy. now apply Hpix.
Qed.

Lemma iterationsAt_escapeCount w h centerX centerY radius x y :
  PrimFloat.is_nan (fst (mapped w h centerX centerY radius x y)) = false ->
  PrimFloat.is_nan (snd (mapped w h centerX centerY radius x y)) = false ->
  escapeCount (mapped w h centerX centerY radius x y)
    (iterationsAt w h centerX centerY radius x y).
Proof.
  intros Hzx Hzy. unfold iterationsAt.
  destruct (julia_while_escapeCount (mapped w h centerX centerY radius x y)
              101 0%nat) as (n & Hrun & Hn);
    [lia | lia | assumption | assumption | intros j Hj; lia |].
  cbn [orbit] in Hrun. change (Z.of_nat 0) with 0 in Hrun.
  now rewrite Hrun, Nat2Z.id.
Qed.

(** A pixel whose mapped coordinate is a pair of numbers is iterated to
    its escape count and painted by the color rule. *)
Lemma drawJuliaSet_pixel_number w h centerX centerY radius x y
    (Hx : (x < w)%nat) (Hy : (y < h)%nat)
    (Hzx : PrimFloat.is_nan
             (centerX + (of_nat x / of_nat w - 0.5) * 4 * radius)%float = false)
    (Hzy : PrimFloat.is_nan
             (centerY + (of_nat y / of_nat h - 0.5) * 4 * radius)%float = false) :
  let zx := (centerX + (of_nat x / of_nat w - 0.5) * 4 * radius)%float in
  let zy := (centerY + (of_nat y / of_nat h - 0.5) * 4 * radius)%float in
  exists d n red green blue,
    drawJuliaSet w h centerX centerY radius
      = Some [PutImageData (mkImageData w h d) 0 0] /\
    escapeCount (zx, zy) n /\
    pixelAt d w x y = Some (red, green, blue, 255) /\
    (n = 100%nat -> (red, green, blue) = (0, 0, 0)) /\
    (n <> 100%nat ->
       (of_Z red, of_Z green, of_Z blue)
       = hsbToRgb (of_nat n / 100 * 300) 80 90).
Proof.
  intros zx zy.
  destruct (drawJuliaSet_raster w h centerX centerY radius)
    as (d & Hdraw & _ & Hpix).
  specialize (Hpix x y Hx Hy).
  assert (Hm : mapped w h centerX centerY radius x y = (zx, zy))
    by reflexivity.
  assert (Hcount : escapeCount (zx, zy)
                     (iterationsAt w h centerX centerY radius x y)).
  { rewrite <- Hm. apply iterationsAt_escapeCount; rewrite Hm; assumption. }
  clear Hm. revert Hpix Hcount.
  generalize (iterationsAt w h centerX centerY radius x y). intros n Hpix Hcount.
  exists d, n.
  assert (Hn : (n <= 100)%nat) by apply Hcount.
  unfold colorRule in Hpix.
  destruct (Nat.eqb_spec n 100) as [E|E].
  - exists 0, 0, 0.
    split; [exact Hdraw|]. split; [exact Hcount|]. split; [exact Hpix|].
    split; [reflexivity|]. intros Hne. now destruct Hne.
  - pose proof (byteChannels_all n ltac:(lia)) as Hbytes.
    unfold byteChannels in Hbytes.
    destruct (hsbToRgb (of_nat n / 100 * 300) 80 90) as [[r g] b].
    apply andb_prop in Hbytes as [Hbytes Hb].
    apply andb_prop in Hbytes as [Hr Hg].
    apply Leibniz.eqb_spec in Hr, Hg, Hb.
    exists (toUint8Clamp r), (toUint8Clamp g), (toUint8Clamp b).
    split; [exact Hdraw|]. split; [exact Hcount|]. split; [exact Hpix|].
    split; [intros Hn100; now destruct E|].
    intros _. now rewrite Hr, Hg, Hb.
Qed.

(** C1. On a [w] by [h] surface, from a finite focus and a finite
    positive radius, every pixel [(x, y)] is mapped to
    [(focusX + (x / w - 0.5) * 4 * radius, focusY + (y / h - 0.5) * 4 * radius)]
    and iterated from there until the first count [n] at which
    [zx^2 + zy^2 >= 4], or to [n = 100]; it is written black when
    [n = 100], as [hsbToRgb (n / 100 * 300) 80 90] otherwise, with alpha
    255 in both cases. *)
Theorem drawJuliaSet_pixel w h centerX centerY radius x y
    (Hx : (x < w)%nat) (Hy : (y < h)%nat)
    (Hw : Z.of_nat w < 2 ^ 32) (Hh : Z.of_nat h < 2 ^ 32)
    (HcenterX : PrimFloat.is_finite centerX = true)
    (HcenterY : PrimFloat.is_finite centerY = true)
    (Hradius : PrimFloat.is_finite radius = true)
    (Hpositive : (0 <? radius)%float = true) :
  let zx := (centerX + (of_nat x / of_nat w - 0.5) * 4 * radius)%float in
  let zy := (centerY + (of_nat y / of_nat h - 0.5) * 4 * radius)%float in
  exists d n red green blue,
    drawJuliaSet w h centerX centerY radius
      = Some [PutImageData (mkImageData w h d) 0 0] /\
    escapeCount (zx, zy) n /\
    pixelAt d w x y = Some (red, green, blue, 255) /\
    (n = 100%nat -> (red, green, blue) = (0, 0, 0)) /\
    (n <> 100%nat ->
       (of_Z red, of_Z green, of_Z blue)
       = hsbToRgb (of_nat n / 100 * 300) 80 90).
Proof.
  apply drawJuliaSet_pixel_number; try assumption.
  - now apply (pixelToMath_number centerX radius x w).
  - now apply (pixelToMath_number centerY radius y h).
Qed.

Lemma drawJuliaSet_pixel_witness :
  PrimFloat.is_finite 0 = true /\ PrimFloat.is_finite 1 = true /\
  (0 <? 1)%float = true /\
  exists d n red green blue,
    drawJuliaSet 2 2 0 0 1 = Some [PutImageData (mkImageData 2 2 d) 0 0] /\
    escapeCount (0 + (of_nat 1 / of_nat 2 - 0.5) * 4 * 1,
                 0 + (of_nat 1 / of_nat 2 - 0.5) * 4 * 1)%float n /\
    pixelAt d 2 1 1 = Some (red, green, blue, 255) /\
    (n = 100%nat -> (red, green, blue) = (0, 0, 0)) /\
    (n <> 100%nat ->
       (of_Z red, of_Z green, of_Z blue)
       = hsbToRgb (of_nat n / 100 * 300) 80 90).
Proof.
  split; [reflexivity|]. split; [reflexivity|]. split; [reflexivity|].
  apply (drawJuliaSet_pixel 2 2 0 0 1 1 1);
    [lia | lia | reflexivity | reflexivity
    | reflexivity | reflexivity | reflexivity | reflexivity].
Defined.

(** C9. A pixel whose mapped coordinate has already escaped is given the
    iteration count 0 and the color [hsbToRgb 0 80 90], not black: the
    test comes before the first step. *)
Theorem drawJuliaSet_escaped_at_start w h centerX centerY radius x y
    (Hx : (x < w)%nat) (Hy : (y < h)%nat)
    (Hesc : escaped (centerX + (of_nat x / of_nat w - 0.5) * 4 * radius,
                     centerY + (of_nat y / of_nat h - 0.5) * 4 * radius)%float
            = true) :
  let zx := (centerX + (of_nat x / of_nat w - 0.5) * 4 * radius)%float in
  let zy := (centerY + (of_nat y / of_nat h - 0.5) * 4 * radius)%float in
  julia_while 101 100 zx zy 0 = Some 0 /\
  exists d red green blue,
    drawJuliaSet w h centerX centerY radius
      = Some [PutImageData (mkImageData w h d) 0 0] /\
    pixelAt d w x y = Some (red, green, blue, 255) /\
    (of_Z red, of_Z green, of_Z blue) = hsbToRgb (0 / 100 * 300) 80 90 /\
    hsbToRgb (0 / 100 * 300) 80 90 = hsbToRgb 0 80 90 /\
    (red, green, blue) <> (0, 0, 0).
Proof.
  intros zx zy.
  assert (Hrun : julia_while 101 100 zx zy 0 = Some 0).
  { apply leb_not_ltb in Hesc. cbn [fst snd] in Hesc.
    rewrite (julia_while_S 100). unfold zx, zy. now rewrite Hesc. }
  split; [assumption|].
  destruct (drawJuliaSet_raster w h centerX centerY radius)
    as (d & Hdraw & _ & Hpix).
  specialize (Hpix x y Hx Hy).
  assert (Hn : iterationsAt w h centerX centerY radius x y = 0%nat).
  { unfold iterationsAt.
    assert (Hm : mapped w h centerX centerY radius x y = (zx, zy))
      by reflexivity.
    rewrite Hm. cbn [fst snd]. now rewrite Hrun. }
  rewrite Hn in Hpix.
  exists d, 230, 46, 46. split; [assumption|]. split; [exact Hpix|].
  split; [vm_compute; reflexivity|]. split; [vm_compute; reflexivity|].
  discriminate.
Qed.

Lemma drawJuliaSet_escaped_at_start_witness :
  escaped (0 + (of_nat 0 / of_nat 2 - 0.5) * 4 * 1,
           0 + (of_nat 0 / of_nat 2 - 0.5) * 4 * 1)%float = true /\
  exists d red green blue,
    drawJuliaSet 2 2 0 0 1 = Some [PutImageData (mkImageData 2 2 d) 0 0] /\
    pixelAt d 2 0 0 = Some (red, green, blue, 255) /\
    (red, green, blue) <> (0, 0, 0).
Proof.
  split; [vm_compute; reflexivity|].
  destruct (drawJuliaSet_escaped_at_start 2 2 0 0 1 0 0)
    as (_ & d & red & green & blue & Hdraw & Hpix & _ & _ & Hne);
    [lia | lia | vm_compute; reflexivity |].
  exists d, red, green, blue.
  split; [exact Hdraw|]. split; [exact Hpix|exact Hne].
Defined.

(** * Click to focus *)

Lemma pixelToMath_unit p size : pixelToMath 0 1 p size = clickToFocus p size.
Proof.
  unfold pixelToMath, clickToFocus.
  rewrite mul_1_r_exact. apply add_0_l_exact.
  rewrite mul_spec.
  change (Prim2SF 4) with (S754_finite false 4503599627370496 (-50)).
  apply SFmul_four_not_neg_zero; [apply Prim2SF_valid|].
  rewrite sub_spec.
  change (Prim2SF 0.5) with (S754_finite false 4503599627370496 (-53)).
  apply SFsub_half_not_neg_zero, Prim2SF_valid.
Qed.

(** C7. The focus set by a click at canvas coordinate [p] is the
    coordinate the per-pixel mapping gives [p] at focus 0 and radius 1. *)
Theorem click_inverts_pixel_mapping p size :
  clickToFocus p size = (((p / size) - 0.5) * 4)%float /\
  pixelToMath 0 1 p size = (0 + ((p / size) - 0.5) * 4 * 1)%float /\
  pixelToMath 0 1 p size = clickToFocus p size.
Proof.
  split; [reflexivity|]. split; [reflexivity|]. apply pixelToMath_unit.
Qed.

(** * The circle generator *)

Lemma segmentCount_app a b :
  segmentCount (a ++ b) = (segmentCount a + segmentCount b)%nat.
Proof. unfold segmentCount. now rewrite List.filter_app, length_app. Qed.

Lemma circleCount_app a b :
  circleCount (a ++ b) = (circleCount a + circleCount b)%nat.
Proof. unfold circleCount. now rewrite List.filter_app, length_app. Qed.

Lemma circlesOf_app a b : circlesOf (a ++ b) = circlesOf a ++ circlesOf b.
Proof.
  induction a as [|op a IH]; [reflexivity|].
  destruct op; cbn [app circlesOf]; now rewrite IH.
Qed.

(** The body of [drawApollonianRecursive], as the source has it. *)
Lemma drawApollonianRecursive_body x y r depth :
  drawApollonianRecursive x y r depth =
  if (depth <=? 0) || (r <? 1)%float then []
  else
    let hue := ((5 - of_Z depth) * 60)%float in
    let '(red, green, blue) := hsbToRgb hue 80 90 in
    [SetStrokeStyle (CssRgb red green blue);
     BeginPath; Arc x y r 0 (Math_PI * 2); Stroke]
    ++ (if 1 <? depth then
          let newR := (r * 0.6)%float in
          let offset := (r * 0.4)%float in
          drawApollonianRecursive (x + offset) y newR (depth - 1)
          ++ drawApollonianRecursive (x - offset) y newR (depth - 1)
          ++ drawApollonianRecursive x (y + offset) newR (depth - 1)
          ++ drawApollonianRecursive x (y - offset) newR (depth - 1)
        else []).
Proof.
  rewrite drawApollonianRecursive_equation_1.
  generalize (inspect ((depth <=? 0) || (r <? 1)%float)).
  intros [b Hb]. destruct b; simp drawApollonianRecursive; now rewrite Hb.
Qed.

Lemma circleCount_full n : forall x y r0,
  unpruned r0 n = true ->
  circleCount (drawApollonianRecursive x y r0 (Z.of_nat n)) = fullCount n.
Proof.
  induction n as [|n IH]; intros x y r0 Hr;
    rewrite drawApollonianRecursive_body.
  - reflexivity.
  - replace (Z.of_nat (S n) <=? 0) with false by (symmetry; apply Z.leb_gt; lia).
    cbn [unpruned] in Hr. apply andb_prop in Hr as [H0 Hr].
    apply negb_true_iff in H0. rewrite H0. cbn [orb].
    cbv zeta. destruct (hsbToRgb _ 80 90) as [[red green] blue].
    rewrite circleCount_app.
    replace (Z.of_nat (S n) - 1) with (Z.of_nat n) by lia.
    destruct n as [|n].
    + reflexivity.
    + replace (1 <? Z.of_nat (S (S n))) with true by (symmetry; apply Z.ltb_lt; lia).
      rewrite !circleCount_app, !IH by assumption.
      change (fullCount (S (S n))) with (1 + 4 * fullCount (S n))%nat.
      generalize (fullCount (S n)). intros c. cbn. lia.
Qed.

(** ** Strokes *)

(** A render that does not depend on the path it finds is stroked on its
    own. *)
Lemma strokedArcs_app a : forall b path,
  (forall q, strokedArcs q b = strokedArcs [] b) ->
  strokedArcs path (a ++ b) = strokedArcs path a ++ strokedArcs [] b.
Proof.
  induction a as [|op a IH]; intros b path Hb.
  - cbn [app strokedArcs]. apply Hb.
  - destruct op; cbn [app strokedArcs]; rewrite ?IH by exact Hb;
      try reflexivity.
    now rewrite app_assoc.
Qed.

(** Every arc of the circle recursion is a whole circle in a path of its
    own, stroked once: what is stroked is the arcs of the render, in
    order, whatever the path before the call. *)
Lemma drawApollonianRecursive_strokes n : forall x y r path,
  strokedArcs path (drawApollonianRecursive x y r (Z.of_nat n))
  = List.filter is_Arc (drawApollonianRecursive x y r (Z.of_nat n)) /\
  forallb is_circle
    (List.filter is_Arc (drawApollonianRecursive x y r (Z.of_nat n))) = true.
Proof.
  induction n as [|n IH]; intros x y r path;
    rewrite drawApollonianRecursive_body.
  - split; reflexivity.
  - destruct (_ || _); [split; reflexivity|].
    cbv zeta. destruct (hsbToRgb _ 80 90) as [[red green] blue].
    replace (Z.of_nat (S n) - 1) with (Z.of_nat n) by lia.
    destruct (1 <? Z.of_nat (S n)); [|split; reflexivity].
    set (c1 := drawApollonianRecursive (x + r * 0.4) y (r * 0.6) (Z.of_nat n)).
    set (c2 := drawApollonianRecursive (x - r * 0.4) y (r * 0.6) (Z.of_nat n)).
    set (c3 := drawApollonianRecursive x (y + r * 0.4) (r * 0.6) (Z.of_nat n)).
    set (c4 := drawApollonianRecursive x (y - r * 0.4) (r * 0.6) (Z.of_nat n)).
    assert (H1 : forall q, strokedArcs q c1 = List.filter is_Arc c1)
      by (intros q; apply IH).
    assert (H2 : forall q, strokedArcs q c2 = List.filter is_Arc c2)
      by (intros q; apply IH).
    assert (H3 : forall q, strokedArcs q c3 = List.filter is_Arc c3)
      by (intros q; apply IH).
    assert (H4 : forall q, strokedArcs q c4 = List.filter is_Arc c4)
      by (intros q; apply IH).
    assert (H34 : forall q, strokedArcs q (c3 ++ c4)
                            = List.filter is_Arc (c3 ++ c4)).
    { intros q. rewrite strokedArcs_app, List.filter_app, H3, H4;
        [reflexivity|]. intros q'. now rewrite !H4. }
    assert (H234 : forall q, strokedArcs q (c2 ++ c3 ++ c4)
                             = List.filter is_Arc (c2 ++ c3 ++ c4)).
    { intros q. rewrite strokedArcs_app, (List.filter_app _ c2), H2, H34;
        [reflexivity|]. intros q'. now rewrite !H34. }
    assert (H1234 : forall q, strokedArcs q (c1 ++ c2 ++ c3 ++ c4)
                              = List.filter is_Arc (c1 ++ c2 ++ c3 ++ c4)).
    { intros q. rewrite strokedArcs_app, (List.filter_app _ c1), H1, H234;
        [reflexivity|]. intros q'. now rewrite !H234. }
    split.
    + cbn [app strokedArcs List.filter is_Arc]. now rewrite H1234.
    + cbn [app List.filter is_Arc forallb].
      rewrite !List.filter_app, !forallb_app.
      unfold c1, c2, c3, c4.
      rewrite (proj2 (IH _ _ _ [])), (proj2 (IH _ _ _ [])),
        (proj2 (IH _ _ _ [])), (proj2 (IH _ _ _ [])).
      reflexivity.
Qed.

(** The circles stroked by a call are its arcs. *)
Lemma strokedCircles_recursive x y r depth :
  strokedCircles (drawApollonianRecursive x y r depth)
  = circlesOf (drawApollonianRecursive x y r depth) /\
  length (strokedCircles (drawApollonianRecursive x y r depth))
  = circleCount (drawApollonianRecursive x y r depth).
Proof.
  assert (Hops : strokedArcs [] (drawApollonianRecursive x y r depth)
                 = List.filter is_Arc (drawApollonianRecursive x y r depth) /\
                 forallb is_circle
                   (List.filter is_Arc (drawApollonianRecursive x y r depth))
                 = true).
  { destruct (Z.le_gt_cases 0 depth) as [Hd|Hd].
    - rewrite <- (Z2Nat.id depth Hd). apply drawApollonianRecursive_strokes.
    - rewrite drawApollonianRecursive_body.
      replace (depth <=? 0) with true by (symmetry; apply Z.leb_le; lia).
      split; reflexivity. }
  destruct Hops as [Hstroked Hcircles].
  unfold strokedCircles, circleCount. rewrite Hstroked.
  rewrite List.forallb_filter_id by exact Hcircles.
  generalize (drawApollonianRecursive x y r depth). intros ops.
  split.
  - induction ops as [|op ops IH]; [reflexivity|].
    destruct op; cbn [List.filter is_Arc circlesOf]; now rewrite ?IH.
  - induction ops as [|op ops IH]; [reflexivity|].
    destruct op; cbn [List.filter is_Arc circlesOf length]; now rewrite ?IH.
Qed.

(** A pruned call draws nothing. *)
Lemma drawApollonianRecursive_pruned x y r depth :
  (r <? 1)%float = true -> drawApollonianRecursive x y r depth = [].
Proof.
  intros H. rewrite drawApollonianRecursive_body, H, orb_true_r. reflexivity.
Qed.

(** In numbers: the floor cuts no call of the five levels as soon as the
    deepest radius, [r0 * 0.6^4], is at least 1. *)
Lemma unpruned_deepest r0 :
  (1 <=? r0 * 0.6 * 0.6 * 0.6 * 0.6)%float = true -> unpruned r0 5 = true.
Proof.
  intros H4.
  pose proof (shrink_at_least_one _ H4) as H3.
  pose proof (shrink_at_least_one _ H3) as H2.
  pose proof (shrink_at_least_one _ H2) as H1.
  pose proof (shrink_at_least_one _ H1) as H0.
  apply leb_not_ltb in H0, H1, H2, H3, H4.
  cbn [unpruned]. now rewrite H0, H1, H2, H3, H4.
Qed.

(** C2. From depth 5, when the radius floor cuts no call, exactly
    1 + 4 + 16 + 64 + 256 = 341 circles are stroked: the render has 341
    arcs, each a whole circle in a path of its own that is stroked once;
    and from the initial radius 2 the floor cuts the third level and
    fewer circles are stroked. *)
Theorem apollonian_circle_count x y r0 (Hfull : unpruned r0 5 = true) :
  length (strokedCircles (drawApollonianRecursive x y r0 5)) = 341%nat /\
  strokedCircles (drawApollonianRecursive x y r0 5)
  = circlesOf (drawApollonianRecursive x y r0 5) /\
  circleCount (drawApollonianRecursive x y r0 5) = 341%nat /\
  (1 + 4 + 16 + 64 + 256 = 341)%nat /\
  exists r1, unpruned r1 5 = false /\
    forall x1 y1,
      (length (strokedCircles (drawApollonianRecursive x1 y1 r1 5)) < 341)%nat.
Proof.
  destruct (strokedCircles_recursive x y r0 5) as [Hsame Hlen].
  pose proof (circleCount_full 5 x y r0 Hfull) as Hcount.
  change (Z.of_nat 5) with 5 in Hcount. change (fullCount 5) with 341%nat in Hcount.
  split; [now rewrite Hlen|]. split; [exact Hsame|].
  split; [exact Hcount|]. split; [reflexivity|].
  exists 2%float. split; [vm_compute; reflexivity|].
  intros x1 y1. clear.
  rewrite (proj2 (strokedCircles_recursive x1 y1 2 5)).
  assert (Hc : forall x y,
             circleCount (drawApollonianRecursive x y (2 * 0.6) 4) = 1%nat).
  { intros x y. rewrite drawApollonianRecursive_body.
    change ((4 <=? 0) || (2 * 0.6 <? 1)%float) with false. cbv iota zeta.
    destruct (hsbToRgb _ 80 90) as [[red green] blue].
    change (1 <? 4) with true. cbv iota.
    rewrite !drawApollonianRecursive_pruned by (vm_compute; reflexivity).
    reflexivity. }
  rewrite drawApollonianRecursive_body.
  change ((5 <=? 0) || (2 <? 1)%float) with false. cbv iota zeta.
  destruct (hsbToRgb _ 80 90) as [[red green] blue].
  change (1 <? 5) with true. cbv iota.
  rewrite !circleCount_app. change (5 - 1) with 4.
  rewrite !Hc. cbn. lia.
Qed.

Lemma apollonian_circle_count_witness :
  unpruned 100 5 = true /\
  (length (strokedCircles (drawApollonianRecursive 300 300 100 5%Z)) = 341)%nat.
Proof.
  split; [vm_compute; reflexivity|].
  apply (apollonian_circle_count 300 300 100). vm_compute; reflexivity.
Defined.

(** * The Koch generator *)

Lemma drawKochLine_step fuel x1 y1 x2 y2 depth :
  depth <> 0 ->
  drawKochLine (S fuel) x1 y1 x2 y2 depth =
  let dx := (x2 - x1)%float in
  let dy := (y2 - y1)%float in
  let x3 := (x1 + dx / 3)%float in
  let y3 := (y1 + dy / 3)%float in
  let x4 := (x1 + 2 * dx / 3)%float in
  let y4 := (y1 + 2 * dy / 3)%float in
  let px := (x3 + (x4 - x3) * 0.5 - (y4 - y3) * Math_sqrt 3 / 6)%float in
  let py := (y3 + (y4 - y3) * 0.5 + (x4 - x3) * Math_sqrt 3 / 6)%float in
  kochCalls fuel x1 y1 x3 y3 px py x4 y4 x2 y2 (depth - 1).
Proof.
  intros Hd. cbn [drawKochLine].
  apply Z.eqb_neq in Hd. rewrite Hd. reflexivity.
Qed.

Lemma drawKochLine_negative fuel : forall x1 y1 x2 y2 depth,
  depth < 0 -> drawKochLine fuel x1 y1 x2 y2 depth = None.
Proof.
  induction fuel as [|fuel IH]; intros x1 y1 x2 y2 depth Hd; [reflexivity|].
  rewrite drawKochLine_step by lia. cbv zeta. unfold kochCalls.
  rewrite (IH x1 y1) by lia. reflexivity.
Qed.

Lemma drawKochLine_depth n : forall x1 y1 x2 y2,
  exists ops,
    drawKochLine (S n) x1 y1 x2 y2 (Z.of_nat n) = Some ops /\
    segmentCount ops = (4 ^ n)%nat /\
    forallb is_LineTo ops = true.
Proof.
  induction n as [|n IH]; intros x1 y1 x2 y2.
  - exists [LineTo x2 y2]. repeat split.
  - rewrite drawKochLine_step by lia.
    replace (Z.of_nat (S n) - 1) with (Z.of_nat n) by lia.
    cbv zeta. unfold kochCalls.
    repeat match goal with
    | |- context [drawKochLine (S n) ?a ?b ?c ?d (Z.of_nat n)] =>
        let ops := fresh "ops" in
        let Hrun := fresh "Hrun" in
        let Hcount := fresh "Hcount" in
        let Hall := fresh "Hall" in
        destruct (IH a b c d) as (ops & Hrun & Hcount & Hall);
        rewrite Hrun; cbn [mbind option_bind]
    end.
    eexists. split; [reflexivity|]. split.
    + rewrite !segmentCount_app. rewrite Hcount, Hcount0, Hcount1, Hcount2.
      rewrite Nat.pow_succ_r'. lia.
    + rewrite !forallb_app, Hall, Hall0, Hall1, Hall2. reflexivity.
Qed.

(** More fuel does not change a result. *)
Lemma drawKochLine_fuel fuel : forall fuel' x1 y1 x2 y2 depth ops,
  drawKochLine fuel x1 y1 x2 y2 depth = Some ops ->
  (fuel <= fuel')%nat ->
  drawKochLine fuel' x1 y1 x2 y2 depth = Some ops.
Proof.
  induction fuel as [|fuel IH]; intros fuel' x1 y1 x2 y2 depth ops Hrun Hle;
    [discriminate|].
  destruct fuel' as [|fuel']; [lia|].
  cbn [drawKochLine] in *.
  destruct (depth =? 0); [assumption|].
  cbv zeta in *.
  repeat match type of Hrun with
  | context [drawKochLine fuel ?a ?b ?c ?d ?e] =>
      let E := fresh "E" in
      destruct (drawKochLine fuel a b c d e) eqn:E; [|discriminate];
      rewrite (IH fuel' _ _ _ _ _ _ E) by lia; cbn [mbind option_bind] in *
  end.
  assumption.
Qed.

Lemma drawKochLine_result fuel x1 y1 x2 y2 depth ops :
  drawKochLine fuel x1 y1 x2 y2 depth = Some ops ->
  0 <= depth /\
  drawKochLine (S (Z.to_nat depth)) x1 y1 x2 y2 depth = Some ops.
Proof.
  intros Hrun.
  assert (Hd : 0 <= depth).
  { destruct (Z.le_gt_cases 0 depth) as [H|H]; [assumption|].
    rewrite drawKochLine_negative in Hrun by assumption. discriminate. }
  split; [assumption|].
  destruct (drawKochLine_depth (Z.to_nat depth) x1 y1 x2 y2) as (ops' & Hrun' & _).
  rewrite Z2Nat.id in Hrun' by assumption.
  destruct (Nat.le_ge_cases fuel (S (Z.to_nat depth))) as [Hle|Hle].
  - now apply (drawKochLine_fuel fuel).
  - rewrite (drawKochLine_fuel _ _ _ _ _ _ _ _ Hrun' Hle) in Hrun.
    congruence.
Qed.

(** ** The depth, a number *)

(** From a negative depth the Koch line does not come back. *)
Lemma number_drawKochLine_negative fuel : forall x1 y1 x2 y2 depth,
  (depth <? 0)%float = true ->
  NumberDepth.drawKochLine fuel x1 y1 x2 y2 depth = None.
Proof.
  induction fuel as [|fuel IH]; intros x1 y1 x2 y2 depth Hd; [reflexivity|].
  cbn [NumberDepth.drawKochLine].
  rewrite (ltb_zero_not_eqb _ Hd). cbv zeta.
  rewrite (IH x1 y1) by now apply sub_one_negative. reflexivity.
Qed.

(** Nor from a depth that [depth - 1] leaves in place. *)
Lemma number_drawKochLine_stuck fuel : forall x1 y1 x2 y2 depth,
  (depth =? 0)%float = false -> (depth - 1)%float = depth ->
  NumberDepth.drawKochLine fuel x1 y1 x2 y2 depth = None.
Proof.
  induction fuel as [|fuel IH]; intros x1 y1 x2 y2 depth Hd Hstuck;
    [reflexivity|].
  cbn [NumberDepth.drawKochLine]. rewrite Hd, Hstuck. cbv zeta.
  rewrite (IH x1 y1) by assumption. reflexivity.
Qed.

(** On the integers of magnitude up to [2^53] the Koch line on a number
    is the Koch line on an integer. *)
Lemma number_drawKochLine fuel : forall x1 y1 x2 y2 depth,
  - 2 ^ 53 <= depth <= 2 ^ 53 ->
  NumberDepth.drawKochLine fuel x1 y1 x2 y2 (of_Z depth)
  = drawKochLine fuel x1 y1 x2 y2 depth.
Proof.
  induction fuel as [|fuel IH]; intros x1 y1 x2 y2 depth Hd; [reflexivity|].
  destruct (Z.lt_ge_cases depth 0) as [Hneg|Hpos].
  - rewrite number_drawKochLine_negative by now apply of_Z_negative.
    now rewrite drawKochLine_negative.
  - cbn [NumberDepth.drawKochLine drawKochLine].
    rewrite of_Z_eqb_zero by assumption.
    destruct (Z.eqb_spec depth 0) as [->|Hne]; [reflexivity|].
    cbv zeta. rewrite sub_one_exact by lia.
    now rewrite !IH by lia.
Qed.

(** Past [2^53 + 2] the step [depth - 1] no longer moves: from the depth
    [2^53 + 4] the Koch line does not come back. *)
Lemma number_drawKochLine_limit fuel x1 y1 x2 y2 :
  NumberDepth.drawKochLine fuel x1 y1 x2 y2 9007199254740996 = None.
Proof. apply number_drawKochLine_stuck; vm_compute; reflexivity. Qed.

(** The run at an integer depth up to [2^53], and its segments. *)
Lemma number_drawKochLine_depth depth x1 y1 x2 y2 :
  0 <= depth <= 2 ^ 53 ->
  exists ops,
    NumberDepth.drawKochLine (S (Z.to_nat depth)) x1 y1 x2 y2 (of_Z depth)
    = Some ops /\
    Z.of_nat (segmentCount ops) = 4 ^ depth /\
    forallb is_LineTo ops = true.
Proof.
  intros Hdepth.
  assert (Hrange : - 2 ^ 53 <= depth <= 2 ^ 53).
  { split; [|apply Hdepth]. apply Z.le_trans with 0; [discriminate|apply Hdepth]. }
  destruct Hdepth as [Hdepth _].
  destruct (drawKochLine_depth (Z.to_nat depth) x1 y1 x2 y2)
    as (ops & Hrun & Hcount & Hall).
  rewrite Z2Nat.id in Hrun by assumption.
  exists ops. split; [now rewrite number_drawKochLine|].
  split; [|exact Hall].
  rewrite Hcount, Nat2Z.inj_pow, Z2Nat.id by assumption. reflexivity.
Qed.

(** One step above: from a number whose [depth - 1] is the integer
    [depth], the run has four times the segments of depth [depth]. *)
Lemma number_drawKochLine_above depth d x1 y1 x2 y2 :
  0 <= depth <= 2 ^ 53 ->
  (d =? 0)%float = false -> (d - 1)%float = of_Z depth ->
  exists ops,
    NumberDepth.drawKochLine (S (S (Z.to_nat depth))) x1 y1 x2 y2 d = Some ops /\
    Z.of_nat (segmentCount ops) = 4 ^ (depth + 1).
Proof.
  intros Hdepth Hd Hstep.
  set (fuel := S (Z.to_nat depth)).
  cbn [NumberDepth.drawKochLine]. rewrite Hd, Hstep. cbv zeta.
  subst fuel.
  repeat match goal with
  | |- context [NumberDepth.drawKochLine (S (Z.to_nat depth)) ?a ?b ?c ?e
                  (of_Z depth)] =>
      let ops := fresh "ops" in
      let Hrun := fresh "Hrun" in
      let Hcount := fresh "Hcount" in
      destruct (number_drawKochLine_depth depth a b c e Hdepth)
        as (ops & Hrun & Hcount & _);
      rewrite Hrun; cbn [mbind option_bind]
  end.
  eexists. split; [reflexivity|].
  rewrite !segmentCount_app, !Nat2Z.inj_add, Hcount, Hcount0, Hcount1, Hcount2.
  rewrite Z.pow_add_r by (try apply Hdepth; discriminate).
  change (4 ^ 1) with 4. generalize (4 ^ depth). intros c. lia.
Qed.

(** C5, the part that fails: [2^53 + 2] is a non-negative integer and a
    number of the program, and at this depth the call returns with
    [4 ^ (2^53 + 1)] segments, not [4 ^ (2^53 + 2)]: in binary64
    [depth - 1] is [2^53]. *)
Lemma koch_segment_count_above_2_53 :
  0 <= 2 ^ 53 + 2 /\
  of_Z (2 ^ 53 + 2) = 9007199254740994%float /\
  exists fuel ops,
    NumberDepth.drawKochLine fuel 0 0 3 0 (of_Z (2 ^ 53 + 2)) = Some ops /\
    Z.of_nat (segmentCount ops) = 4 ^ (2 ^ 53 + 1) /\
    Z.of_nat (segmentCount ops) <> 4 ^ (2 ^ 53 + 2).
Proof.
  split; [discriminate|]. split; [vm_compute; reflexivity|].
  destruct (number_drawKochLine_above (2 ^ 53) (of_Z (2 ^ 53 + 2)) 0 0 3 0)
    as (ops & Hrun & Hcount);
    [split; discriminate | vm_compute; reflexivity | vm_compute; reflexivity|].
  exists (S (S (Z.to_nat (2 ^ 53)))), ops.
  split; [exact Hrun|]. split; [exact Hcount|].
  rewrite Hcount. apply Z.lt_neq.
  apply Z.pow_lt_mono_r; [reflexivity|discriminate|reflexivity].
Qed.

(** C5. For a depth that is a non-negative integer, up to the [2^53] to
    which the numbers of the program count down one by one, the
    subdivision of one segment returns, and every run of it emits exactly
    [4 ^ depth] operations, all of them [lineTo]; at depth 0 it is the
    single segment to the end point. *)
Theorem koch_segment_count x1 y1 x2 y2 depth (Hdepth : 0 <= depth <= 2 ^ 53) :
  (exists fuel ops,
     NumberDepth.drawKochLine fuel x1 y1 x2 y2 (of_Z depth) = Some ops) /\
  (forall fuel ops,
     NumberDepth.drawKochLine fuel x1 y1 x2 y2 (of_Z depth) = Some ops ->
     Z.of_nat (segmentCount ops) = 4 ^ depth /\
     forallb is_LineTo ops = true /\
     (depth = 0 -> ops = [LineTo x2 y2])).
Proof.
  assert (Hrange : - 2 ^ 53 <= depth <= 2 ^ 53).
  { split; [|apply Hdepth]. apply Z.le_trans with 0; [discriminate|apply Hdepth]. }
  destruct (number_drawKochLine_depth depth x1 y1 x2 y2 Hdepth)
    as (ops & Hrun & Hcount & Hall).
  split; [now exists (S (Z.to_nat depth)), ops|].
  intros fuel ops' Hrun'.
  rewrite number_drawKochLine in Hrun, Hrun' by assumption.
  apply drawKochLine_result in Hrun' as [_ Hrun'].
  assert (ops' = ops) by congruence. subst ops'.
  split; [exact Hcount|]. split; [exact Hall|].
  intros ->. cbn in Hrun. congruence.
Qed.

Lemma koch_segment_count_witness :
  0 <= 2 <= 2 ^ 53 /\
  exists ops, NumberDepth.drawKochLine 3 0 0 9 0 2 = Some ops /\
              Z.of_nat (segmentCount ops) = 16.
Proof.
  assert (Hdepth : 0 <= 2 <= 2 ^ 53) by (split; discriminate).
  split; [exact Hdepth|].
  destruct (NumberDepth.drawKochLine 3 0 0 9 0 2) as [ops|] eqn:Hrun;
    [|vm_compute in Hrun; discriminate].
  exists ops. split; [reflexivity|].
  apply (proj2 (koch_segment_count 0 0 9 0 2 Hdepth) 3%nat ops Hrun).
Defined.

(** C10, the part that fails: [2^53 + 4] is a non-negative integer and a
    number of the program, and from this depth the Koch line does not
    come back: in binary64 [depth - 1] is [depth] again. *)
Lemma drawKochLine_never_returns_above_2_53 :
  0 <= 2 ^ 53 + 4 /\
  of_Z (2 ^ 53 + 4) = 9007199254740996%float /\
  (of_Z (2 ^ 53 + 4) - 1)%float = of_Z (2 ^ 53 + 4) /\
  ~ exists fuel ops,
      NumberDepth.drawKochLine fuel 0 0 3 0 (of_Z (2 ^ 53 + 4)) = Some ops.
Proof.
  split; [discriminate|]. split; [vm_compute; reflexivity|].
  split; [vm_compute; reflexivity|].
  intros (fuel & ops & Hrun).
  rewrite number_drawKochLine_stuck in Hrun;
    [discriminate | vm_compute; reflexivity | vm_compute; reflexivity].
Qed.

(** C10. The depth is an integer that the numbers of the program hold
    exactly, of magnitude up to [2^53]: there the test [depth === 0] and
    the step [depth - 1] of the program are those of the integers, and a
    negative depth is a negative number.  On these depths [drawKochLine]
    comes back exactly when the depth is not negative: the only base case
    is [depth === 0], each call goes down by one, and from a negative
    depth no amount of fuel is enough. *)
Theorem drawKochLine_terminates_iff x1 y1 x2 y2 depth
    (Hdepth : - 2 ^ 53 <= depth <= 2 ^ 53) :
  (0 <= depth <->
   exists fuel ops,
     NumberDepth.drawKochLine fuel x1 y1 x2 y2 (of_Z depth) = Some ops) /\
  (of_Z depth =? 0)%float = (depth =? 0) /\
  (0 < depth -> (of_Z depth - 1)%float = of_Z (depth - 1)) /\
  (depth < 0 -> (of_Z depth <? 0)%float = true).
Proof.
  split; [|split; [|split]].
  - split.
    + intros Hd.
      destruct (drawKochLine_depth (Z.to_nat depth) x1 y1 x2 y2)
        as (ops & Hrun & _).
      rewrite Z2Nat.id in Hrun by assumption.
      exists (S (Z.to_nat depth)), ops. now rewrite number_drawKochLine.
    + intros (fuel & ops & Hrun).
      rewrite number_drawKochLine in Hrun by assumption.
      now apply drawKochLine_result in Hrun.
  - now apply of_Z_eqb_zero.
  - intros Hpos. apply sub_one_exact. lia.
  - apply of_Z_negative.
Qed.

Lemma drawKochLine_terminates_iff_witness :
  - 2 ^ 53 <= 3 <= 2 ^ 53 /\
  (0 <= 3 <->
   exists fuel ops, NumberDepth.drawKochLine fuel 0 0 9 0 3 = Some ops).
Proof.
  assert (Hdepth : - 2 ^ 53 <= 3 <= 2 ^ 53) by (split; discriminate).
  split; [exact Hdepth|].
  exact (proj1 (drawKochLine_terminates_iff 0 0 9 0 3 Hdepth)).
Defined.

(** C6. For a depth other than 0 the call splits the segment at one third
    and two thirds, raises the peak
    [P1 + 0.5 (P2 - P1) + rot90 (P2 - P1) * sqrt 3 / 6] over the middle
    third, and calls itself on (start, P1), (P1, peak), (peak, P2) and
    (P2, end), in this order, at [depth - 1]. *)
Theorem drawKochLine_subdivides fuel x1 y1 x2 y2 depth (Hdepth : 1 <= depth) :
  let p1 := oneThird (x1, y1) (x2, y2) in
  let p2 := twoThirds (x1, y1) (x2, y2) in
  let peak := apex p1 p2 in
  drawKochLine (S fuel) x1 y1 x2 y2 depth =
    s1 ← drawKochLine fuel x1 y1 (fst p1) (snd p1) (depth - 1);
    s2 ← drawKochLine fuel (fst p1) (snd p1) (fst peak) (snd peak) (depth - 1);
    s3 ← drawKochLine fuel (fst peak) (snd peak) (fst p2) (snd p2) (depth - 1);
    s4 ← drawKochLine fuel (fst p2) (snd p2) x2 y2 (depth - 1);
    Some (s1 ++ s2 ++ s3 ++ s4).
Proof.
  intros p1 p2 peak.
  rewrite drawKochLine_step by lia. cbv zeta. unfold kochCalls.
  assert (Hpx : fst peak =
            (fst p1 + (fst p2 - fst p1) * 0.5
             - (snd p2 - snd p1) * Math_sqrt 3 / 6)%float).
  { unfold peak, apex, vadd, vsub, half, bySqrt3Over6, rot90. cbn [fst snd].
    now rewrite opp_mul_l, opp_div_l, <- sub_add_opp. }
  rewrite Hpx. reflexivity.
Qed.

Lemma drawKochLine_subdivides_witness :
  1 <= 1 /\
  drawKochLine 2 0 0 3 0 1
  = Some [LineTo 1 0; LineTo 1.5 0.28867513459481287; LineTo 2 0; LineTo 3 0].
Proof.
  split; [lia|].
  rewrite (drawKochLine_subdivides 1 0 0 3 0 1); [|lia].
  vm_compute. reflexivity.
Defined.

(** The star: eight edges at depth 3, 512 segments in one path. *)
Lemma drawKochStar_segments Math_cos Math_sin centerX centerY radius :
  exists ops,
    drawKochStar Math_cos Math_sin centerX centerY radius = Some ops /\
    segmentCount ops = 512%nat.
Proof.
  unfold drawKochStar. destruct (hsbToRgb 60 80 90) as [[red green] blue].
  cbv zeta.
  set (vertices := map _ (seq 0 8)).
  assert (Hlookup : forall i, (i < 8)%nat -> exists v, vertices !! i = Some v).
  { intros i Hi. apply lookup_lt_is_Some.
    unfold vertices. rewrite length_map, length_seq. exact Hi. }
  destruct (Hlookup 0%nat ltac:(lia)) as [v0 Hv0]. rewrite Hv0.
  cbn [mbind option_bind].
  destruct (for_range_invariant
              (fun i (path : list CanvasOp) => segmentCount path = (64 * i)%nat)
              8 (fun i path =>
                   start ← vertices !! i;
                   end_ ← vertices !! ((i + 1) mod 8)%nat;
                   seg ← drawKochLine 4 (vx start) (vy start)
                           (vx end_) (vy end_) 3;
                   Some (path ++ seg)) [])
    as (edges & Hrun & Hcount).
  - reflexivity.
  - intros i path Hi Hpath.
    destruct (Hlookup i Hi) as [a Ha].
    destruct (Hlookup ((i + 1) mod 8)%nat) as [b Hb];
      [apply Nat.mod_upper_bound; lia|].
    rewrite Ha, Hb. cbn [mbind option_bind].
    destruct (drawKochLine_depth 3 (vx a) (vy a) (vx b) (vy b))
      as (seg & Hseg & Hn & _).
    change (Z.of_nat 3) with 3 in Hseg. rewrite Hseg.
    cbn [mbind option_bind]. eexists. split; [reflexivity|].
    rewrite segmentCount_app, Hpath, Hn. cbn. lia.
  - rewrite Hrun. cbn [mbind option_bind]. eexists. split; [reflexivity|].
    rewrite !segmentCount_app, Hcount. reflexivity.
Qed.

(** * Thumbnails *)

Lemma float_neq (a b : number) : Leibniz.eqb a b = false -> a <> b.
Proof.
  intros H E. apply Leibniz.eqb_spec in E. congruence.
Qed.

Lemma thumbnail_while_julia_while fuel : forall maxIter zx zy iterations,
  thumbnail_while fuel maxIter zx zy iterations
  = julia_while fuel maxIter zx zy iterations.
Proof.
  induction fuel as [|fuel IH]; intros maxIter zx zy iterations;
    [reflexivity|].
  cbn [thumbnail_while julia_while]. now rewrite IH.
Qed.

(** C3, the part that fails: the four circles of the 120 x 120 thumbnail
    are the circles of no call of the circle recursion. *)
Lemma apollonian_thumbnail_not_recursive :
  ~ exists x y r depth,
      circlesOf (generateApollonianThumbnail 120 120)
      = circlesOf (drawApollonianRecursive x y r depth).
Proof.
  intros (x & y & r & depth & H).
  assert (Hthumb : circlesOf (generateApollonianThumbnail 120 120)
                   = [mkCircle 60 40 16; mkCircle 40 70 16;
                      mkCircle 80 70 16; mkCircle 60 66 8])
    by (vm_compute; reflexivity).
  rewrite Hthumb in H. clear Hthumb.
  rewrite drawApollonianRecursive_body in H.
  destruct ((depth <=? 0) || (r <? 1)%float) eqn:Hstop; [discriminate|].
  apply orb_false_elim in Hstop as [Hdepth _]. apply Z.leb_gt in Hdepth.
  cbv zeta in H. destruct (hsbToRgb _ 80 90) as [[red green] blue].
  rewrite circlesOf_app in H. cbn [circlesOf app] in H.
  pose proof (f_equal (hd (mkCircle 0 0 0)) H) as Hhead.
  pose proof (f_equal (@tl Circle) H) as Hrest. clear H.
  cbn [hd tl] in Hhead, Hrest.
  pose proof (f_equal circle_x Hhead) as Hx.
  pose proof (f_equal circle_y Hhead) as Hy.
  pose proof (f_equal circle_r Hhead) as Hr.
  cbn [circle_x circle_y circle_r] in Hx, Hy, Hr. clear Hhead.
  subst x y r.
  destruct (Z.ltb_spec 1 depth) as [Hdeep|_]; [|discriminate].
  rewrite circlesOf_app, drawApollonianRecursive_body in Hrest.
  replace (depth - 1 <=? 0) with false in Hrest
    by (symmetry; apply Z.leb_gt; lia).
  change ((16 * 0.6 <? 1)%float) with false in Hrest.
  cbn [orb] in Hrest. cbv zeta in Hrest.
  destruct (hsbToRgb _ 80 90) as [[red' green'] blue'].
  rewrite circlesOf_app in Hrest. cbn [circlesOf app] in Hrest.
  pose proof (f_equal circle_x (f_equal (hd (mkCircle 0 0 0)) Hrest)) as Hx.
  cbn [hd circle_x] in Hx.
  revert Hx. apply not_eq_sym, float_neq. vm_compute. reflexivity.
Qed.

(** C3, as the thumbnails are written.  The Julia thumbnail runs the loop
    of the main generator, from the per-pixel mapping at focus 0 and
    radius 1, for 50 steps, with a shade of its own.  The circle
    thumbnail does not recurse: it strokes four fixed circles, each in a
    path of its own at line width 2, three of radius [0.8 * b] and one of
    radius [0.4 * b] for [b = min(w, h) / 6].  The star thumbnail does
    not subdivide: from vertex 0 of the octagon its path is what the Koch
    line emits at depth 0 along the seven edges from vertex [i] to vertex
    [i + 1], one [lineTo] each; the eighth edge is drawn by [closePath],
    and the path is stroked once. *)
Theorem thumbnails_formulas (Math_cos Math_sin : number -> number)
    (w h : number) (wn hn x y : nat) (d : list Z) :
  (* Julia: the mapping at focus 0 and radius 1, the same loop, 50 steps *)
  thumbnailPixel wn hn x y d =
    (iterations ← julia_while 51 50
                    (pixelToMath 0 1 (of_nat x) (of_nat wn))
                    (pixelToMath 0 1 (of_nat y) (of_nat hn)) 0;
     let '(r, g, b) := thumbnailShade iterations in
     let idx := ((y * wn + x) * 4)%nat in
     Some (store (idx + 3) 255
             (store (idx + 2) b (store (idx + 1) g (store idx r d))))) /\
  (* circles: four fixed ones, each stroked in a path of its own *)
  (let cx := (w / 2)%float in
   let cy := (h / 2)%float in
   let b := (Math_min w h / 6)%float in
   let full := (Math_PI * 2)%float in
   generateApollonianThumbnail w h =
     [SetFillStyle (CssHex "#1a1a1a"); FillRect 0 0 w h;
      SetStrokeStyle (CssRgb 255 255 100); SetLineWidth 2; BeginPath;
      Arc cx (cy - b) (b * 0.8) 0 full; Stroke;
      SetStrokeStyle (CssRgb 191 191 75); SetLineWidth 2; BeginPath;
      Arc (cx - b) (cy + b * 0.5) (b * 0.8) 0 full; Stroke;
      SetStrokeStyle (CssRgb 127 127 50); SetLineWidth 2; BeginPath;
      Arc (cx + b) (cy + b * 0.5) (b * 0.8) 0 full; Stroke;
      SetStrokeStyle (CssRgb 63 63 25); SetLineWidth 2; BeginPath;
      Arc cx (cy + b * 0.3) (b * 0.4) 0 full; Stroke] /\
   strokedCircles (generateApollonianThumbnail w h) =
     [mkCircle cx (cy - b) (b * 0.8);
      mkCircle (cx - b) (cy + b * 0.5) (b * 0.8);
      mkCircle (cx + b) (cy + b * 0.5) (b * 0.8);
      mkCircle cx (cy + b * 0.3) (b * 0.4)]) /\
  (* star: the plain octagon, no edge subdivided, closed by closePath *)
  (let v := fun i : nat =>
              mkVertex
                (w / 2 + Math_cos (of_nat i * Math_PI / 4)
                         * (Math_min w h / 3))%float
                (h / 2 + Math_sin (of_nat i * Math_PI / 4)
                         * (Math_min w h / 3))%float in
   exists edges,
     for_range 7 (fun i path =>
                    seg ← drawKochLine 1 (vx (v i)) (vy (v i))
                            (vx (v (S i))) (vy (v (S i))) 0;
                    Some (path ++ seg)) [] = Some edges /\
     edges = map (fun i => LineTo (vx (v i)) (vy (v i))) (seq 1 7) /\
     generateKochThumbnail Math_cos Math_sin w h =
       [SetFillStyle (CssHex "#1a1a1a"); FillRect 0 0 w h;
        SetStrokeStyle (CssHex "#ffdd44"); SetLineWidth 1.5; BeginPath;
        MoveTo (vx (v 0%nat)) (vy (v 0%nat))]
       ++ edges ++ [ClosePath; Stroke]).
Proof.
  split; [|split; [split|]].
  - unfold thumbnailPixel. cbv zeta.
    rewrite thumbnail_while_julia_while, !pixelToMath_unit.
    reflexivity.
  - reflexivity.
  - reflexivity.
  - cbv zeta. eexists. split; [reflexivity|]. split; reflexivity.
Qed.

(** * The path of the Koch curve *)

(** The next call of a sequence of calls that came back. *)
Ltac next_call s E :=
  match goal with
  | |- mbind _ ?c = Some _ -> _ =>
      destruct c as [s|] eqn:E; cbn [mbind option_bind]; [|discriminate]
  end.

Lemma drawKochLine_last n : forall x1 y1 x2 y2 ops,
  drawKochLine (S n) x1 y1 x2 y2 (Z.of_nat n) = Some ops ->
  last ops = Some (LineTo x2 y2).
Proof.
  induction n as [|n IH]; intros x1 y1 x2 y2 ops.
  - intros H. change (Some [LineTo x2 y2] = Some ops) in H.
    assert (ops = [LineTo x2 y2]) as -> by congruence.
    reflexivity.
  - rewrite drawKochLine_step by lia.
    replace (Z.of_nat (S n) - 1) with (Z.of_nat n) by lia.
    cbv zeta. unfold kochCalls.
    next_call s1 E1. next_call s2 E2. next_call s3 E3. next_call s4 E4.
    intros H. assert (ops = s1 ++ s2 ++ s3 ++ s4) as -> by congruence.
    apply IH in E4. destruct s4 as [|op s4 _] using rev_ind; [discriminate|].
    rewrite last_snoc in E4. now rewrite !app_assoc, last_snoc.
Qed.

(** Each deeper curve passes through the vertices of the shallower one. *)
Lemma drawKochLine_refines n : forall x1 y1 x2 y2 coarse fine,
  drawKochLine (S n) x1 y1 x2 y2 (Z.of_nat n) = Some coarse ->
  drawKochLine (S (S n)) x1 y1 x2 y2 (Z.of_nat (S n)) = Some fine ->
  sublist coarse fine.
Proof.
  induction n as [|n IH]; intros x1 y1 x2 y2 coarse fine.
  - intros Hc Hf.
    change (Some [LineTo x2 y2] = Some coarse) in Hc.
    assert (coarse = [LineTo x2 y2]) as -> by congruence.
    apply drawKochLine_last in Hf.
    destruct fine as [|op fine _] using rev_ind; [discriminate|].
    rewrite last_snoc in Hf. assert (op = LineTo x2 y2) as -> by congruence.
    apply sublist_inserts_l. reflexivity.
  - rewrite (drawKochLine_step (S n)), (drawKochLine_step (S (S n))) by lia.
    replace (Z.of_nat (S (S n)) - 1) with (Z.of_nat (S n)) by lia.
    replace (Z.of_nat (S n) - 1) with (Z.of_nat n) by lia.
    cbv zeta. unfold kochCalls.
    next_call s1 E1. next_call s2 E2. next_call s3 E3. next_call s4 E4.
    intros H. assert (coarse = s1 ++ s2 ++ s3 ++ s4) as -> by congruence.
    clear H.
    next_call t1 F1. next_call t2 F2. next_call t3 F3. next_call t4 F4.
    intros H. assert (fine = t1 ++ t2 ++ t3 ++ t4) as -> by congruence.
    repeat apply sublist_app; eapply IH; eassumption.
Qed.

(** X1.  Whatever the depth, the path of a Koch line ends on the end point of
    the segment, exactly. *)
Theorem drawKochLine_ends_at_end fuel x1 y1 x2 y2 depth ops
    (Hrun : drawKochLine fuel x1 y1 x2 y2 depth = Some ops) :
  last ops = Some (LineTo x2 y2).
Proof.
  apply drawKochLine_result in Hrun as [Hd Hrun].
  apply (drawKochLine_last (Z.to_nat depth) x1 y1).
  now rewrite Z2Nat.id.
Qed.

Lemma drawKochLine_ends_at_end_witness :
  exists ops, drawKochLine 3 0 0 9 0 2 = Some ops /\
              last ops = Some (LineTo 9 0).
Proof.
  destruct (drawKochLine 3 0 0 9 0 2) as [ops|] eqn:Hrun;
    [|vm_compute in Hrun; discriminate].
  exists ops. split; [reflexivity|].
  exact (drawKochLine_ends_at_end 3 0 0 9 0 2 ops Hrun).
Defined.

(** X2.  One more level of subdivision keeps every vertex of the curve: the
    path at depth [depth] is a subsequence of the path at [depth + 1]. *)
Theorem drawKochLine_refinement fuel fuel' x1 y1 x2 y2 depth coarse fine
    (Hcoarse : drawKochLine fuel x1 y1 x2 y2 depth = Some coarse)
    (Hfine : drawKochLine fuel' x1 y1 x2 y2 (depth + 1) = Some fine) :
  sublist coarse fine.
Proof.
  apply drawKochLine_result in Hcoarse as [Hd Hcoarse].
  apply drawKochLine_result in Hfine as [_ Hfine].
  replace (Z.to_nat (depth + 1)) with (S (Z.to_nat depth)) in Hfine by lia.
  replace (depth + 1) with (Z.of_nat (S (Z.to_nat depth))) in Hfine by lia.
  rewrite <- (Z2Nat.id depth Hd) in Hcoarse at 2.
  exact (drawKochLine_refines _ _ _ _ _ _ _ Hcoarse Hfine).
Qed.

Lemma drawKochLine_refinement_witness :
  exists coarse fine,
    drawKochLine 2 0 0 3 0 1 = Some coarse /\
    drawKochLine 3 0 0 3 0 2 = Some fine /\
    sublist coarse fine.
Proof.
  destruct (drawKochLine 2 0 0 3 0 1) as [coarse|] eqn:Hc;
    [|vm_compute in Hc; discriminate].
  destruct (drawKochLine 3 0 0 3 0 (1 + 1)) as [fine|] eqn:Hf;
    [|vm_compute in Hf; discriminate].
  exists coarse, fine. split; [reflexivity|]. split; [exact Hf|].
  exact (drawKochLine_refinement 2 3 0 0 3 0 1 coarse fine Hc Hf).
Defined.

(** The loop over the eight edges: 512 segments that end on vertex 0. *)
Lemma drawKochStar_edges (vertex : nat -> Vertex) :
  exists edges,
    for_range 8 (fun i path =>
                   start ← map vertex (seq 0 8) !! i;
                   end_ ← map vertex (seq 0 8) !! ((i + 1) mod 8)%nat;
                   seg ← drawKochLine 4 (vx start) (vy start)
                           (vx end_) (vy end_) 3;
                   Some (path ++ seg)) [] = Some edges /\
    length edges = 512%nat /\
    forallb is_LineTo edges = true /\
    last edges = Some (LineTo (vx (vertex 0%nat)) (vy (vertex 0%nat))).
Proof.
  set (vertices := map vertex (seq 0 8)).
  assert (Hlookup : forall i, (i < 8)%nat -> vertices !! i = Some (vertex i)).
  { intros i Hi. unfold vertices.
    rewrite list_lookup_fmap, lookup_seq_lt by exact Hi. reflexivity. }
  destruct (for_range_invariant
              (fun i (path : list CanvasOp) =>
                 length path = (64 * i)%nat /\
                 forallb is_LineTo path = true /\
                 ((0 < i)%nat ->
                  last path = Some (LineTo (vx (vertex (i mod 8)%nat))
                                      (vy (vertex (i mod 8)%nat)))))
              8 (fun i path =>
                   start ← vertices !! i;
                   end_ ← vertices !! ((i + 1) mod 8)%nat;
                   seg ← drawKochLine 4 (vx start) (vy start)
                           (vx end_) (vy end_) 3;
                   Some (path ++ seg)) [])
    as (edges & Hrun & Hlen & Hall & Hlast).
  - split; [reflexivity|]. split; [reflexivity|]. lia.
  - intros i path Hi (Hlen & Hall & _).
    rewrite (Hlookup i Hi), (Hlookup ((i + 1) mod 8)%nat)
      by (apply Nat.mod_upper_bound; lia).
    cbn [mbind option_bind].
    set (a := vertex i). set (b := vertex ((i + 1) mod 8)%nat).
    destruct (drawKochLine_depth 3 (vx a) (vy a) (vx b) (vy b))
      as (seg & Hseg & Hn & Hlines).
    change (Z.of_nat 3) with 3 in Hseg. rewrite Hseg.
    cbn [mbind option_bind]. eexists. split; [reflexivity|].
    assert (Hseglen : length seg = 64%nat).
    { unfold segmentCount in Hn.
      rewrite List.forallb_filter_id in Hn by exact Hlines. exact Hn. }
    split; [rewrite length_app, Hlen, Hseglen; lia|].
    split; [rewrite forallb_app, Hall, Hlines; reflexivity|].
    intros _. apply (drawKochLine_last 3) in Hseg.
    destruct seg as [|op seg _] using rev_ind; [discriminate|].
    rewrite last_snoc in Hseg. rewrite app_assoc, last_snoc.
    replace (S i mod 8)%nat with ((i + 1) mod 8)%nat
      by (f_equal; lia).
    exact Hseg.
  - exists edges. split; [exact Hrun|]. split; [exact Hlen|].
    split; [exact Hall|]. apply (Hlast ltac:(lia)).
Qed.

(** X3.  The star is one closed outline: a path of 512 segments, nothing but
    [lineTo] between [moveTo] and [stroke], that comes back exactly to
    the vertex it started from. *)
Theorem drawKochStar_closed Math_cos Math_sin centerX centerY radius :
  let cx := (centerX * (150 / radius) + 300)%float in
  let cy := (centerY * (150 / radius) + 300)%float in
  let x0 := (cx + Math_cos 0 * (100 / radius))%float in
  let y0 := (cy + Math_sin 0 * (100 / radius))%float in
  exists edges,
    drawKochStar Math_cos Math_sin centerX centerY radius =
      Some ([SetStrokeStyle (CssRgb 230 230 46); SetLineWidth 1;
             BeginPath; MoveTo x0 y0] ++ edges ++ [Stroke]) /\
    length edges = 512%nat /\
    forallb is_LineTo edges = true /\
    last edges = Some (LineTo x0 y0).
Proof.
  intros cx cy x0 y0. unfold drawKochStar.
  change (hsbToRgb 60 80 90) with (230%float, 230%float, 46%float).
  cbv iota zeta. fold cx cy.
  set (vertex := fun i : nat =>
         mkVertex (cx + Math_cos (of_nat i * Math_PI / 4) * (100 / radius))%float
                  (cy + Math_sin (of_nat i * Math_PI / 4) * (100 / radius))%float).
  destruct (drawKochStar_edges vertex) as (edges & Hrun & Hlen & Hall & Hlast).
  change (map vertex (seq 0 8) !! 0%nat) with (Some (vertex 0%nat)).
  cbn [mbind option_bind]. rewrite Hrun. cbn [mbind option_bind].
  exists edges. split; [reflexivity|]. split; [exact Hlen|].
  split; [exact Hall|exact Hlast].
Qed.

(** * The levels of the gasket *)

(** ** The circles, level by level *)

Lemma fullCount_closed k : (3 * fullCount k + 1 = 4 ^ k)%nat.
Proof.
  induction k as [|k IH]; [reflexivity|].
  rewrite Nat.pow_succ_r'. cbn [fullCount]. lia.
Qed.

Lemma liveLevels_le n : forall r, (liveLevels r n <= n)%nat.
Proof.
  induction n as [|n IH]; intros r; cbn [liveLevels]; [lia|].
  destruct (r <? 1)%float; [lia|]. specialize (IH (r * 0.6)%float). lia.
Qed.

Lemma circleCount_levels n : forall x y r,
  circleCount (drawApollonianRecursive x y r (Z.of_nat n))
  = fullCount (liveLevels r n).
Proof.
  induction n as [|n IH]; intros x y r;
    rewrite drawApollonianRecursive_body.
  - reflexivity.
  - replace (Z.of_nat (S n) <=? 0) with false by (symmetry; apply Z.leb_gt; lia).
    cbn [orb liveLevels]. destruct (r <? 1)%float; [reflexivity|].
    cbv zeta. destruct (hsbToRgb _ 80 90) as [[red green] blue].
    rewrite circleCount_app.
    replace (Z.of_nat (S n) - 1) with (Z.of_nat n) by lia.
    destruct n as [|n].
    + reflexivity.
    + replace (1 <? Z.of_nat (S (S n))) with true by (symmetry; apply Z.ltb_lt; lia).
      rewrite !circleCount_app, !IH.
      change (fullCount (S (liveLevels (r * 0.6) (S n))))
        with (1 + 4 * fullCount (liveLevels (r * 0.6) (S n)))%nat.
      generalize (fullCount (liveLevels (r * 0.6) (S n))). intros c.
      change (circleCount [SetStrokeStyle (CssRgb red green blue); BeginPath;
                           Arc x y r 0 (Math_PI * 2); Stroke]) with 1%nat.
      lia.
Qed.

(** On the integers of magnitude up to [2^53] the circle recursion on a
    number is the circle recursion on an integer, with fuel for the
    levels of the depth. *)
Lemma number_drawApollonianRecursive fuel : forall x y r depth,
  - 2 ^ 53 <= depth <= 2 ^ 53 -> (Z.to_nat depth < fuel)%nat ->
  NumberDepth.drawApollonianRecursive fuel x y r (of_Z depth)
  = Some (drawApollonianRecursive x y r depth).
Proof.
  induction fuel as [|fuel IH]; intros x y r depth Hd Hfuel; [lia|].
  cbn [NumberDepth.drawApollonianRecursive].
  rewrite drawApollonianRecursive_body, of_Z_leb_zero by assumption.
  destruct ((depth <=? 0) || (r <? 1)%float) eqn:Hstop; [reflexivity|].
  apply orb_false_elim in Hstop as [Hpos _]. apply Z.leb_gt in Hpos.
  cbv zeta. destruct (hsbToRgb _ 80 90) as [[red green] blue].
  rewrite of_Z_one_ltb by assumption.
  destruct (1 <? depth); [|now rewrite app_nil_r].
  rewrite sub_one_exact by lia.
  rewrite !IH by lia. reflexivity.
Qed.

(** Every run that comes back gives that render. *)
Lemma number_drawApollonianRecursive_run fuel : forall x y r depth ops,
  - 2 ^ 53 <= depth <= 2 ^ 53 ->
  NumberDepth.drawApollonianRecursive fuel x y r (of_Z depth) = Some ops ->
  ops = drawApollonianRecursive x y r depth.
Proof.
  induction fuel as [|fuel IH]; intros x y r depth ops Hd; [discriminate|].
  cbn [NumberDepth.drawApollonianRecursive].
  rewrite drawApollonianRecursive_body, of_Z_leb_zero by assumption.
  destruct ((depth <=? 0) || (r <? 1)%float) eqn:Hstop; [congruence|].
  apply orb_false_elim in Hstop as [Hpos _]. apply Z.leb_gt in Hpos.
  cbv zeta. destruct (hsbToRgb _ 80 90) as [[red green] blue].
  rewrite of_Z_one_ltb by assumption.
  destruct (1 <? depth); [|rewrite app_nil_r; congruence].
  rewrite sub_one_exact by lia.
  next_call c1 E1. next_call c2 E2. next_call c3 E3. next_call c4 E4.
  intros H.
  apply IH in E1, E2, E3, E4; try lia. subst c1 c2 c3 c4. congruence.
Qed.

(** X4.  The radius floor cuts whole levels: every call of a level has the
    same radius, so for every integer depth that the numbers of the
    program hold exactly (up to [2^53] in magnitude) the call comes back
    and the circles stroked are the full tree of the levels above the
    first radius below 1, [(4^k - 1) / 3] of them for [k] levels, each
    arc of the render stroked once, and never more than the full tree of
    the depth. *)
Theorem apollonian_circles_by_level x y r depth
    (Hdepth : - 2 ^ 53 <= depth <= 2 ^ 53) :
  let k := liveLevels r (Z.to_nat depth) in
  (exists fuel ops,
     NumberDepth.drawApollonianRecursive fuel x y r (of_Z depth) = Some ops) /\
  (forall fuel ops,
     NumberDepth.drawApollonianRecursive fuel x y r (of_Z depth) = Some ops ->
     length (strokedCircles ops) = fullCount k /\
     strokedCircles ops = circlesOf ops /\
     circleCount ops = fullCount k) /\
  (3 * fullCount k + 1 = 4 ^ k)%nat /\
  (k <= Z.to_nat depth)%nat /\
  (fullCount k <= fullCount (Z.to_nat depth))%nat.
Proof.
  intros k.
  assert (Hk : (k <= Z.to_nat depth)%nat) by apply liveLevels_le.
  destruct (strokedCircles_recursive x y r depth) as [Hsame Hlen].
  assert (Hcount : circleCount (drawApollonianRecursive x y r depth)
                   = fullCount k).
  { destruct (Z.le_gt_cases 0 depth) as [Hd|Hd].
    - rewrite <- (Z2Nat.id depth Hd) at 1. apply circleCount_levels.
    - rewrite drawApollonianRecursive_body.
      replace (depth <=? 0) with true by (symmetry; apply Z.leb_le; lia).
      subst k. replace (Z.to_nat depth) with 0%nat by lia. reflexivity. }
  split.
  { exists (S (Z.to_nat depth)), (drawApollonianRecursive x y r depth).
    apply number_drawApollonianRecursive; [exact Hdepth|lia]. }
  split.
  { intros fuel ops Hrun.
    apply number_drawApollonianRecursive_run in Hrun; [|exact Hdepth].
    subst ops. split; [now rewrite Hlen|]. split; [exact Hsame|exact Hcount]. }
  split; [apply fullCount_closed|split; [exact Hk|]].
  pose proof (fullCount_closed k) as H1.
  pose proof (fullCount_closed (Z.to_nat depth)) as H2.
  pose proof (Nat.pow_le_mono_r 4 k (Z.to_nat depth) ltac:(lia) Hk). lia.
Qed.

Lemma apollonian_circles_by_level_witness :
  - 2 ^ 53 <= 5 <= 2 ^ 53 /\
  exists ops,
    NumberDepth.drawApollonianRecursive 6 300 300 2 5 = Some ops /\
    length (strokedCircles ops) = 5%nat.
Proof.
  assert (Hdepth : - 2 ^ 53 <= 5 <= 2 ^ 53) by (split; discriminate).
  split; [exact Hdepth|].
  destruct (NumberDepth.drawApollonianRecursive 6 300 300 2 5)
    as [ops|] eqn:Hrun; [|vm_compute in Hrun; discriminate].
  exists ops. split; [reflexivity|].
  exact (proj1 (proj1 (proj2 (apollonian_circles_by_level 300 300 2 5 Hdepth))
                  6%nat ops Hrun)).
Defined.

(** ** Colors and radii of the gasket *)

Lemma strokedRadii_app st a : forall b,
  (forall st', strokedRadii st' b = strokedRadii None b) ->
  forall st0, strokedRadii st0 (a ++ b)
              = strokedRadii st0 a ++ strokedRadii st b.
Proof.
  intros b Hb. induction a as [|op a IH]; intros st0.
  - cbn [app strokedRadii]. now rewrite (Hb st0), (Hb st).
  - destruct op; cbn [app strokedRadii]; now rewrite ?IH.
Qed.

(** The circles of a call at depth [5 - k] have the color and the radius
    of their level. *)
Lemma drawApollonianRecursive_levels n : forall k x y r0 r,
  (k + n = 5)%nat -> r = levelRadius r0 k ->
  (forall st, strokedRadii st (drawApollonianRecursive x y r (Z.of_nat n))
              = strokedRadii None (drawApollonianRecursive x y r (Z.of_nat n))) /\
  Forall (fun p => exists j, (j < 5)%nat /\
                     fst p = levelColors !! j /\
                     snd p = levelRadius r0 j)
    (strokedRadii None (drawApollonianRecursive x y r (Z.of_nat n))).
Proof.
  induction n as [|n IH]; intros k x y r0 r Hk Hr;
    rewrite drawApollonianRecursive_body.
  - split; [reflexivity|constructor].
  - replace (Z.of_nat (S n) <=? 0) with false by (symmetry; apply Z.leb_gt; lia).
    cbn [orb]. destruct (r <? 1)%float; [split; [reflexivity|constructor]|].
    cbv zeta.
    assert (Hcolor : let '(red, green, blue) :=
                       hsbToRgb ((5 - of_Z (Z.of_nat (S n))) * 60) 80 90 in
                     Some (CssRgb red green blue) = levelColors !! k).
    { assert (Hn : In n [0; 1; 2; 3; 4]%nat).
      { assert (n < 5)%nat by lia.
        do 5 (destruct n as [|n]; [cbn; tauto|]). lia. }
      cbn [In] in Hn.
      destruct Hn as [<-|[<-|[<-|[<-|[<-|[]]]]]];
        (replace k with (5 - 1)%nat by lia) ||
        (replace k with (5 - 2)%nat by lia) ||
        (replace k with (5 - 3)%nat by lia) ||
        (replace k with (5 - 4)%nat by lia) ||
        (replace k with (5 - 5)%nat by lia);
        vm_compute; reflexivity. }
    destruct (hsbToRgb _ 80 90) as [[red green] blue].
    replace (Z.of_nat (S n) - 1) with (Z.of_nat n) by lia.
    assert (Hchild : forall x' y',
              (forall st, strokedRadii st
                   (drawApollonianRecursive x' y' (r * 0.6) (Z.of_nat n))
                 = strokedRadii None
                     (drawApollonianRecursive x' y' (r * 0.6) (Z.of_nat n))) /\
              Forall (fun p => exists j, (j < 5)%nat /\
                                 fst p = levelColors !! j /\
                                 snd p = levelRadius r0 j)
                (strokedRadii None
                   (drawApollonianRecursive x' y' (r * 0.6) (Z.of_nat n)))).
    { intros x' y'. destruct n as [|n].
      - rewrite drawApollonianRecursive_body. split; [reflexivity|constructor].
      - apply (IH (S k)); [lia|]. cbn [levelRadius]. now rewrite Hr. }
    set (own := (Some (CssRgb red green blue), r)).
    assert (Hown : exists j, (j < 5)%nat /\ fst own = levelColors !! j /\
                             snd own = levelRadius r0 j)
      by (exists k; repeat split; [lia|exact Hcolor|exact Hr]).
    destruct (1 <? Z.of_nat (S n)).
    + destruct (Hchild (x + r * 0.4)%float y) as [S1 F1].
      destruct (Hchild (x - r * 0.4)%float y) as [S2 F2].
      destruct (Hchild x (y + r * 0.4)%float) as [S3 F3].
      destruct (Hchild x (y - r * 0.4)%float) as [S4 F4].
      assert (S34 : forall st,
                strokedRadii st
                  (drawApollonianRecursive x (y + r * 0.4) (r * 0.6) (Z.of_nat n)
                   ++ drawApollonianRecursive x (y - r * 0.4) (r * 0.6) (Z.of_nat n))
                = strokedRadii None
                    (drawApollonianRecursive x (y + r * 0.4) (r * 0.6) (Z.of_nat n))
                  ++ strokedRadii None
                    (drawApollonianRecursive x (y - r * 0.4) (r * 0.6) (Z.of_nat n))).
      { intros st. now rewrite (strokedRadii_app None _ _ S4), S3. }
      assert (S234 : forall st,
                strokedRadii st
                  (drawApollonianRecursive (x - r * 0.4) y (r * 0.6) (Z.of_nat n)
                   ++ drawApollonianRecursive x (y + r * 0.4) (r * 0.6) (Z.of_nat n)
                   ++ drawApollonianRecursive x (y - r * 0.4) (r * 0.6) (Z.of_nat n))
                = strokedRadii None
                    (drawApollonianRecursive (x - r * 0.4) y (r * 0.6) (Z.of_nat n))
                  ++ strokedRadii None
                    (drawApollonianRecursive x (y + r * 0.4) (r * 0.6) (Z.of_nat n))
                  ++ strokedRadii None
                    (drawApollonianRecursive x (y - r * 0.4) (r * 0.6) (Z.of_nat n))).
      { intros st. rewrite (strokedRadii_app None); [now rewrite S2, S34|].
        intros st'. now rewrite !S34. }
      assert (S1234 : forall st,
                strokedRadii st
                  (drawApollonianRecursive (x + r * 0.4) y (r * 0.6) (Z.of_nat n)
                   ++ drawApollonianRecursive (x - r * 0.4) y (r * 0.6) (Z.of_nat n)
                   ++ drawApollonianRecursive x (y + r * 0.4) (r * 0.6) (Z.of_nat n)
                   ++ drawApollonianRecursive x (y - r * 0.4) (r * 0.6) (Z.of_nat n))
                = strokedRadii None
                    (drawApollonianRecursive (x + r * 0.4) y (r * 0.6) (Z.of_nat n))
                  ++ strokedRadii None
                    (drawApollonianRecursive (x - r * 0.4) y (r * 0.6) (Z.of_nat n))
                  ++ strokedRadii None
                    (drawApollonianRecursive x (y + r * 0.4) (r * 0.6) (Z.of_nat n))
                  ++ strokedRadii None
                    (drawApollonianRecursive x (y - r * 0.4) (r * 0.6) (Z.of_nat n))).
      { intros st. rewrite (strokedRadii_app None); [now rewrite S1, S234|].
        intros st'. now rewrite !S234. }
      cbn [app strokedRadii]. split; [reflexivity|].
      fold own. constructor; [exact Hown|].
      rewrite S1234. repeat apply Forall_app_2; assumption.
    + cbn [app strokedRadii]. split; [reflexivity|].
      fold own. constructor; [exact Hown|constructor].
Qed.

(** X5.  In the gasket every circle has the color of its level, red, yellow,
    green, cyan, blue from the outside in, and the radius of its level,
    [100 / radius] shrunk by 0.6 at each. *)
Theorem drawApollonianGasket_levels centerX centerY radius :
  Forall (fun p => exists k, (k < 5)%nat /\
                     fst p = levelColors !! k /\
                     snd p = levelRadius (100 / radius) k)
    (strokedRadii None (drawApollonianGasket centerX centerY radius)).
Proof.
  unfold drawApollonianGasket. cbv zeta. cbn [strokedRadii].
  apply (drawApollonianRecursive_levels 5 0); [lia|reflexivity].
Qed.

(** * The escape-time raster, in full *)

(** ** Not-a-number operands *)

Lemma is_nan_Prim2SF x : PrimFloat.is_nan x = true -> Prim2SF x = S754_nan.
Proof.
  intros H. apply is_nan_key in H. now destruct (Prim2SF x) as [[]|[]| |[] m e].
Qed.

Lemma Prim2SF_is_nan x : Prim2SF x = S754_nan -> PrimFloat.is_nan x = true.
Proof. intros H. apply is_nan_key. now rewrite H. Qed.

Lemma add_nan_l a b : PrimFloat.is_nan a = true -> PrimFloat.is_nan (a + b) = true.
Proof.
  intros H. apply Prim2SF_is_nan. rewrite add_spec, (is_nan_Prim2SF a H).
  reflexivity.
Qed.

Lemma add_nan_r a b : PrimFloat.is_nan b = true -> PrimFloat.is_nan (a + b) = true.
Proof.
  intros H. apply Prim2SF_is_nan. rewrite add_spec, (is_nan_Prim2SF b H).
  now destruct (Prim2SF a).
Qed.

Lemma mul_nan_l a b : PrimFloat.is_nan a = true -> PrimFloat.is_nan (a * b) = true.
Proof.
  intros H. apply Prim2SF_is_nan. rewrite mul_spec, (is_nan_Prim2SF a H).
  reflexivity.
Qed.

Lemma mul_nan_r a b : PrimFloat.is_nan b = true -> PrimFloat.is_nan (a * b) = true.
Proof.
  intros H. apply Prim2SF_is_nan. rewrite mul_spec, (is_nan_Prim2SF b H).
  now destruct (Prim2SF a).
Qed.

Lemma ltb_nan_l a b : PrimFloat.is_nan a = true -> (a <? b)%float = false.
Proof.
  intros H. rewrite ltb_spec, (is_nan_Prim2SF a H). reflexivity.
Qed.

(** A loop that starts on a NaN coordinate stops at once. *)
Lemma julia_while_nan fuel maxIter zx zy iterations :
  PrimFloat.is_nan zx || PrimFloat.is_nan zy = true ->
  julia_while (S fuel) maxIter zx zy iterations = Some iterations.
Proof.
  intros H. rewrite julia_while_S, ltb_nan_l; [reflexivity|].
  apply orb_prop in H as [H|H].
  - now apply add_nan_l, mul_nan_l.
  - now apply add_nan_r, mul_nan_l.
Qed.

Lemma mapped_nan w h centerX centerY radius x y :
  PrimFloat.is_nan centerX || PrimFloat.is_nan centerY
    || PrimFloat.is_nan radius = true ->
  PrimFloat.is_nan (fst (mapped w h centerX centerY radius x y))
    || PrimFloat.is_nan (snd (mapped w h centerX centerY radius x y)) = true.
Proof.
  intros H. unfold mapped, pixelToMath. cbn [fst snd].
  apply orb_prop in H as [H|H]; [apply orb_prop in H as [H|H]|].
  - now rewrite (add_nan_l _ _ H).
  - now rewrite (add_nan_l centerY _ H), orb_true_r.
  - now rewrite (add_nan_r centerX _ (mul_nan_r _ _ H)).
Qed.

(** X6.  A NaN in the focus or in the radius (the radius of a zoom level that
    does not exist) is not an error: the loop test fails at once on a NaN
    coordinate, and every pixel is given the color of count 0. *)
Theorem drawJuliaSet_nan w h centerX centerY radius x y
    (Hx : (x < w)%nat) (Hy : (y < h)%nat)
    (Hnan : PrimFloat.is_nan centerX || PrimFloat.is_nan centerY
              || PrimFloat.is_nan radius = true) :
  exists d,
    drawJuliaSet w h centerX centerY radius
      = Some [PutImageData (mkImageData w h d) 0 0] /\
    pixelAt d w x y = Some (230, 46, 46, 255).
Proof.
  destruct (drawJuliaSet_raster w h centerX centerY radius)
    as (d & Hdraw & _ & Hpix).
  exists d. split; [exact Hdraw|]. rewrite (Hpix x y Hx Hy).
  unfold iterationsAt.
  change 101%nat with (S 100).
  rewrite julia_while_nan by now apply mapped_nan.
  vm_compute. reflexivity.
Qed.

Lemma drawJuliaSet_nan_witness :
  exists d,
    drawJuliaSet 2 2 0 0 nan = Some [PutImageData (mkImageData 2 2 d) 0 0] /\
    pixelAt d 2 1 1 = Some (230, 46, 46, 255).
Proof.
  apply (drawJuliaSet_nan 2 2 0 0 nan 1 1); [lia|lia|reflexivity].
Defined.

(** ** The color of a pixel and its iteration count *)

Lemma iterationsAt_le w h centerX centerY radius x y :
  (iterationsAt w h centerX centerY radius x y <= 100)%nat.
Proof.
  unfold iterationsAt.
  destruct (julia_while_total 101 (fst (mapped w h centerX centerY radius x y))
              (snd (mapped w h centerX centerY radius x y)) 0%nat)
    as (n & Hrun & Hn); [lia|lia|].
  change (Z.of_nat 0) with 0 in Hrun. rewrite Hrun, Nat2Z.id. exact Hn.
Qed.

Lemma colorRule_injective n m :
  (n <= 100)%nat -> (m <= 100)%nat -> colorRule n = colorRule m -> n = m.
Proof.
  intros Hn Hm Heq.
  assert (Hnodup : NoDup (map colorRule (seq 0 101)))
    by (apply (bool_decide_unpack _); vm_compute; exact I).
  assert (Hlookup : forall k, (k <= 100)%nat ->
            map colorRule (seq 0 101) !! k = Some (colorRule k)).
  { intros k Hk. rewrite list_lookup_fmap, lookup_seq_lt by lia. reflexivity. }
  apply Hlookup in Hn, Hm. rewrite Heq in Hn.
  exact (NoDup_lookup _ _ _ _ Hnodup Hn Hm).
Qed.

(** X7.  The image tells the iteration counts: two pixels of a render have the
    same color exactly when their loops ran the same number of times, and
    a pixel is black exactly when its loop ran the full 100. *)
Theorem drawJuliaSet_color_tells_count w h centerX centerY radius x y x' y'
    (Hx : (x < w)%nat) (Hy : (y < h)%nat)
    (Hx' : (x' < w)%nat) (Hy' : (y' < h)%nat) :
  exists d,
    drawJuliaSet w h centerX centerY radius
      = Some [PutImageData (mkImageData w h d) 0 0] /\
    (pixelAt d w x y = pixelAt d w x' y' <->
     iterationsAt w h centerX centerY radius x y
     = iterationsAt w h centerX centerY radius x' y') /\
    (pixelAt d w x y = Some (0, 0, 0, 255) <->
     iterationsAt w h centerX centerY radius x y = 100%nat).
Proof.
  destruct (drawJuliaSet_raster w h centerX centerY radius)
    as (d & Hdraw & _ & Hpix).
  exists d. split; [exact Hdraw|].
  rewrite (Hpix x y Hx Hy), (Hpix x' y' Hx' Hy').
  pose proof (iterationsAt_le w h centerX centerY radius x y) as Hn.
  pose proof (iterationsAt_le w h centerX centerY radius x' y') as Hn'.
  split; split.
  - intros H. apply colorRule_injective; congruence.
  - now intros ->.
  - intros H. apply colorRule_injective; [assumption|lia|].
    change (colorRule 100) with (0, 0, 0, 255). congruence.
  - now intros ->.
Qed.

Lemma drawJuliaSet_color_tells_count_witness :
  exists d,
    drawJuliaSet 2 2 0 0 1 = Some [PutImageData (mkImageData 2 2 d) 0 0] /\
    (pixelAt d 2 0 0 = pixelAt d 2 1 1 <->
     iterationsAt 2 2 0 0 1 0 0 = iterationsAt 2 2 0 0 1 1 1) /\
    (pixelAt d 2 0 0 = Some (0, 0, 0, 255) <->
     iterationsAt 2 2 0 0 1 0 0 = 100%nat).
Proof.
  apply (drawJuliaSet_color_tells_count 2 2 0 0 1 0 0 1 1); lia.
Defined.

(** ** The symmetry of the iteration *)

Lemma SFmul_opp_opp x y : SF64mul (SFopp x) (SFopp y) = SF64mul x y.
Proof.
  destruct x as [sx|sx| |sx mx ex], y as [sy|sy| |sy my ey];
    cbn [SF64mul SFmul SFopp];
    rewrite <- ?negb_xorb_l, <- ?negb_xorb_r, ?negb_involutive;
    reflexivity.
Qed.

Lemma SFmul_opp_r x y : SF64mul x (SFopp y) = SFopp (SF64mul x y).
Proof.
  destruct x as [sx|sx| |sx mx ex], y as [sy|sy| |sy my ey];
    cbn [SF64mul SFmul SFopp]; rewrite <- ?negb_xorb_r; try reflexivity.
  apply binary_round_aux_opp.
Qed.

Lemma mul_opp_opp a b : (- a * - b)%float = (a * b)%float.
Proof.
  apply Prim2SF_inj. now rewrite !mul_spec, !opp_spec, SFmul_opp_opp.
Qed.

Lemma mul_opp_r a b : (a * - b)%float = (- (a * b))%float.
Proof.
  apply Prim2SF_inj. now rewrite mul_spec, !opp_spec, mul_spec, SFmul_opp_r.
Qed.

(** X8.  The iteration [z <- z^2 + c] cannot tell [z] from [-z], in binary64
    as over the reals: the loop started at [(-zx, -zy)] runs exactly as
    long as the loop started at [(zx, zy)]. *)
Theorem julia_while_point_symmetry fuel maxIter zx zy iterations :
  julia_while fuel maxIter (- zx) (- zy) iterations
  = julia_while fuel maxIter zx zy iterations.
Proof.
  destruct fuel as [|fuel]; [reflexivity|].
  rewrite !julia_while_S.
  now rewrite !mul_opp_opp, (mul_opp_r 2 zx), mul_opp_opp.
Qed.

(** ** The thumbnail against the main view *)

Lemma julia_while_ge fuel : forall maxIter zx zy iterations n,
  julia_while fuel maxIter zx zy iterations = Some n -> iterations <= n.
Proof.
  induction fuel as [|fuel IH]; intros maxIter zx zy iterations n;
    [discriminate|].
  rewrite julia_while_S.
  destruct (_ && _).
  - intros H. apply IH in H. lia.
  - intros H. assert (n = iterations) by congruence. lia.
Qed.

(** A loop with a smaller bound stops where the loop with the larger
    bound does, or at its own bound. *)
Lemma julia_while_cap fuel : forall fuel' maxIter maxIter' zx zy iterations n,
  julia_while fuel maxIter zx zy iterations = Some n ->
  maxIter' <= maxIter -> iterations <= maxIter' ->
  (Z.to_nat (maxIter' - iterations) < fuel')%nat ->
  julia_while fuel' maxIter' zx zy iterations = Some (Z.min maxIter' n).
Proof.
  induction fuel as [|fuel IH];
    intros fuel' maxIter maxIter' zx zy iterations n Hrun Hle Hit Hfuel;
    [discriminate|].
  destruct fuel' as [|fuel']; [lia|].
  rewrite julia_while_S in *.
  destruct (zx * zx + zy * zy <? 4)%float; cbn [andb] in *.
  - destruct (Z.ltb_spec iterations maxIter) as [Hlt|Hge].
    + destruct (Z.ltb_spec iterations maxIter') as [Hlt'|Hge'].
      * apply (IH fuel' maxIter); [assumption|lia|lia|lia].
      * apply julia_while_ge in Hrun. f_equal. lia.
    + assert (n = iterations) by congruence. subst n.
      replace (iterations <? maxIter') with false by (symmetry; apply Z.ltb_ge; lia).
      f_equal. lia.
  - assert (n = iterations) by congruence. subst n. f_equal. lia.
Qed.

(** ** A raster painted pixel by pixel *)

(** A double loop whose body stores the four bytes of its pixel leaves
    every pixel with its own bytes. *)
Lemma raster_painted w h (body : nat -> nat -> list Z -> option (list Z))
    (color : nat -> nat -> Z * Z * Z * Z) :
  (forall x y d, body x y d = Some (storePixel ((y * w + x) * 4) (color x y) d)) ->
  exists d,
    for_range w (fun x => for_range h (fun y => body x y))
      (replicate (w * h * 4) 0) = Some d /\
    length d = (w * h * 4)%nat /\
    forall x y, (x < w)%nat -> (y < h)%nat ->
      pixelAt d w x y = Some (color x y).
Proof.
  intros Hbody.
  set (painted := fun (d : list Z) x y => pixelAt d w x y = Some (color x y)).
  set (Inner := fun x y' (d : list Z) =>
         length d = (w * h * 4)%nat /\
         forall x0 y0, (x0 < w)%nat -> (y0 < h)%nat ->
           (x0 < x)%nat \/ (x0 = x /\ (y0 < y')%nat) -> painted d x0 y0).
  set (Outer := fun x' (d : list Z) =>
         length d = (w * h * 4)%nat /\
         forall x0 y0, (x0 < x')%nat -> (y0 < h)%nat -> painted d x0 y0).
  destruct (for_range_invariant Outer w
              (fun x => for_range h (fun y => body x y))
              (replicate (w * h * 4) 0)) as (d & Hrun & Hlen & Hpix).
  - split; [apply length_replicate|]. intros x0 y0 Hx0. lia.
  - intros x d Hxw [Hlen' Hdone'].
    destruct (for_range_invariant (Inner x) h (fun y => body x y) d)
      as (d' & Hrun' & Hlen'' & Hpix').
    + split; [assumption|]. intros x0 y0 Hx0 Hy0 [Hlt|[_ Hlt]]; [|lia].
      now apply Hdone'.
    + intros y d1 Hy [Hl1 Hp1]. rewrite Hbody.
      eexists. split; [reflexivity|]. split.
      * now rewrite length_storePixel.
      * intros x0 y0 Hx0 Hy0 Hcase. unfold painted.
        destruct (decide ((x0, y0) = (x, y))) as [E|E].
        -- assert (x0 = x) as -> by congruence.
           assert (y0 = y) as -> by congruence.
           apply pixelAt_storePixel_same. rewrite Hl1. nia.
        -- rewrite pixelAt_storePixel_other by (assumption || lia).
           apply Hp1; try assumption.
           destruct Hcase as [Hc|[-> Hc]]; [now left|right].
           split; [reflexivity|].
           assert (y0 <> y) by congruence. lia.
    + exists d'. split; [assumption|]. split; [assumption|].
      intros x0 y0 Hx0 Hy0. apply Hpix'; lia.
  - exists d. split; [exact Hrun|]. split; [assumption|].
    intros x y Hx Hy. now apply Hpix.
Qed.

(** ** The Julia thumbnail *)

(** The shades of the thumbnail are bytes: the array stores them
    unchanged. *)
Lemma thumbnailShade_bytes k :
  0 <= k <= 50 ->
  let '(r, g, b) := thumbnailShade k in
  of_Z (toUint8Clamp r) = r /\ of_Z (toUint8Clamp g) = g /\
  of_Z (toUint8Clamp b) = b.
Proof.
  intros Hk.
  assert (Hall : forallb (fun n =>
            let '(r, g, b) := thumbnailShade (Z.of_nat n) in
            Leibniz.eqb (of_Z (toUint8Clamp r)) r
            && Leibniz.eqb (of_Z (toUint8Clamp g)) g
            && Leibniz.eqb (of_Z (toUint8Clamp b)) b) (seq 0 51) = true)
    by (vm_compute; reflexivity).
  rewrite forallb_forall in Hall.
  specialize (Hall (Z.to_nat k)). rewrite Z2Nat.id in Hall by lia.
  specialize (Hall ltac:(apply in_seq; lia)).
  destruct (thumbnailShade k) as [[r g] b].
  apply andb_prop in Hall as [Hall Hb]. apply andb_prop in Hall as [Hr Hg].
  now apply Leibniz.eqb_spec in Hr, Hg, Hb.
Qed.

Lemma thumbnailPixel_store w h x y d :
  thumbnailPixel w h x y d =
  Some (storePixel ((y * w + x) * 4)
          (let '(r, g, b) :=
             thumbnailShade (Z.min 50 (Z.of_nat (iterationsAt w h 0 0 1 x y))) in
           (toUint8Clamp r, toUint8Clamp g, toUint8Clamp b, 255)) d).
Proof.
  unfold thumbnailPixel, iterationsAt, mapped. cbn [fst snd]. cbv zeta.
  rewrite thumbnail_while_julia_while, !pixelToMath_unit. unfold clickToFocus.
  change (Datatypes.S (Z.to_nat 50)) with 51%nat.
  set (zx := ((of_nat x / of_nat w - 0.5) * 4)%float).
  set (zy := ((of_nat y / of_nat h - 0.5) * 4)%float).
  destruct (julia_while_total 101 zx zy 0%nat) as (n & Hrun & Hn); [lia|lia|].
  change (Z.of_nat 0) with 0 in Hrun. rewrite Hrun, Nat2Z.id.
  rewrite (julia_while_cap 101 51 100 50 zx zy 0 (Z.of_nat n) Hrun)
    by (vm_compute; first [discriminate | lia]).
  cbn [mbind option_bind].
  unfold thumbnailShade, storePixel, store.
  change (of_Z 50) with 50%float. reflexivity.
Qed.

(** X9.  The thumbnail is the main view at focus 0 and radius 1 with the
    count capped at 50: a pixel holds, opaque, the yellow shade of the
    smaller of 50 and the count the main generator reaches for it. *)
Theorem generateJuliaThumbnail_pixel w h x y
    (Hx : (x < w)%nat) (Hy : (y < h)%nat) :
  exists d red green blue,
    generateJuliaThumbnail w h = Some [PutImageData (mkImageData w h d) 0 0] /\
    pixelAt d w x y = Some (red, green, blue, 255) /\
    (of_Z red, of_Z green, of_Z blue)
    = thumbnailShade (Z.min 50 (Z.of_nat (iterationsAt w h 0 0 1 x y))).
Proof.
  unfold generateJuliaThumbnail. cbv zeta. cbn [data createImageData].
  destruct (raster_painted w h (thumbnailPixel w h)
              (fun x y =>
                 let '(r, g, b) :=
                   thumbnailShade
                     (Z.min 50 (Z.of_nat (iterationsAt w h 0 0 1 x y))) in
                 (toUint8Clamp r, toUint8Clamp g, toUint8Clamp b, 255))
              (thumbnailPixel_store w h)) as (d & Hrun & _ & Hpix).
  rewrite Hrun. cbn [mbind option_bind]. specialize (Hpix x y Hx Hy).
  pose proof (thumbnailShade_bytes
                (Z.min 50 (Z.of_nat (iterationsAt w h 0 0 1 x y))) ltac:(lia))
    as Hbytes.
  destruct (thumbnailShade _) as [[r g] b]. destruct Hbytes as (Hr & Hg & Hb).
  exists d, (toUint8Clamp r), (toUint8Clamp g), (toUint8Clamp b).
  split; [reflexivity|]. split; [exact Hpix|]. now rewrite Hr, Hg, Hb.
Qed.

Lemma generateJuliaThumbnail_pixel_witness :
  exists d red green blue,
    generateJuliaThumbnail 2 2 = Some [PutImageData (mkImageData 2 2 d) 0 0] /\
    pixelAt d 2 1 1 = Some (red, green, blue, 255) /\
    (of_Z red, of_Z green, of_Z blue)
    = thumbnailShade (Z.min 50 (Z.of_nat (iterationsAt 2 2 0 0 1 1 1))).
Proof.
  apply (generateJuliaThumbnail_pixel 2 2 1 1); lia.
Defined.

(** ** The whole raster *)

(** X10.  The render comes back for every focus and radius, infinities and NaN
    included, with an image of the size of the canvas in which no pixel
    is left unpainted: each one is opaque. *)
Theorem drawJuliaSet_paints_every_pixel w h centerX centerY radius
    (Hw : (0 < w)%nat) (Hh : (0 < h)%nat) :
  exists d,
    drawJuliaSet w h centerX centerY radius
      = Some [PutImageData (mkImageData w h d) 0 0] /\
    length d = (w * h * 4)%nat /\
    forall x y, (x < w)%nat -> (y < h)%nat ->
      exists red green blue, pixelAt d w x y = Some (red, green, blue, 255).
Proof.
  destruct (drawJuliaSet_raster w h centerX centerY radius)
    as (d & Hdraw & Hlen & Hpix).
  exists d. split; [exact Hdraw|]. split; [exact Hlen|].
  intros x y Hx Hy. rewrite (Hpix x y Hx Hy). unfold colorRule.
  destruct (_ =? _)%nat; [now exists 0, 0, 0|].
  destruct (hsbToRgb _ 80 90) as [[r g] b].
  now exists (toUint8Clamp r), (toUint8Clamp g), (toUint8Clamp b).
Qed.

Lemma drawJuliaSet_paints_every_pixel_witness :
  exists d,
    drawJuliaSet 2 3 infinity nan 0 = Some [PutImageData (mkImageData 2 3 d) 0 0] /\
    length d = 24%nat /\
    forall x y, (x < 2)%nat -> (y < 3)%nat ->
      exists red green blue, pixelAt d 2 x y = Some (red, green, blue, 255).
Proof.
  apply (drawJuliaSet_paints_every_pixel 2 3 infinity nan 0); lia.
Defined.

(** ** The edge of the view *)

Lemma div_0_l size :
  (0 < size)%nat -> Z.of_nat size < 2 ^ 1023 ->
  (0 / of_nat size)%float = 0%float.
Proof.
  intros Hpos Hsize.
  destruct (Prim2SF_of_nat size Hsize) as [_ Hfin].
  destruct (Hfin Hpos) as (m & e & Hs).
  apply Prim2SF_inj. now rewrite div_spec, Hs.
Qed.

(** X11.  Pixel 0 is mapped to [center - 2 * radius]: the view is four radii
    wide, and a click at coordinate 0 sets the focus to -2. *)
Theorem pixelToMath_first_pixel center radius size
    (Hpos : (0 < size)%nat) (Hsize : Z.of_nat size < 2 ^ 1023) :
  pixelToMath center radius (of_nat 0) (of_nat size)
    = (center - 2 * radius)%float /\
  clickToFocus (of_nat 0) (of_nat size) = (-2)%float.
Proof.
  unfold pixelToMath, clickToFocus. change (of_nat 0) with 0%float.
  rewrite (div_0_l size Hpos Hsize).
  change ((0 - 0.5) * 4)%float with (- (2))%float.
  split; [|reflexivity].
  now rewrite opp_mul_l, <- sub_add_opp.
Qed.

Lemma pixelToMath_first_pixel_witness :
  pixelToMath 0.5 0.1 (of_nat 0) (of_nat 600) = (0.5 - 2 * 0.1)%float /\
  clickToFocus (of_nat 0) (of_nat 600) = (-2)%float.
Proof.
  apply (pixelToMath_first_pixel 0.5 0.1 600); [lia|].
  apply Z.lt_le_trans with (2 ^ 10); [reflexivity|].
  apply Z.pow_le_mono_r; lia.
Defined.

(** ** The playground *)

Lemma zoomLevels_unpruned zoomLevel :
  (zoomLevel < 5)%nat -> unpruned (100 / zoomRadius zoomLevel) 5 = true.
Proof.
  intros Hz. do 5 (destruct zoomLevel as [|zoomLevel]; [vm_compute; reflexivity|]).
  lia.
Qed.

(** X12.  At each of the five zoom levels and for every focus, a draw comes
    back, paints the canvas black first and then renders the selected
    fractal in full: an image of the size of the canvas for the Julia
    set; all 341 circles of the gasket, each stroked in a path of its own
    (no zoom level meets the radius floor); the star as one path of 512
    segments, stroked once. *)
Theorem drawFractal_renders Math_cos Math_sin w h selectedFractal zoomLevel
    focusPoint (Hw : (0 < w)%nat) (Hh : (0 < h)%nat)
    (Hzoom : (zoomLevel < 5)%nat) :
  exists rendered,
    drawFractal Math_cos Math_sin w h selectedFractal zoomLevel focusPoint
      = Some ([SetFillStyle (CssHex "#000000");
               FillRect 0 0 (of_nat w) (of_nat h)] ++ rendered) /\
    match selectedFractal with
    | julia =>
        exists d, rendered = [PutImageData (mkImageData w h d) 0 0] /\
                  length d = (w * h * 4)%nat
    | apollonian =>
        length (strokedCircles rendered) = 341%nat /\
        strokedCircles rendered = circlesOf rendered /\
        circleCount rendered = 341%nat /\ segmentCount rendered = 0%nat
    | koch =>
        (exists x0 y0 edges,
           rendered = [SetStrokeStyle (CssRgb 230 230 46); SetLineWidth 1;
                       BeginPath; MoveTo x0 y0] ++ edges ++ [Stroke] /\
           length edges = 512%nat /\ forallb is_LineTo edges = true) /\
        segmentCount rendered = 512%nat /\ circleCount rendered = 0%nat
    end.
Proof.
  unfold drawFractal. cbv zeta. destruct selectedFractal.
  - destruct (drawJuliaSet_raster w h (focus_x focusPoint) (focus_y focusPoint)
                (zoomRadius zoomLevel)) as (d & Hdraw & Hlen & _).
    rewrite Hdraw. cbn [mbind option_bind]. eexists. split; [reflexivity|].
    now exists d.
  - cbn [mbind option_bind]. eexists. split; [reflexivity|].
    unfold drawApollonianGasket. cbv zeta.
    set (ops := drawApollonianRecursive _ _ _ 5).
    assert (Hcount : circleCount ops = 341%nat).
    { apply (circleCount_full 5). now apply zoomLevels_unpruned. }
    destruct (strokedCircles_recursive
                (focus_x focusPoint * (300 / zoomRadius zoomLevel) + 300)
                (focus_y focusPoint * (300 / zoomRadius zoomLevel) + 300)
                (100 / zoomRadius zoomLevel) 5) as [Hsame Hlen].
    fold ops in Hsame, Hlen.
    change (strokedCircles (SetLineWidth 1 :: ops)) with (strokedCircles ops).
    change (circlesOf (SetLineWidth 1 :: ops)) with (circlesOf ops).
    split; [now rewrite Hlen|]. split; [exact Hsame|].
    split; [exact Hcount|].
    assert (Hseg : forall n x y r,
              segmentCount (drawApollonianRecursive x y r (Z.of_nat n)) = 0%nat).
    { induction n as [|n IH]; intros x y r; rewrite drawApollonianRecursive_body.
      - reflexivity.
      - destruct (_ || _); [reflexivity|]. cbv zeta.
        destruct (hsbToRgb _ 80 90) as [[red green] blue].
        replace (Z.of_nat (S n) - 1) with (Z.of_nat n) by lia.
        rewrite segmentCount_app. destruct (1 <? _); [|reflexivity].
        now rewrite !segmentCount_app, !IH. }
    apply (Hseg 5%nat).
  - unfold drawKochStar.
    change (hsbToRgb 60 80 90) with (230%float, 230%float, 46%float).
    cbv iota zeta.
    set (vertex := fun i : nat => mkVertex _ _).
    destruct (drawKochStar_edges vertex) as (edges & Hrun & Hlen & Hall & _).
    change (map vertex (seq 0 8) !! 0%nat) with (Some (vertex 0%nat)).
    cbn [mbind option_bind]. rewrite Hrun. cbn [mbind option_bind].
    eexists. split; [reflexivity|]. split; [|split].
    + exists (vx (vertex 0%nat)), (vy (vertex 0%nat)), edges.
      split; [reflexivity|]. split; [exact Hlen|exact Hall].
    + cbn [app]. unfold segmentCount. cbn [List.filter is_LineTo].
      rewrite List.filter_app, length_app.
      rewrite List.forallb_filter_id by exact Hall. rewrite Hlen. reflexivity.
    + cbn [app]. unfold circleCount. cbn [List.filter is_Arc].
      rewrite List.filter_app, length_app. cbn [List.filter is_Arc length].
      clear Hrun Hlen. induction edges as [|op edges IH]; [reflexivity|].
      cbn [forallb] in Hall. apply andb_prop in Hall as [Hop Hall].
      destruct op; try discriminate. cbn [List.filter is_Arc]. now apply IH.
Qed.

Lemma drawFractal_renders_witness :
  exists rendered,
    drawFractal PrimFloat.sqrt PrimFloat.sqrt 600 600 apollonian 4
      (mkFocusPoint 0 0)
      = Some ([SetFillStyle (CssHex "#000000");
               FillRect 0 0 (of_nat 600) (of_nat 600)] ++ rendered) /\
    length (strokedCircles rendered) = 341%nat /\
    strokedCircles rendered = circlesOf rendered /\
    circleCount rendered = 341%nat /\ segmentCount rendered = 0%nat.
Proof.
  apply (drawFractal_renders PrimFloat.sqrt PrimFloat.sqrt 600 600 apollonian 4
           (mkFocusPoint 0 0)); lia.
Defined.

(** * The click handler *)

(** ** Rounding below a power of two *)

Lemma pow2_pred_div a c : 0 <= c <= a -> (2 ^ a - 1) / 2 ^ c = 2 ^ (a - c) - 1.
Proof.
  intros Hc.
  assert (Hsplit : 2 ^ a - 1 = (2 ^ (a - c) - 1) * 2 ^ c + (2 ^ c - 1)).
  { replace a with ((a - c) + c) at 1 by lia. rewrite Z.pow_add_r by lia. lia. }
  rewrite Hsplit, Z.div_add_l by lia.
  rewrite Z.div_small by lia. lia.
Qed.

(** Rounding to nearest does not cross a power of two of the format: a
    number below [2^b] is rounded to [2^b] at most, and keeps its sign. *)
Lemma binary_round_aux_below s M E l b :
  0 <= M -> E <= b -> M < 2 ^ (b - E) ->
  emin <= b <= emax - 1 -> E <= emax - prec ->
  mag_le b (binary_round_aux prec emax s M E l) = true /\
  (s = false -> nonneg (binary_round_aux prec emax s M E l) = true).
Proof.
  intros HM HE Hlt Hb Hmax.
  change emin with (-1074) in *.
  change prec with 53 in *. change emax with 1024 in *.
  destruct (Z.eq_dec M 0) as [->|Hne].
  - destruct (binary_round_aux_steps 53 1024 s 0 E l ltac:(lia))
      as (m2 & Hm2 & ->). cbv zeta in *.
    change (Zdigits2 0) with 0 in *. rewrite Z.div_0_l in Hm2 by lia.
    set (e1 := E + Z.max 0 (SpecFloat.fexp 53 1024 (0 + E) - E)) in *.
    assert (He1 : e1 <= b /\ e1 <= 1024 - 53)
      by (unfold e1, SpecFloat.fexp, SpecFloat.emin in *; lia).
    destruct He1 as [He1 He1max].
    assert (Hcase : m2 = 0 \/ m2 = 1) by lia.
    destruct Hcase as [-> | ->].
    + rewrite Z.div_0_l by lia. split; [reflexivity|]. now intros ->.
    + set (k2 := Z.max 0 _).
      destruct (Z.eq_dec k2 0) as [->|Hk2].
      * rewrite Z.add_0_r. change (1 / 2 ^ 0) with 1.
        replace (e1 <=? 1024 - 53) with true by (symmetry; apply Z.leb_le; lia).
        split; [|now intros ->].
        cbn [mag_le]. apply andb_true_intro. split; [now apply Z.leb_le|].
        apply Z.leb_le. pose proof (Z.pow_pos_nonneg 2 (b - e1)). lia.
      * rewrite Z.div_small; [split; [reflexivity|now intros ->]|].
        split; [lia|]. apply Z.pow_gt_1; lia.
  - destruct (binary_round_aux_spec 53 1024 eq_refl s M E l ltac:(lia))
      as (m3 & e3 & -> & Hm3 & HEe & _ & Hup & _ & Hmag & _).
    change (SpecFloat.emin 53 1024) with (-1074) in *.
    assert (HbE : 0 < b - E).
    { destruct (Z.le_gt_cases (b - E) 0) as [H|H]; [|exact H].
      exfalso. assert (2 ^ (b - E) <= 1); [|lia].
      replace (b - E) with 0 by lia. reflexivity. }
    assert (Hdig : Zdigits2 M <= b - E).
    { rewrite Zdigits2_log2 by lia.
      assert (Z.log2 M < b - E) by (apply Z.log2_lt_pow2; lia). lia. }
    assert (He3 : e3 <= b) by lia.
    assert (Hm3' : m3 <= 2 ^ (b - e3)).
    { assert (M / 2 ^ (e3 - E) <= (2 ^ (b - E) - 1) / 2 ^ (e3 - E))
        by (apply Z.div_le_mono; [apply Z.pow_pos_nonneg|]; lia).
      rewrite pow2_pred_div in H by lia.
      replace (b - E - (e3 - E)) with (b - e3) in H by lia. lia. }
    destruct m3 as [|m3|m3]; [split; [reflexivity|now intros ->]| |lia].
    replace (e3 <=? 1024 - 53) with true by (symmetry; apply Z.leb_le; lia).
    split; [|now intros ->].
    cbn [mag_le]. apply andb_true_intro. split; now apply Z.leb_le.
Qed.

Lemma binary_round_below s m e b :
  Z.pos m < 2 ^ (b - e) -> emin <= b <= emax - 1 -> e <= emax - prec ->
  mag_le b (binary_round prec emax s m e) = true.
Proof.
  intros Hlt Hb Hmax. unfold binary_round.
  pose proof (shl_align_value m e (fexp prec emax (Z.pos (digits2_pos m) + e)))
    as [Hm He].
  destruct (shl_align _ _ _) as [mz ez]. cbn [fst snd] in Hm, He.
  assert (Hbe : 0 < b - e).
  { destruct (Z.le_gt_cases (b - e) 0) as [H|H]; [|exact H].
    exfalso. assert (2 ^ (b - e) <= 1); [|lia].
    destruct (Z.eq_dec (b - e) 0) as [->|]; [reflexivity|].
    rewrite Z.pow_neg_r by lia. lia. }
  apply binary_round_aux_below; [lia|lia| |exact Hb|lia].
  rewrite Hm, <- He.
  replace (b - ez) with ((b - e) + (e - ez)) by lia.
  rewrite Z.pow_add_r by lia.
  apply Z.mul_lt_mono_pos_r; [apply Z.pow_pos_nonneg; lia|exact Hlt].
Qed.

Lemma binary_normalize_below D e b :
  Z.abs D < 2 ^ (b - e) -> emin <= b <= emax - 1 -> e <= emax - prec ->
  mag_le b (binary_normalize prec emax D e false) = true.
Proof.
  intros Hlt Hb Hmax. destruct D as [|m|m]; cbn [binary_normalize];
    [reflexivity| |]; now apply binary_round_below.
Qed.

(** A number of the format of magnitude exactly [2^b]. *)
Lemma mag_le_cases b s m e :
  valid_binary (S754_finite s m e) = true -> emin + prec - 1 <= b ->
  mag_le b (S754_finite s m e) = true ->
  Z.pos m < 2 ^ (b - e) \/ (m = 4503599627370496%positive /\ e = b - 52).
Proof.
  intros Hvalid Hb Hmag. cbn [mag_le] in Hmag.
  apply andb_prop in Hmag as [He Hm]. apply Z.leb_le in He, Hm.
  destruct (Z.eq_dec (Z.pos m) (2 ^ (b - e))) as [Heq|Hne]; [right|left; lia].
  apply valid_canonical in Hvalid as [Hcanon _].
  rewrite digits2_log2, Heq, Z.log2_pow2 in Hcanon by lia.
  change emin with (-1074) in *.
  change prec with 53 in *. change emax with 1024 in *.
  unfold SpecFloat.fexp, SpecFloat.emin in Hcanon.
  assert (e = b - 52) by lia. subst e. split; [|reflexivity].
  replace (b - (b - 52)) with 52 in Heq by lia.
  apply Pos2Z.inj. exact Heq.
Qed.

(** ** The quotient of a number by a larger one *)

Lemma valid_mantissa_bounds s m e :
  valid_binary (S754_finite s m e) = true ->
  Z.pos m < 2 ^ 53 /\ (emin < e -> 2 ^ 52 <= Z.pos m) /\ emin <= e.
Proof.
  intros Hvalid. pose proof (valid_digits _ _ _ Hvalid) as [Hdig [Hmin _]].
  apply valid_canonical in Hvalid as [Hcanon _].
  rewrite digits2_log2 in *.
  change emin with (-1074) in *.
  change prec with 53 in *. change emax with 1024 in *.
  unfold SpecFloat.fexp, SpecFloat.emin in Hcanon.
  pose proof (Z.log2_spec (Z.pos m) ltac:(lia)) as [Hlo Hhi].
  split; [|split; [|exact Hmin]].
  - apply Z.lt_le_trans with (2 ^ Z.succ (Z.log2 (Z.pos m))); [exact Hhi|].
    apply Z.pow_le_mono_r; lia.
  - intros He. apply Z.le_trans with (2 ^ Z.log2 (Z.pos m)); [|exact Hlo].
    apply Z.pow_le_mono_r; lia.
Qed.

(** A non-negative number divided by a larger one is between 0 and 1. *)
Lemma SFdiv_below_one m1 e1 m2 e2 :
  valid_binary (S754_finite false m1 e1) = true ->
  valid_binary (S754_finite false m2 e2) = true ->
  e1 < e2 \/ (e1 = e2 /\ Z.pos m1 < Z.pos m2) ->
  mag_le 0 (SF64div (S754_finite false m1 e1) (S754_finite false m2 e2)) = true /\
  nonneg (SF64div (S754_finite false m1 e1) (S754_finite false m2 e2)) = true.
Proof.
  intros V1 V2 Hlt.
  apply valid_mantissa_bounds in V1 as (H1 & _ & Hmin1).
  apply valid_mantissa_bounds in V2 as (_ & H2 & _).
  unfold SF64div, SFdiv, SFdiv_core_binary. cbv zeta.
  set (e' := Z.min _ (e1 - e2)).
  assert (He' : e' <= e1 - e2) by (unfold e'; lia).
  set (m' := match e1 - e2 - e' with Z.pos _ => _ | Z0 => _ | Z.neg _ => _ end).
  assert (Hm' : m' = Z.pos m1 * 2 ^ (e1 - e2 - e')).
  { unfold m'. destruct (e1 - e2 - e') as [|k|k] eqn:E; [lia| |lia].
    now rewrite Z.shiftl_mul_pow2 by lia. }
  assert (Hbound : m' < Z.pos m2 * 2 ^ (- e')).
  { rewrite Hm'. destruct Hlt as [Hlt|[-> Hlt]].
    - replace (- e') with ((e1 - e2 - e') + (e2 - e1)) by lia.
      rewrite Z.pow_add_r by lia.
      assert (2 <= 2 ^ (e2 - e1)).
      { change 2 with (2 ^ 1) at 1. apply Z.pow_le_mono_r; lia. }
      specialize (H2 ltac:(lia)).
      assert (0 < 2 ^ (e1 - e2 - e')) by (apply Z.pow_pos_nonneg; lia).
      change (2 ^ 53) with 9007199254740992 in H1.
      change (2 ^ 52) with 4503599627370496 in H2.
      generalize dependent (2 ^ (e1 - e2 - e')).
      generalize dependent (2 ^ (e2 - e1)). intros Q HQ P _ HP.
      apply Z.lt_le_trans with (9007199254740992 * P); [nia|].
      apply Z.le_trans with (Z.pos m2 * (P * 2)); nia.
    - replace (e2 - e2 - e') with (- e') by lia.
      apply Z.mul_lt_mono_pos_r; [apply Z.pow_pos_nonneg; lia|exact Hlt]. }
  assert (Hq : 0 <= m' / Z.pos m2 < 2 ^ (0 - e')).
  { split.
    - apply Z.div_pos; [|lia]. rewrite Hm'.
      assert (0 <= 2 ^ (e1 - e2 - e')) by (apply Z.pow_nonneg; lia). lia.
    - apply Z.div_lt_upper_bound; [lia|]. now rewrite Z.sub_0_l. }
  unfold Z.div in Hq. destruct (Z.div_eucl m' (Z.pos m2)) as [q r].
  cbn [fst] in Hq. cbn [xorb].
  destruct (binary_round_aux_below false q e'
              (new_location (Z.pos m2) r) 0)
    as [Hmag Hsign];
    [lia|lia|lia|vm_compute; split; discriminate|change (emax - prec) with 971; lia|].
  split; [exact Hmag|now apply Hsign].
Qed.

(** A number divided by itself is 1. *)
Lemma SFdiv_same s m e :
  SF64div (S754_finite s m e) (S754_finite s m e)
  = S754_finite false 4503599627370496 (-52).
Proof.
  unfold SF64div, SFdiv, SFdiv_core_binary. cbv zeta.
  rewrite !Z.sub_diag. rewrite xorb_nilpotent.
  change (Z.min (fexp prec emax 0) 0) with (-53).
  change (0 - -53) with 53.
  assert (Hdiv : Z.shiftl (Z.pos m) 53 / Z.pos m = 2 ^ 53 /\
                 Z.shiftl (Z.pos m) 53 mod Z.pos m = 0).
  { rewrite Z.shiftl_mul_pow2, Z.mul_comm by lia.
    now rewrite Z.div_mul, Z.mod_mul by lia. }
  unfold Z.div, Z.modulo in Hdiv.
  destruct (Z.div_eucl (Z.shiftl (Z.pos m) 53) (Z.pos m)) as [q r].
  cbn [fst snd] in Hdiv. destruct Hdiv as [-> ->].
  assert (Hloc : new_location (Z.pos m) 0 = loc_Exact).
  { unfold new_location. now destruct (Z.even (Z.pos m)). }
  rewrite Hloc. vm_compute. reflexivity.
Qed.

(** One half taken from a number between 0 and 1 is between -1/2 and
    1/2. *)
Lemma SFsub_half_unit v :
  valid_binary v = true -> nonneg v = true -> mag_le 0 v = true ->
  mag_le (-1) (SF64sub v (S754_finite false 4503599627370496 (-53))) = true.
Proof.
  intros Hvalid Hsign Hmag.
  destruct v as [[]| | |[] mv ev]; try discriminate; [reflexivity|].
  destruct (mag_le_cases 0 false mv ev Hvalid ltac:(vm_compute; discriminate) Hmag)
    as [Hlt|[-> ->]]; [|vm_compute; reflexivity].
  unfold SF64sub, SFsub. cbv zeta.
  set (ez := Z.min ev (-53)).
  destruct (shl_align_value mv ev ez) as [-> _].
  destruct (shl_align_value 4503599627370496 (-53) ez) as [-> _].
  replace (Z.min ev ez) with ez by lia.
  replace (Z.min (-53) ez) with ez by lia.
  cbn [cond_Zopp].
  apply binary_normalize_below;
    [|vm_compute; split; discriminate|change (emax - prec) with 971; lia].
  assert (Hev : ev < 0).
  { destruct (Z.le_gt_cases 0 ev) as [H|H]; [|exact H]. exfalso.
    assert (2 ^ (0 - ev) <= 1); [|lia].
    destruct (Z.eq_dec ev 0) as [->|]; [reflexivity|].
    rewrite Z.pow_neg_r by lia. lia. }
  change 4503599627370496 with (2 ^ 52).
  rewrite <- Z.pow_add_r by lia.
  replace (52 + (-53 - ez)) with (-1 - ez) by lia.
  assert (HA : 0 < Z.pos mv * 2 ^ (ev - ez) < 2 ^ (- ez)).
  { assert (0 < 2 ^ (ev - ez)) by (apply Z.pow_pos_nonneg; lia).
    split; [lia|].
    replace (- ez) with ((0 - ev) + (ev - ez)) by lia.
    rewrite Z.pow_add_r by lia.
    apply Z.mul_lt_mono_pos_r; assumption. }
  replace (- ez) with (1 + (-1 - ez)) in HA by lia.
  rewrite Z.pow_add_r in HA by lia. change (2 ^ 1) with 2 in HA.
  lia.
Qed.

(** Four times a number between -1/2 and 1/2 is between -2 and 2. *)
Lemma SFmul_four_unit u :
  valid_binary u = true -> mag_le (-1) u = true ->
  mag_le 1 (SF64mul u (S754_finite false 4503599627370496 (-50))) = true.
Proof.
  intros Hvalid Hmag.
  destruct u as [s| | |s mu eu]; try discriminate; [reflexivity|].
  destruct (mag_le_cases (-1) s mu eu Hvalid ltac:(vm_compute; discriminate) Hmag)
    as [Hlt|[-> ->]]; [|now destruct s].
  unfold SF64mul, SFmul.
  apply binary_round_aux_below; [lia| | |vm_compute; split; discriminate|].
  - destruct (Z.le_gt_cases (-1 - eu) 0) as [H|H]; [|lia]. exfalso.
    assert (2 ^ (-1 - eu) <= 1); [|lia].
    destruct (Z.eq_dec (-1 - eu) 0) as [->|]; [reflexivity|].
    rewrite Z.pow_neg_r by lia. lia.
  - assert (Heu : 0 < -1 - eu).
    { destruct (Z.le_gt_cases (-1 - eu) 0) as [H|H]; [|lia]. exfalso.
      assert (2 ^ (-1 - eu) <= 1); [|lia].
      destruct (Z.eq_dec (-1 - eu) 0) as [->|]; [reflexivity|].
      rewrite Z.pow_neg_r by lia. lia. }
    rewrite Pos2Z.inj_mul. change (Z.pos 4503599627370496) with (2 ^ 52).
    replace (1 - (eu + -50)) with ((-1 - eu) + 52) by lia.
    rewrite Z.pow_add_r by lia.
    apply Z.mul_lt_mono_pos_r; [reflexivity|exact Hlt].
  - apply valid_digits in Hvalid. change (emax - prec) with 971 in *. lia.
Qed.

(** A number of the format of magnitude at most 2, in the order of the
    numbers. *)
Lemma mag_le_two w :
  valid_binary (Prim2SF w) = true -> mag_le 1 (Prim2SF w) = true ->
  PrimFloat.is_finite w = true /\
  (-2 <=? w)%float = true /\ (w <=? 2)%float = true.
Proof.
  intros Hvalid Hmag.
  assert (Hfin : PrimFloat.is_finite w = true).
  { unfold PrimFloat.is_finite, PrimFloat.is_infinity, PrimFloat.is_nan.
    rewrite !FloatAxioms.eqb_spec, abs_spec.
    change (Prim2SF infinity) with (S754_infinity false).
    destruct (Prim2SF w) as [s|s| |s m e]; try discriminate; try reflexivity.
    unfold SFeqb. cbn. rewrite Z.compare_refl, Pos.compare_cont_refl.
    now destruct s. }
  split; [exact Hfin|].
  rewrite !leb_key.
  change (Prim2SF 2) with (S754_finite false 4503599627370496 (-51)).
  change (Prim2SF (-2)) with (S754_finite true 4503599627370496 (-51)).
  destruct (Prim2SF w) as [s|s| |s m e]; try discriminate; [now destruct s|].
  pose proof (valid_mantissa_bounds _ _ _ Hvalid) as (Hm1 & Hm2 & Hmin).
  cbn [mag_le] in Hmag. apply andb_prop in Hmag as [He Hm].
  apply Z.leb_le in He, Hm.
  change emin with (-1074) in *.
  assert (Hcase : e < -51 \/ (e = -51 /\ Z.pos m <= 4503599627370496)).
  { destruct (Z.lt_trichotomy e (-51)) as [H|[H|H]]; [now left|right|exfalso].
    - subst e. split; [reflexivity|exact Hm].
    - specialize (Hm2 ltac:(lia)).
      assert (2 ^ (1 - e) <= 2 ^ 51) by (apply Z.pow_le_mono_r; lia).
      change (2 ^ 52) with (2 * 2 ^ 51) in Hm2.
      assert (0 < 2 ^ 51) by reflexivity. lia. }
  destruct s; cbv beta iota delta [key key_compare lex_compare is_le].
  - split; [|reflexivity].
    destruct (Z.compare_spec (-1) (-1)); try lia.
    destruct (Z.compare_spec (- -51) (- e)); try lia; try reflexivity.
    destruct (Z.compare_spec (Z.neg 4503599627370496) (Z.neg m));
      try lia; reflexivity.
  - split; [reflexivity|].
    destruct (Z.compare_spec 1 1); try lia.
    destruct (Z.compare_spec e (-51)); try lia; try reflexivity.
    destruct (Z.compare_spec (Z.pos m) 4503599627370496);
      try lia; reflexivity.
Qed.

(** ** A quotient between 0 and 1 *)

(** A number between 0 and a positive finite number, divided by it, is
    between 0 and 1. *)
Lemma div_unit p size :
  PrimFloat.is_finite size = true -> (0 <? size)%float = true ->
  (0 <=? p)%float = true -> (p <=? size)%float = true ->
  mag_le 0 (Prim2SF (p / size)) = true /\
  (Prim2SF (p / size) = S754_zero true \/ nonneg (Prim2SF (p / size)) = true).
Proof.
  intros Hfin Hpos Hlo Hhi.
  destruct (positive_finite size Hfin Hpos) as (m2 & e2 & Hs).
  pose proof (Prim2SF_valid size) as Vs. rewrite Hs in Vs.
  pose proof (Prim2SF_valid p) as Vp.
  rewrite div_spec. rewrite leb_key in Hlo, Hhi. rewrite Hs in *.
  change (Prim2SF 0) with (S754_zero false) in Hlo.
  destruct (Prim2SF p) as [sp|sp| |sp m1 e1]; try discriminate.
  - destruct sp; split; auto.
  - now destruct sp.
  - destruct sp; [discriminate|].
    assert (Hcase : (e1 = e2 /\ m1 = m2) \/
                    (e1 < e2 \/ (e1 = e2 /\ Z.pos m1 < Z.pos m2))).
    { revert Hhi. cbv beta iota delta [key key_compare lex_compare is_le].
      destruct (Z.compare_spec 1 1); try lia.
      destruct (Z.compare_spec e1 e2); try discriminate; [|now right; left].
      destruct (Z.compare_spec (Z.pos m1) (Z.pos m2)); try discriminate; intros _.
      - left. split; [assumption|]. now apply Pos2Z.inj.
      - right. right. now split. }
    destruct Hcase as [[-> ->]|Hlt].
    + rewrite SFdiv_same. split; [reflexivity|now right].
    + destruct (SFdiv_below_one m1 e1 m2 e2 Vp Vs Hlt) as [Hmag Hsign].
      split; [exact Hmag|now right].
Qed.

(** ** A click on the canvas *)

Lemma clickToFocus_range p size :
  PrimFloat.is_finite size = true -> (0 <? size)%float = true ->
  (0 <=? p)%float = true -> (p <=? size)%float = true ->
  PrimFloat.is_finite (clickToFocus p size) = true /\
  (-2 <=? clickToFocus p size)%float = true /\
  (clickToFocus p size <=? 2)%float = true.
Proof.
  intros Hfin Hpos Hlo Hhi. unfold clickToFocus.
  destruct (div_unit p size Hfin Hpos Hlo Hhi) as [Hmag Hsign].
  pose proof (Prim2SF_valid (p / size)) as Vv.
  pose proof (Prim2SF_valid (p / size - 0.5)) as Vu.
  pose proof (Prim2SF_valid ((p / size - 0.5) * 4)) as Vw.
  apply mag_le_two; [exact Vw|].
  rewrite mul_spec in *. rewrite sub_spec in *.
  change (Prim2SF 4) with (S754_finite false 4503599627370496 (-50)) in *.
  change (Prim2SF 0.5) with (S754_finite false 4503599627370496 (-53)) in *.
  apply SFmul_four_unit; [exact Vu|].
  destruct Hsign as [->|Hsign]; [reflexivity|].
  now apply SFsub_half_unit.
Qed.

Lemma of_nat_positive n :
  (0 < n)%nat -> Z.of_nat n < 2 ^ 1023 ->
  PrimFloat.is_finite (of_nat n) = true /\ (0 <? of_nat n)%float = true.
Proof.
  intros Hpos Hn.
  destruct (Prim2SF_of_nat n Hn) as [_ Hfin].
  destruct (Hfin Hpos) as (m & e & Hs). split.
  - unfold PrimFloat.is_finite, PrimFloat.is_infinity, PrimFloat.is_nan.
    rewrite !FloatAxioms.eqb_spec, abs_spec, Hs. unfold SFeqb. cbn.
    now rewrite Z.compare_refl, Pos.compare_cont_refl.
  - now rewrite ltb_spec, Hs.
Qed.

(** X13.  A click inside the canvas sets a focus inside the square
    [[-2, 2] x [-2, 2]]: both coordinates are finite numbers between -2
    and 2. *)
Theorem handleCanvasClick_in_view clientX clientY rectLeft rectTop w h
    (Hw : (0 < w)%nat) (Hh : (0 < h)%nat)
    (Hwidth : Z.of_nat w < 2 ^ 1023) (Hheight : Z.of_nat h < 2 ^ 1023)
    (Hleft : (0 <=? clientX - rectLeft)%float = true)
    (Hright : (clientX - rectLeft <=? of_nat w)%float = true)
    (Htop : (0 <=? clientY - rectTop)%float = true)
    (Hbottom : (clientY - rectTop <=? of_nat h)%float = true) :
  let focus := handleCanvasClick clientX clientY rectLeft rectTop w h in
  (PrimFloat.is_finite (focus_x focus) = true /\
   (-2 <=? focus_x focus)%float = true /\ (focus_x focus <=? 2)%float = true) /\
  (PrimFloat.is_finite (focus_y focus) = true /\
   (-2 <=? focus_y focus)%float = true /\ (focus_y focus <=? 2)%float = true).
Proof.
  intros focus. unfold focus, handleCanvasClick. cbv zeta. cbn [focus_x focus_y].
  destruct (of_nat_positive w Hw Hwidth) as [Fw Pw].
  destruct (of_nat_positive h Hh Hheight) as [Fh Ph].
  split; now apply clickToFocus_range.
Qed.

Lemma handleCanvasClick_in_view_witness :
  let focus := handleCanvasClick 450 130 100 30 600 600 in
  (PrimFloat.is_finite (focus_x focus) = true /\
   (-2 <=? focus_x focus)%float = true /\ (focus_x focus <=? 2)%float = true) /\
  (PrimFloat.is_finite (focus_y focus) = true /\
   (-2 <=? focus_y focus)%float = true /\ (focus_y focus <=? 2)%float = true).
Proof.
  assert (Hbig : 600 < 2 ^ 1023).
  { apply Z.lt_le_trans with (2 ^ 10); [reflexivity|].
    apply Z.pow_le_mono_r; lia. }
  apply (handleCanvasClick_in_view 450 130 100 30 600 600);
    first [lia | exact Hbig | reflexivity].
Defined.

Lemma zoomRadius_positive zoomLevel :
  (zoomLevel < 5)%nat ->
  PrimFloat.is_finite (zoomRadius zoomLevel) = true /\
  (0 <? zoomRadius zoomLevel)%float = true.
Proof.
  intros Hz.
  do 5 (destruct zoomLevel as [|zoomLevel]; [split; reflexivity|]). lia.
Qed.

(** X14.  Click, then draw: from a focus set by a click inside the canvas, at
    each of the five zoom levels, the Julia render is made of numbers
    only; every pixel is iterated to its escape count and painted by the
    color rule. *)
Theorem click_then_drawJuliaSet Math_cos Math_sin clientX clientY rectLeft
    rectTop w h zoomLevel x y
    (Hx : (x < w)%nat) (Hy : (y < h)%nat)
    (Hwidth : Z.of_nat w < 2 ^ 32) (Hheight : Z.of_nat h < 2 ^ 32)
    (Hleft : (0 <=? clientX - rectLeft)%float = true)
    (Hright : (clientX - rectLeft <=? of_nat w)%float = true)
    (Htop : (0 <=? clientY - rectTop)%float = true)
    (Hbottom : (clientY - rectTop <=? of_nat h)%float = true)
    (Hzoom : (zoomLevel < 5)%nat) :
  let focus := handleCanvasClick clientX clientY rectLeft rectTop w h in
  let radius := zoomRadius zoomLevel in
  let zx := (focus_x focus + (of_nat x / of_nat w - 0.5) * 4 * radius)%float in
  let zy := (focus_y focus + (of_nat y / of_nat h - 0.5) * 4 * radius)%float in
  exists d n red green blue,
    drawFractal Math_cos Math_sin w h julia zoomLevel focus
      = Some [SetFillStyle (CssHex "#000000");
              FillRect 0 0 (of_nat w) (of_nat h);
              PutImageData (mkImageData w h d) 0 0] /\
    escapeCount (zx, zy) n /\
    pixelAt d w x y = Some (red, green, blue, 255) /\
    (n = 100%nat -> (red, green, blue) = (0, 0, 0)) /\
    (n <> 100%nat ->
       (of_Z red, of_Z green, of_Z blue)
       = hsbToRgb (of_nat n / 100 * 300) 80 90).
Proof.
  intros focus radius zx zy.
  assert (Hbig : 2 ^ 32 < 2 ^ 1023) by (apply Z.pow_lt_mono_r; lia).
  destruct (of_nat_positive w ltac:(lia) ltac:(lia)) as [Fw Pw].
  destruct (of_nat_positive h ltac:(lia) ltac:(lia)) as [Fh Ph].
  destruct (clickToFocus_range _ _ Fw Pw Hleft Hright) as [Fx _].
  destruct (clickToFocus_range _ _ Fh Ph Htop Hbottom) as [Fy _].
  change (PrimFloat.is_finite (focus_x focus) = true) in Fx.
  change (PrimFloat.is_finite (focus_y focus) = true) in Fy.
  destruct (zoomRadius_positive zoomLevel Hzoom) as [Fr Pr]. fold radius in Fr, Pr.
  destruct (drawJuliaSet_pixel_number w h (focus_x focus) (focus_y focus) radius
              x y Hx Hy) as (d & n & red & green & blue & Hdraw & Hrest).
  - now apply (pixelToMath_number (focus_x focus) radius x w).
  - now apply (pixelToMath_number (focus_y focus) radius y h).
  - exists d, n, red, green, blue. split; [|exact Hrest].
    unfold drawFractal. cbv zeta. fold radius. rewrite Hdraw. reflexivity.
Qed.

Lemma click_then_drawJuliaSet_witness :
  let focus := handleCanvasClick 3 1 0 0 4 4 in
  let radius := zoomRadius 2 in
  let zx := (focus_x focus + (of_nat 1 / of_nat 4 - 0.5) * 4 * radius)%float in
  let zy := (focus_y focus + (of_nat 2 / of_nat 4 - 0.5) * 4 * radius)%float in
  exists d n red green blue,
    drawFractal PrimFloat.sqrt PrimFloat.sqrt 4 4 julia 2 focus
      = Some [SetFillStyle (CssHex "#000000");
              FillRect 0 0 (of_nat 4) (of_nat 4);
              PutImageData (mkImageData 4 4 d) 0 0] /\
    escapeCount (zx, zy) n /\
    pixelAt d 4 1 2 = Some (red, green, blue, 255) /\
    (n = 100%nat -> (red, green, blue) = (0, 0, 0)) /\
    (n <> 100%nat ->
       (of_Z red, of_Z green, of_Z blue)
       = hsbToRgb (of_nat n / 100 * 300) 80 90).
Proof.
  apply (click_then_drawJuliaSet PrimFloat.sqrt PrimFloat.sqrt 3 1 0 0 4 4 2 1 2);
    first [lia | reflexivity].
Defined.

(** * The color model, for every hue *)

(** ** Magnitudes through the operations of the color model *)

Lemma mag_le_fin b x : mag_le b x = true -> is_fin x = true.
Proof. now destruct x. Qed.

Lemma mag_le_mono b b' x : b <= b' -> mag_le b x = true -> mag_le b' x = true.
Proof.
  intros Hb. destruct x as [s|s| |s m e]; try discriminate; [reflexivity|].
  cbn [mag_le]. intros H. apply andb_prop in H as [He Hm].
  apply Z.leb_le in He, Hm. apply andb_true_intro.
  split; apply Z.leb_le; [lia|].
  apply Z.le_trans with (2 ^ (b - e)); [exact Hm|].
  apply Z.pow_le_mono_r; lia.
Qed.

(** A finite number divided by a number of magnitude 2 or more is
    finite. *)
Lemma SFdiv_fin_by x s2 m2 e2 :
  valid_binary x = true -> is_fin x = true ->
  2 <= Z.pos (digits2_pos m2) + e2 ->
  is_fin (SF64div x (S754_finite s2 m2 e2)) = true.
Proof.
  intros Hvalid Hfin Hbig.
  destruct x as [s1|s1| |s1 m1 e1]; try discriminate; [reflexivity|].
  pose proof (valid_digits _ _ _ Hvalid) as [Hd1 [_ He1]].
  change prec with 53 in Hd1. change (emax - prec) with 971 in He1.
  unfold SF64div, SFdiv, SFdiv_core_binary. cbv zeta. cbn [Zdigits2].
  set (D := Z.pos (digits2_pos m1) + e1 - (Z.pos (digits2_pos m2) + e2)).
  set (e' := Z.min _ (e1 - e2)).
  assert (He' : e' <= e1 - e2 /\ e' <= 969).
  { unfold e', fexp, SpecFloat.emin.
    change prec with 53. change emax with 1024. unfold D. lia. }
  set (m' := match e1 - e2 - e' with Z.pos _ => _ | Z0 => _ | Z.neg _ => _ end).
  assert (Hm' : m' = Z.pos m1 * 2 ^ (e1 - e2 - e')).
  { unfold m'. destruct (e1 - e2 - e') as [|k|k] eqn:E; [lia| |lia].
    now rewrite Z.shiftl_mul_pow2 by lia. }
  assert (Hq : 0 <= m' / Z.pos m2 < 2 ^ (1023 - e')).
  { assert (HP : 0 < 2 ^ (e1 - e2 - e')) by (apply Z.pow_pos_nonneg; lia).
    split; [apply Z.div_pos; lia|].
    apply Z.div_lt_upper_bound; [lia|].
    pose proof (Z.log2_spec (Z.pos m1) ltac:(lia)) as [_ H1].
    pose proof (Z.log2_spec (Z.pos m2) ltac:(lia)) as [H2 _].
    rewrite digits2_log2 in *.
    apply Z.lt_le_trans
      with (2 ^ Z.succ (Z.log2 (Z.pos m1)) * 2 ^ (e1 - e2 - e')); [nia|].
    apply Z.le_trans with (2 ^ Z.log2 (Z.pos m2) * 2 ^ (1023 - e'));
      [|apply Z.mul_le_mono_nonneg_r; [apply Z.pow_nonneg|]; lia].
    rewrite <- !Z.pow_add_r by (pose proof (Z.log2_nonneg (Z.pos m1));
                                pose proof (Z.log2_nonneg (Z.pos m2)); lia).
    apply Z.pow_le_mono_r; [lia|]. unfold D in *. lia. }
  unfold Z.div in Hq. destruct (Z.div_eucl m' (Z.pos m2)) as [q r].
  cbn [fst] in Hq.
  apply (mag_le_fin 1023).
  apply binary_round_aux_below;
    [lia|lia|lia|vm_compute; split; discriminate
    |change (emax - prec) with 971; lia].
Qed.

(** The difference of two numbers of magnitude at most [2^b]. *)
Lemma SFsub_mag b x y :
  valid_binary x = true -> valid_binary y = true ->
  mag_le b x = true -> mag_le b y = true ->
  emin <= b + 2 <= emax - 1 ->
  mag_le (b + 2) (SF64sub x y) = true.
Proof.
  intros Vx Vy Hx Hy Hb.
  destruct x as [sx|sx| |sx mx ex], y as [sy|sy| |sy my ey];
    try discriminate.
  - now destruct sx, sy.
  - apply (mag_le_mono b); [lia|exact Hy].
  - apply (mag_le_mono b); [lia|exact Hx].
  - pose proof (valid_digits _ _ _ Vx) as [_ [_ Hex]].
    unfold SF64sub, SFsub. cbv zeta.
    set (ez := Z.min ex ey).
    destruct (shl_align_value mx ex ez) as [-> _].
    destruct (shl_align_value my ey ez) as [-> _].
    replace (Z.min ex ez) with ez by lia.
    replace (Z.min ey ez) with ez by lia.
    apply binary_normalize_below; [|exact Hb|lia].
    cbn [mag_le] in Hx, Hy.
    apply andb_prop in Hx as [Hxe Hxm]. apply andb_prop in Hy as [Hye Hym].
    apply Z.leb_le in Hxe, Hxm, Hye, Hym.
    assert (HA : 0 < Z.pos mx * 2 ^ (ex - ez) <= 2 ^ (b - ez)).
    { assert (0 < 2 ^ (ex - ez)) by (apply Z.pow_pos_nonneg; lia).
      split; [lia|].
      replace (b - ez) with ((b - ex) + (ex - ez)) by lia.
      rewrite Z.pow_add_r by lia. apply Z.mul_le_mono_nonneg_r; lia. }
    assert (HB : 0 < Z.pos my * 2 ^ (ey - ez) <= 2 ^ (b - ez)).
    { assert (0 < 2 ^ (ey - ez)) by (apply Z.pow_pos_nonneg; lia).
      split; [lia|].
      replace (b - ez) with ((b - ey) + (ey - ez)) by lia.
      rewrite Z.pow_add_r by lia. apply Z.mul_le_mono_nonneg_r; lia. }
    replace (b + 2 - ez) with (2 + (b - ez)) by lia.
    rewrite Z.pow_add_r by lia. change (2 ^ 2) with 4.
    destruct sx, sy; cbn [cond_Zopp]; lia.
Qed.

Lemma SFabs_mag b x : mag_le b x = true -> mag_le b (SFabs x) = true.
Proof. now destruct x. Qed.

Lemma SFabs_valid x : valid_binary x = true -> valid_binary (SFabs x) = true.
Proof. now destruct x. Qed.

(** ** The remainder *)

(** The remainder by 2 of a finite number is a number of magnitude at
    most 2. *)
Lemma rem_two_mag u :
  is_fin (Prim2SF u) = true -> mag_le 1 (Prim2SF (rem u 2)) = true.
Proof.
  intros Hfin. pose proof (Prim2SF_valid u) as Hvalid. unfold rem.
  change (Prim2SF 2) with (S754_finite false 4503599627370496 (-51)).
  destruct (Prim2SF u) as [s|s| |s m e] eqn:Hu; try discriminate.
  - now rewrite Hu.
  - pose proof (valid_digits _ _ _ Hvalid) as [_ [Hmin Hmax]].
    change (emax - prec) with 971 in Hmax.
    set (e0 := Z.min e (-51)).
    set (r := Z.rem _ _).
    destruct (Z.eqb_spec r 0) as [_|Hne]; [now destruct s|].
    assert (Hr : Z.abs r < 2 ^ (1 - e0)).
    { pose proof (Z.rem_bound_abs (Z.pos m * 2 ^ (e - e0))
                    (4503599627370496 * 2 ^ (-51 - e0))) as Hbound.
      assert (0 < 2 ^ (-51 - e0)) by (apply Z.pow_pos_nonneg; lia).
      fold r in Hbound. specialize (Hbound ltac:(lia)).
      replace (1 - e0) with (52 + (-51 - e0)) by lia.
      rewrite Z.pow_add_r by lia. change (2 ^ 52) with 4503599627370496.
      lia. }
    assert (Hnorm : forall D, D <> 0 -> Z.abs D < 2 ^ (1 - e0) ->
              mag_le 1 (Prim2SF (SF2Prim (binary_normalize prec emax D e0 false)))
              = true).
    { intros D HD HDr. rewrite Prim2SF_SF2Prim.
      - apply binary_normalize_below;
          [exact HDr|vm_compute; split; discriminate
          |change (emax - prec) with 971; lia].
      - destruct D as [|p|p]; [lia| |]; cbn [binary_normalize];
          apply binary_round_spec. }
    destruct s; apply Hnorm; lia.
Qed.

(** For a finite hue, the factor [1 - |(h / 60) % 2 - 1|] is finite. *)
Lemma hue_factor_fin h :
  PrimFloat.is_finite h = true ->
  is_fin (Prim2SF (1 - Math_abs (rem (h / 60) 2 - 1))%float) = true.
Proof.
  intros Hh. apply is_finite_fin in Hh.
  assert (Hu : is_fin (Prim2SF (h / 60)) = true).
  { rewrite div_spec.
    change (Prim2SF 60) with (S754_finite false 8444249301319680 (-47)).
    apply SFdiv_fin_by; [apply Prim2SF_valid|exact Hh|vm_compute; discriminate]. }
  pose proof (rem_two_mag _ Hu) as Hr.
  pose proof (Prim2SF_valid (rem (h / 60) 2)) as Vr.
  pose proof (Prim2SF_valid (rem (h / 60) 2 - 1)) as Vd.
  unfold Math_abs. rewrite sub_spec, abs_spec. rewrite sub_spec in *.
  set (R := Prim2SF (rem (h / 60) 2)) in *.
  assert (V1 : valid_binary (Prim2SF 1) = true) by reflexivity.
  assert (M1 : mag_le 3 (Prim2SF 1) = true) by reflexivity.
  apply (mag_le_fin 5).
  apply (SFsub_mag 3); [exact V1|now apply SFabs_valid|exact M1| |].
  - apply SFabs_mag. apply (SFsub_mag 1); [exact Vr|exact V1|exact Hr| |].
    + reflexivity.
    + vm_compute. split; discriminate.
  - vm_compute. split; discriminate.
Qed.

Lemma SFmul_zero_fin s x :
  is_fin x = true -> exists s', SF64mul (S754_zero s) x = S754_zero s'.
Proof.
  destruct x as [sx|sx| |sx mx ex]; try discriminate; intros _;
    eexists; reflexivity.
Qed.

(** Any zero added to [+0] is [+0], and that times 255 rounds to 0. *)
Lemma zero_channel z s :
  Prim2SF z = S754_zero s -> Math_round ((z + 0) * 255) = 0%float.
Proof.
  intros Hz.
  assert (Hsum : (z + 0)%float = 0%float).
  { apply Prim2SF_inj. rewrite add_spec, Hz. now destruct s. }
  now rewrite Hsum.
Qed.

(** The sector only arranges its three arguments. *)
Lemma hueSector_cases h c x :
  hueSector h c x = (c, x, 0%float) \/ hueSector h c x = (x, c, 0%float) \/
  hueSector h c x = (0%float, c, x) \/ hueSector h c x = (0%float, x, c) \/
  hueSector h c x = (x, 0%float, c) \/ hueSector h c x = (c, 0%float, x).
Proof.
  unfold hueSector.
  repeat match goal with |- context [if ?b then _ else _] => destruct b end;
    tauto.
Qed.

(** ** Black and gray *)

(** X15.  At brightness 0 every hue and every saturation is black. *)
Theorem hsbToRgb_black h s
    (Hh : PrimFloat.is_finite h = true) (Hs : PrimFloat.is_finite s = true) :
  hsbToRgb h s 0 = (0, 0, 0)%float.
Proof.
  unfold hsbToRgb. cbv zeta.
  change (0 / 100)%float with 0%float.
  set (c := (0 * (s / 100))%float).
  set (x := (c * (1 - Math_abs (rem (h / 60) 2 - 1)))%float).
  assert (Hc : exists sc, Prim2SF c = S754_zero sc).
  { unfold c. rewrite mul_spec, div_spec.
    change (Prim2SF 0) with (S754_zero false).
    change (Prim2SF 100) with (S754_finite false 7036874417766400 (-46)).
    apply SFmul_zero_fin, SFdiv_fin_by;
      [apply Prim2SF_valid|now apply is_finite_fin|vm_compute; discriminate]. }
  destruct Hc as [sc Hc].
  assert (Hx : exists sx, Prim2SF x = S754_zero sx).
  { unfold x. rewrite mul_spec, Hc. apply SFmul_zero_fin.
    now apply hue_factor_fin. }
  destruct Hx as [sx Hx].
  assert (Hm : (0 - c)%float = 0%float).
  { apply Prim2SF_inj. rewrite sub_spec, Hc. now destruct sc. }
  rewrite Hm.
  assert (H0 : Math_round ((0 + 0) * 255) = 0%float) by reflexivity.
  pose proof (zero_channel c sc Hc) as Rc.
  pose proof (zero_channel x sx Hx) as Rx.
  destruct (hueSector_cases h c x) as [E|[E|[E|[E|[E|E]]]]];
    rewrite E; now rewrite ?Rc, ?Rx, ?H0.
Qed.

Lemma hsbToRgb_black_witness : hsbToRgb 200 80 0 = (0, 0, 0)%float.
Proof. apply (hsbToRgb_black 200 80); reflexivity. Defined.

(** X16.  At saturation 0 every hue is a gray: the three channels are equal,
    and for a positive brightness they are [Math.round (b / 100 * 255)]. *)
Theorem hsbToRgb_gray h b
    (Hh : PrimFloat.is_finite h = true) (Hb : PrimFloat.is_finite b = true) :
  exists v,
    hsbToRgb h 0 b = (v, v, v) /\
    ((0 <? b)%float = true -> v = Math_round (b / 100 * 255)).
Proof.
  unfold hsbToRgb. cbv zeta.
  change (0 / 100)%float with 0%float.
  set (b' := (b / 100)%float).
  set (c := (b' * 0)%float).
  set (x := (c * (1 - Math_abs (rem (h / 60) 2 - 1)))%float).
  assert (Fb : is_fin (Prim2SF b') = true).
  { unfold b'. rewrite div_spec.
    change (Prim2SF 100) with (S754_finite false 7036874417766400 (-46)).
    apply SFdiv_fin_by;
      [apply Prim2SF_valid|now apply is_finite_fin|vm_compute; discriminate]. }
  assert (Hc : exists sc, Prim2SF c = S754_zero sc /\
                          (forall sb, Prim2SF b' = S754_zero sb -> sc = sb)).
  { unfold c. rewrite mul_spec. change (Prim2SF 0) with (S754_zero false).
    destruct (Prim2SF b') as [sb|sb| |sb mb eb]; try discriminate.
    - exists (xorb sb false). split; [reflexivity|].
      intros sb' [= <-]. now destruct sb.
    - exists (xorb sb false). split; [reflexivity|]. discriminate. }
  destruct Hc as (sc & Hc & Hsign).
  assert (Hx : exists sx, Prim2SF x = S754_zero sx).
  { unfold x. rewrite mul_spec, Hc. apply SFmul_zero_fin.
    now apply hue_factor_fin. }
  destruct Hx as [sx Hx].
  (* the channel of any zero is the channel of the brightness *)
  assert (Hchan : exists m, forall z sz, Prim2SF z = S754_zero sz ->
                    (z + (b' - c))%float = m /\
                    ((0 <? b)%float = true -> m = b')).
  { destruct (Prim2SF b') as [sb|sb| |sb mb eb] eqn:Eb; try discriminate.
    - exists 0%float. intros z sz Hz. split.
      + apply Prim2SF_inj. rewrite add_spec, sub_spec, Hz, Eb, Hc.
        rewrite (Hsign sb eq_refl). now destruct sb, sz.
      + intros Hpos. apply Prim2SF_inj. rewrite Eb.
        assert (sb = false); [|now subst].
        unfold b' in Eb. rewrite div_spec in Eb.
        rewrite ltb_spec in Hpos.
        change (Prim2SF 0) with (S754_zero false) in Hpos.
        change (Prim2SF 100) with (S754_finite false 7036874417766400 (-46)) in Eb.
        destruct (Prim2SF b) as [s0|s0| |s0 m0 e0]; try discriminate.
        destruct s0; [discriminate|].
        pose proof (binary_round_aux_sign false) as Hsgn.
        unfold SF64div, SFdiv in Eb.
        destruct (SFdiv_core_binary prec emax (Z.pos m0) e0
                    (Z.pos 7036874417766400) (-46)) as [[q e'] l] eqn:Ecore.
        cbn [xorb] in Eb.
        assert (Hq : 0 <= q).
        { unfold SFdiv_core_binary in Ecore. cbv zeta in Ecore.
          set (m' := match _ - _ with Z.pos _ => _ | Z0 => _ | Z.neg _ => _ end)
            in Ecore.
          assert (Hm' : 0 <= m').
          { unfold m'. destruct (_ - _ - _); [lia| |lia].
            apply Z.shiftl_nonneg. lia. }
          pose proof (Z.div_pos m' 7036874417766400 Hm' ltac:(lia)) as Hdiv.
          unfold Z.div in Hdiv.
          destruct (Z.div_eucl m' 7036874417766400) as [q' r'].
          cbn [fst] in Hdiv. congruence. }
        destruct (binary_round_aux_steps prec emax false q e' l Hq)
          as (m2 & _ & Hstep).
        rewrite Hstep in Eb. cbv zeta in Eb.
        destruct (m2 / _); [congruence| |discriminate].
        now destruct (_ <=? _).
    - exists b'. intros z sz Hz. split; [|reflexivity].
      apply Prim2SF_inj. rewrite add_spec, sub_spec, Hz, Eb, Hc. reflexivity. }
  destruct Hchan as (m & Hm).
  exists (Math_round (m * 255)).
  assert (H0 : Prim2SF 0 = S754_zero false) by reflexivity.
  destruct (Hm c sc Hc) as [Ec Hpos].
  destruct (Hm x sx Hx) as [Ex _].
  destruct (Hm 0%float false H0) as [E0 _].
  split.
  - destruct (hueSector_cases h c x) as [E|[E|[E|[E|[E|E]]]]];
      rewrite E; now rewrite Ec, Ex, E0.
  - intros Hb0. now rewrite (Hpos Hb0).
Qed.

Lemma hsbToRgb_gray_witness :
  exists v, hsbToRgb 200 0 50 = (v, v, v) /\
            ((0 <? 50)%float = true -> v = Math_round (50 / 100 * 255)).
Proof. apply (hsbToRgb_gray 200 50); reflexivity. Defined.

(** ** The hue at 360 *)

(** The product of two numbers between 0 and 1 is finite. *)
Lemma SFmul_unit_fin x y :
  mag_le 0 x = true -> mag_le 0 y = true -> is_fin (SF64mul x y) = true.
Proof.
  intros Hx Hy.
  destruct x as [sx|sx| |sx mx ex], y as [sy|sy| |sy my ey];
    try discriminate; try reflexivity.
  cbn [mag_le] in Hx, Hy.
  apply andb_prop in Hx as [Hxe Hxm]. apply andb_prop in Hy as [Hye Hym].
  apply Z.leb_le in Hxe, Hxm, Hye, Hym.
  unfold SF64mul, SFmul. apply (mag_le_fin 1).
  apply binary_round_aux_below;
    [lia|lia| |vm_compute; split; discriminate|change (emax - prec) with 971; lia].
  rewrite Pos2Z.inj_mul.
  replace (1 - (ex + ey)) with (1 + ((0 - ex) + (0 - ey))) by lia.
  rewrite !Z.pow_add_r by lia. change (2 ^ 1) with 2.
  assert (0 < 2 ^ (0 - ex)) by (apply Z.pow_pos_nonneg; lia).
  assert (0 < 2 ^ (0 - ey)) by (apply Z.pow_pos_nonneg; lia).
  nia.
Qed.

(** With a finite chroma [c], the channel of [c * 0] is the channel of
    0. *)
Lemma zero_chroma_channel c b' :
  is_fin (Prim2SF c) = true ->
  (c * 0 + (b' - c))%float = (0 + (b' - c))%float.
Proof.
  intros Hc. pose proof (Prim2SF_valid c) as Vc.
  pose proof (Prim2SF_valid b') as Vb.
  apply Prim2SF_inj. rewrite !add_spec, sub_spec, mul_spec.
  change (Prim2SF 0) with (S754_zero false).
  destruct (Prim2SF c) as [sc|sc| |sc mc ec]; try discriminate.
  - destruct (Prim2SF b') as [sb|sb| |sb mb eb]; try reflexivity;
      now destruct sc, sb.
  - destruct (Prim2SF b') as [sb|sb| |sb mb eb]; try reflexivity;
      try (now destruct sc, sb).
    + cbn [SF64mul SFmul xorb].
      assert (Hm : SF64sub (S754_finite sb mb eb) (S754_finite sc mc ec)
                   <> S754_zero true).
      { apply valid_digits in Vc as [_ [Hminc _]].
        apply valid_digits in Vb as [_ [Hminb _]].
        unfold SF64sub, SFsub. cbv zeta.
        set (ez := Z.min eb ec).
        assert (Hez : emin <= ez) by (unfold ez; lia).
        destruct (_ - _) as [|d|d]; cbn [binary_normalize]; [discriminate| |];
          now apply binary_round_not_zero. }
      destruct (SF64sub _ _) as [[]|sm| |sm mm em]; try reflexivity;
        [now destruct Hm|now destruct sc].
Qed.

(** X17.  On the documented ranges of saturation and brightness the hue wraps:
    360 gives the color of 0.  The conversion is not periodic beyond:
    420 is not 60. *)
Theorem hsbToRgb_wraps_at_360 s b
    (Hs0 : (0 <=? s)%float = true) (Hs : (s <=? 100)%float = true)
    (Hb0 : (0 <=? b)%float = true) (Hb : (b <=? 100)%float = true) :
  hsbToRgb 360 s b = hsbToRgb 0 s b /\
  hsbToRgb 420 100 100 <> hsbToRgb 60 100 100.
Proof.
  split.
  - unfold hsbToRgb. cbv zeta.
    set (c := (b / 100 * (s / 100))%float).
    change (1 - Math_abs (rem (360 / 60) 2 - 1))%float with 0%float.
    change (1 - Math_abs (rem (0 / 60) 2 - 1))%float with 0%float.
    change (hueSector 360 c (c * 0)) with (c, 0%float, (c * 0)%float).
    change (hueSector 0 c (c * 0)) with (c, (c * 0)%float, 0%float).
    cbv iota.
    assert (Hc : is_fin (Prim2SF c) = true).
    { unfold c. rewrite mul_spec.
      apply SFmul_unit_fin; now apply div_unit. }
    now rewrite (zero_chroma_channel c (b / 100) Hc).
  - intros H. apply (f_equal (fun t : RGBColor => snd (fst t))) in H.
    revert H. apply float_neq. vm_compute. reflexivity.
Qed.

Lemma hsbToRgb_wraps_at_360_witness :
  hsbToRgb 360 80 90 = hsbToRgb 0 80 90 /\
  hsbToRgb 420 100 100 <> hsbToRgb 60 100 100.
Proof. apply (hsbToRgb_wraps_at_360 80 90); reflexivity. Defined.
